(** * emu2mqtt: the serial frame loop of [main.go]

    A shallow embedding of [scanSerial] (main.go, lines 138-219) and of the
    library routines it calls: [strings.Index], the [bufio.Scanner] read
    loop, the [hexadecimal] rule of go-playground/validator,
    [strconv.ParseInt], the float64 arithmetic of the unit conversion and
    the two [fmt.Sprintf] verbs; of [publishPower], [publishEnergy] and
    [setupMQTTDiscovery] (lines 82-127) as the messages they publish; and
    of [main] (lines 221-231) over what [loadConfiguration], [connectMQTT]
    and [connectSerial] meet outside the program.

    Go values are represented as follows.
    - [string] and [[]byte] are [String.string] (a sequence of 8-bit
      characters); the conversions [string(data)] and [[]byte(s)] copy the
      bytes and are the identity here.
    - [int], [int64], [uint64] and [int32] are [Z]; every place where the Go
      value wraps writes the reduction out.
    - [float64] is [spec_float] at precision 53 and maximal exponent 1024,
      with the IEEE-754 operations of [SpecFloat].
    - [log.Fatal] and run-time panics end the loop with an [Outcome]. *)

From Stdlib Require Import ZArith List Bool Ascii String Lia.
From Stdlib Require Import Numbers.DecimalString Floats.SpecFloat.
From Stdlib Require Numbers.DecimalPos Numbers.DecimalFacts.
Import ListNotations.

Local Open Scope string_scope.
Local Open Scope Z_scope.

(** ** Byte strings *)

Definition CR : ascii := "013"%char.
Definition LF : ascii := "010"%char.
Definition CRLF : string := String CR (String LF EmptyString).

(** [len(s)] *)
Definition len (s : string) : Z := Z.of_nat (String.length s).

(** The first [n] bytes of [s], and what follows them. *)
Fixpoint take (n : nat) (s : string) : string :=
  match n, s with
  | S n', String c s' => String c (take n' s')
  | _, _ => EmptyString
  end.

Fixpoint drop (n : nat) (s : string) : string :=
  match n, s with
  | S n', String _ s' => drop n' s'
  | _, _ => s
  end.

(** [s[:n]] and [s[n:]] for [0 <= n <= len(s)]. *)
Definition slice_to (s : string) (n : Z) : string := take (Z.to_nat n) s.
Definition slice_from (s : string) (n : Z) : string := drop (Z.to_nat n) s.

(** [whole] has an occurrence of [sep] starting at byte offset [i]. *)
Definition occurs_at (sep whole : string) (i : nat) : Prop :=
  exists pre post, whole = pre ++ sep ++ post /\ String.length pre = i.

(** ** [strings.Index] *)

Module strings.

(** [Index(s, substr)]: the offset of the first instance of [substr] in [s],
    or -1 when there is none.  [from] counts the bytes already passed. *)
Fixpoint Index_from (from : Z) (s substr : string) : Z :=
  if prefix substr s then from
  else match s with
       | EmptyString => -1
       | String _ s' => Index_from (from + 1) s' substr
       end.

Definition Index (s substr : string) : Z := Index_from 0 s substr.

End strings.

(** ** [bufio.Scanner] *)

Module bufio.

Definition MaxScanTokenSize : Z := 64 * 1024.
Definition startBufSize : Z := 4096.
Definition maxConsecutiveEmptyReads : Z := 100.
(** The largest [int] of a 64-bit platform. *)
Definition maxInt : Z := 2 ^ 63 - 1.

(** The errors of [bufio] and [io] that [Scan] can store. *)
Inductive error : Set :=
  | EOF | ErrNoProgress
  | ErrTooLong | ErrNegativeAdvance | ErrAdvanceTooFar | ErrBadReadCount
  | ErrFinalToken.

(** The [io.Reader] under the scanner: the amounts of bytes the device makes
    available, in order.  [Read(p)] hands over the bytes of the first amount
    that fit in [p] and leaves the others for the next call; an empty amount
    is a read of no byte; after the last one [Read] reports [io.EOF]. *)
Definition Reader : Set := list string.

Definition SplitFunc : Set := string -> bool -> Z * option string * option error.

Record Scanner : Set := mkScanner {
  r : Reader;
  maxTokenSize : Z;
  buf_len : Z;          (* len(s.buf) *)
  start : Z;            (* s.start *)
  buffered : string;    (* s.buf[s.start:s.end] *)
  err : option error;   (* s.err, [None] for nil *)
  empties : Z;
  done : bool
}.

(** [s.end] *)
Definition end_ (s : Scanner) : Z := start s + len (buffered s).

Definition is_set (e : option error) : bool :=
  match e with Some _ => true | None => false end.

(** [bufio.NewScanner(r)] followed by [Buffer(buf, max)], [cap] being
    [cap(buf)]. *)
Definition NewScanner (rd : Reader) (cap max : Z) : Scanner :=
  mkScanner rd max cap 0 "" None 0 false.

(** [s.setErr(err)]: the first error other than [io.EOF] is kept. *)
Definition setErr (s : Scanner) (e : error) : Scanner :=
  match err s with
  | None | Some EOF =>
      mkScanner (r s) (maxTokenSize s) (buf_len s) (start s) (buffered s)
                (Some e) (empties s) (done s)
  | Some _ => s
  end.

(** The result of one call of [Scan]: [true] with the token, [false], the
    panic on too many empty tokens, or a loop cut by the step bound. *)
Inductive Scanned : Set :=
  | Token (tok : string)
  | NoToken
  | Panics
  | Unfinished.

(** The inner read loop of [Scan]: [Read] on the [space] free bytes of the
    buffer until it returns a byte or an error; [loop] counts the reads of
    no byte.  It returns the bytes read, the error to set and the reader. *)
Fixpoint readMore (rd : Reader) (space loop : Z) : string * option error * Reader :=
  match rd with
  | [] => ("", Some EOF, [])
  | c :: rd' =>
      if len c <=? space then
        if 0 <? len c then (c, None, rd')
        else if maxConsecutiveEmptyReads <? loop + 1 then ("", Some ErrNoProgress, rd')
        else readMore rd' space (loop + 1)
      else if 0 <? space then (slice_to c space, None, slice_from c space :: rd')
      else ("", Some ErrNoProgress, rd)
  end.

Section Scan.

Variable split : SplitFunc.

(** What the first half of an iteration of [Scan]'s loop decides. *)
Inductive Tried : Set :=
  | Return (res : Scanned) (s : Scanner)
  | ReadOn (s : Scanner).

(** "See if we can get a token with what we already have." *)
Definition tryToken (s : Scanner) : Tried :=
  if (start s <? end_ s) || is_set (err s) then
    let '(advance, token, e) := split (buffered s) (is_set (err s)) in
    match e with
    | Some ErrFinalToken =>
        Return (match token with Some t => Token t | None => NoToken end)
               (mkScanner (r s) (maxTokenSize s) (buf_len s) (start s) (buffered s)
                          (err s) (empties s) true)
    | Some e' => Return NoToken (setErr s e')
    | None =>
        if advance <? 0 then Return NoToken (setErr s ErrNegativeAdvance)
        else if end_ s - start s <? advance then Return NoToken (setErr s ErrAdvanceTooFar)
        else
          let s1 := mkScanner (r s) (maxTokenSize s) (buf_len s) (start s + advance)
                              (slice_from (buffered s) advance) (err s) (empties s) (done s) in
          match token with
          | None => ReadOn s1
          | Some t =>
              if negb (is_set (err s1)) || (0 <? advance) then
                Return (Token t)
                       (mkScanner (r s1) (maxTokenSize s1) (buf_len s1) (start s1) (buffered s1)
                                  (err s1) 0 (done s1))
              else if maxConsecutiveEmptyReads <? empties s1 + 1 then
                Return Panics
                       (mkScanner (r s1) (maxTokenSize s1) (buf_len s1) (start s1) (buffered s1)
                                  (err s1) (empties s1 + 1) (done s1))
              else
                Return (Token t)
                       (mkScanner (r s1) (maxTokenSize s1) (buf_len s1) (start s1) (buffered s1)
                                  (err s1) (empties s1 + 1) (done s1))
          end
    end
  else ReadOn s.

(** "Shift data to beginning of buffer if there's lots of empty space or
    space is needed." *)
Definition shift (s : Scanner) : Scanner :=
  if (0 <? start s) && ((end_ s =? buf_len s) || (buf_len s / 2 <? start s)) then
    mkScanner (r s) (maxTokenSize s) (buf_len s) 0 (buffered s) (err s) (empties s) (done s)
  else s.

(** "Is the buffer full? If so, resize."  [None] is [ErrTooLong]. *)
Definition grow (s : Scanner) : option Scanner :=
  if end_ s =? buf_len s then
    if (maxTokenSize s <=? buf_len s) || (maxInt / 2 <? buf_len s) then None
    else
      let newSize := buf_len s * 2 in
      let newSize := if newSize =? 0 then startBufSize else newSize in
      let newSize := Z.min newSize (maxTokenSize s) in
      Some (mkScanner (r s) (maxTokenSize s) newSize 0 (buffered s) (err s) (empties s) (done s))
  else Some s.

(** "Finally we can read some input." *)
Definition fill (s : Scanner) : Scanner :=
  let '(data, e, rd) := readMore (r s) (buf_len s - end_ s) 0 in
  let s1 := mkScanner rd (maxTokenSize s) (buf_len s) (start s) (buffered s ++ data) (err s)
                      (if 0 <? len data then 0 else empties s) (done s) in
  match e with
  | Some e' => setErr s1 e'
  | None => s1
  end.

(** The [for] loop of [Scan], at most [fuel] times round. *)
Fixpoint Scan_loop (fuel : nat) (s : Scanner) : Scanned * Scanner :=
  match fuel with
  | O => (Unfinished, s)
  | S fuel' =>
      match tryToken s with
      | Return res s' => (res, s')
      | ReadOn s1 =>
          if is_set (err s1) then
            (NoToken,
             mkScanner (r s1) (maxTokenSize s1) (buf_len s1) 0 "" (err s1) (empties s1) (done s1))
          else
            match grow (shift s1) with
            | None => (NoToken, setErr (shift s1) ErrTooLong)
            | Some s2 => Scan_loop fuel' (fill s2)
            end
      end
  end.

(** Each round that does not return reads a byte or an empty amount, or
    sets the error that ends the next round. *)
Definition reader_size (rd : Reader) : nat :=
  fold_right (fun c n => S (String.length c + n)) O rd.

(** [s.Scan()] *)
Definition Scan (s : Scanner) : Scanned * Scanner :=
  if done s then (NoToken, s)
  else Scan_loop (S (S (reader_size (r s)))) s.

(** How a sequence of calls of [Scan] ends. *)
Inductive Ending : Set :=
  | Stopped       (* Scan returned false *)
  | Panicked
  | Cut.          (* the step bound was reached *)

(** The tokens of successive calls of [Scan], until one returns false. *)
Fixpoint Scan_all (fuel : nat) (s : Scanner) : list string * Ending :=
  match fuel with
  | O => ([], Cut)
  | S fuel' =>
      match Scan s with
      | (Token t, s') => let '(ts, e) := Scan_all fuel' s' in (t :: ts, e)
      | (NoToken, _) => ([], Stopped)
      | (Panics, _) => ([], Panicked)
      | (Unfinished, _) => ([], Cut)
      end
  end.

End Scan.

End bufio.

(** ** The split function of [scanSerial] (main.go, lines 144-156) *)

Definition closeInstantaneousDemand : string := "</InstantaneousDemand>" ++ CRLF.
Definition closeCurrentSummationDelivered : string := "</CurrentSummationDelivered>" ++ CRLF.
Definition closeTimeCluster : string := "</TimeCluster>" ++ CRLF.

(** The three closing markers, in the order [split] looks for them. *)
Definition markers : list string :=
  [closeInstantaneousDemand; closeCurrentSummationDelivered; closeTimeCluster].

(** [split(data, atEOF)] returns [(advance, token, err)], with [None] for
    Go's [nil]. *)
Definition split (data : string) (atEOF : bool) : Z * option string * option bufio.error :=
  let i := strings.Index data closeInstantaneousDemand in
  if 0 <=? i then (i + 24, Some (slice_to data (i + 24)), None) else
  let i := strings.Index data closeCurrentSummationDelivered in
  if 0 <=? i then (i + 30, Some (slice_to data (i + 30)), None) else
  let i := strings.Index data closeTimeCluster in
  if 0 <=? i then (i + 16, Some (slice_to data (i + 16)), None) else
  (0, None, None).

(** The frames [scanSerial]'s scanner yields on the stream [rd]: the split
    function above, the two-byte initial buffer of line 159 and the token
    limit of line 160.  Every token takes at least one byte of the stream. *)
Definition newScanner (rd : bufio.Reader) : bufio.Scanner :=
  bufio.NewScanner rd 2 bufio.MaxScanTokenSize.

Definition frames (rd : bufio.Reader) : list string * bufio.Ending :=
  bufio.Scan_all split (S (bufio.reader_size rd)) (newScanner rd).

(** ** [strconv] *)

Module strconv.

(** [NumError.Err] *)
Inductive NumError : Set := ErrSyntax | ErrRange | ErrBase | ErrBitSize.

Definition IntSize : Z := 64.
Definition maxUint64 : Z := 2 ^ 64 - 1.

(** The value of a byte, and [lower(c) = c | ('x' - 'X')]. *)
Definition byte (c : ascii) : Z := Z.of_N (N_of_ascii c).
Definition lower (c : Z) : Z := Z.lor c 32.

(** The byte at offset [i], 0 when there is none (never asked for). *)
Definition at_ (s : string) (i : nat) : Z :=
  match String.get i s with Some c => byte c | None => 0 end.

(** [underscoreOK(s)]: underscores only between digits, or between the base
    prefix and a digit.  [saw] is the kind of the last byte seen. *)
Inductive Saw : Set := SawStart | SawDigit | SawUnderscore | SawOther.

Fixpoint underscoreOK_loop (s : string) (hex : bool) (saw : Saw) : bool :=
  match s with
  | EmptyString => match saw with SawUnderscore => false | _ => true end
  | String ch s' =>
      let c := byte ch in
      if ((48 <=? c) && (c <=? 57)) || (hex && (97 <=? lower c) && (lower c <=? 102))
      then underscoreOK_loop s' hex SawDigit
      else if c =? 95 then
        match saw with
        | SawDigit => underscoreOK_loop s' hex SawUnderscore
        | _ => false
        end
      else
        match saw with
        | SawUnderscore => false
        | _ => underscoreOK_loop s' hex SawOther
        end
  end.

Definition underscoreOK (s : string) : bool :=
  let s := if (1 <=? len s) && ((at_ s 0 =? 45) || (at_ s 0 =? 43)) then drop 1 s else s in
  if (2 <=? len s) && (at_ s 0 =? 48)
     && ((lower (at_ s 1) =? 98) || (lower (at_ s 1) =? 111) || (lower (at_ s 1) =? 120))
  then underscoreOK_loop (drop 2 s) (lower (at_ s 1) =? 120) SawDigit
  else underscoreOK_loop s false SawStart.

(** The digit a byte stands for in [ParseUint], if any: ['0'..'9'], and a
    letter of either case from 10 on. *)
Definition digitOf (c : Z) : option Z :=
  if (48 <=? c) && (c <=? 57) then Some (c - 48)
  else if (97 <=? lower c) && (lower c <=? 122) then Some (lower c - 97 + 10)
  else None.

(** The digit loop of [ParseUint]: [n] is the value so far, in [uint64].
    It returns the value, the error and whether an underscore was seen. *)
Fixpoint digits (s : string) (base0 : bool) (base cutoff maxVal n : Z) (underscores : bool)
  : Z * option NumError * bool :=
  match s with
  | EmptyString => (n, None, underscores)
  | String ch s' =>
      let c := byte ch in
      if (c =? 95) && base0 then digits s' base0 base cutoff maxVal n true
      else
        match digitOf c with
        | None => (0, Some ErrSyntax, underscores)
        | Some d =>
            if base <=? d then (0, Some ErrSyntax, underscores)
            else if cutoff <=? n then (maxVal, Some ErrRange, underscores)
            else
              let n' := (n * base) mod 2 ^ 64 in
              let n1 := (n' + d) mod 2 ^ 64 in
              if (n1 <? n') || (maxVal <? n1) then (maxVal, Some ErrRange, underscores)
              else digits s' base0 base cutoff maxVal n1 underscores
        end
  end.

(** The base and the digits to read, [None] for an invalid base. *)
Definition pickBase (s : string) (base : Z) : option (Z * string) :=
  if (2 <=? base) && (base <=? 36) then Some (base, s)
  else if base =? 0 then
    if at_ s 0 =? 48 then
      if (3 <=? len s) && (lower (at_ s 1) =? 98) then Some (2, drop 2 s)
      else if (3 <=? len s) && (lower (at_ s 1) =? 111) then Some (8, drop 2 s)
      else if (3 <=? len s) && (lower (at_ s 1) =? 120) then Some (16, drop 2 s)
      else Some (8, drop 1 s)
    else Some (10, s)
  else None.

Definition ParseUint (s : string) (base bitSize : Z) : Z * option NumError :=
  if (s =? "")%string then (0, Some ErrSyntax)
  else
    let base0 := base =? 0 in
    match pickBase s base with
    | None => (0, Some ErrBase)
    | Some (base', s') =>
        if (bitSize <? 0) || (64 <? bitSize) then (0, Some ErrBitSize)
        else
          let bitSize := if bitSize =? 0 then IntSize else bitSize in
          let cutoff := maxUint64 / base' + 1 in
          let maxVal := ((2 ^ bitSize) mod 2 ^ 64 - 1) mod 2 ^ 64 in
          let '(n, e, underscores) := digits s' base0 base' cutoff maxVal 0 false in
          match e with
          | Some _ => (n, e)
          | None =>
              if underscores && negb (underscoreOK s) then (0, Some ErrSyntax)
              else (n, None)
          end
    end.

(** [int64(u)] for [u] in [uint64], and the negation in [int64]. *)
Definition int64 (z : Z) : Z := (z + 2 ^ 63) mod 2 ^ 64 - 2 ^ 63.

Definition ParseInt (s : string) (base bitSize : Z) : Z * option NumError :=
  if (s =? "")%string then (0, Some ErrSyntax)
  else
    let '(neg, s') :=
      if at_ s 0 =? 43 then (false, drop 1 s)
      else if at_ s 0 =? 45 then (true, drop 1 s)
      else (false, s) in
    let '(un, e) := ParseUint s' base bitSize in
    match e with
    | Some ErrSyntax => (0, e)
    | Some ErrBase => (0, e)
    | Some ErrBitSize => (0, e)
    | _ =>
        let bitSize := if bitSize =? 0 then IntSize else bitSize in
        let cutoff := 2 ^ (bitSize - 1) in
        if negb neg && (cutoff <=? un) then (cutoff - 1, Some ErrRange)
        else if neg && (cutoff <? un) then (- cutoff, Some ErrRange)
        else
          let n := int64 un in
          (if neg then int64 (- n) else n, None)
    end.

(** [FormatInt(i, 10)], which is what [fmt]'s [%v] prints for an [int]. *)
Definition FormatInt (i : Z) : string := NilZero.string_of_int (Z.to_int i).

End strconv.

(** ** The [required] and [hexadecimal] rules of go-playground/validator *)

Module validator.

Definition isHexDigit (ch : ascii) : bool :=
  let c := strconv.byte ch in
  ((48 <=? c) && (c <=? 57)) || ((97 <=? c) && (c <=? 102)) || ((65 <=? c) && (c <=? 70)).

(** [[0-9a-fA-F]+] over the whole of [s]. *)
Fixpoint hexDigits (s : string) : bool :=
  match s with
  | EmptyString => false
  | String c EmptyString => isHexDigit c
  | String c s' => isHexDigit c && hexDigits s'
  end.

(** [hexadecimalRegex.MatchString(s)], the expression being
    [^(0[xX])?[0-9a-fA-F]+$]: hexadecimal digits after an optional prefix. *)
Definition isHexadecimal (s : string) : bool :=
  match s with
  | String "0" (String x rest) =>
      ((Ascii.eqb x "x" || Ascii.eqb x "X") && hexDigits rest) || hexDigits s
  | _ => hexDigits s
  end.

(** [required] on a string field: it is not the zero value. *)
Definition hasValue (s : string) : bool := negb (s =? "")%string.

(** The tag [validate:"required,hexadecimal"]. *)
Definition required_hexadecimal (s : string) : bool := hasValue s && isHexadecimal s.

End validator.

(** ** [float64] *)

Definition float64 : Set := spec_float.

Definition prec : Z := 53.
Definition emax : Z := 1024.

(** The conversion [float64(n)] of an integer, to the nearest value. *)
Definition float64_of_int (n : Z) : float64 := binary_normalize prec emax n 0 false.
Definition fmul (x y : float64) : float64 := SFmul prec emax x y.
Definition fdiv (x y : float64) : float64 := SFdiv prec emax x y.

(** The integer part of a finite value, the fraction discarded. *)
Definition truncate (f : float64) : option Z :=
  match f with
  | S754_zero _ => Some 0
  | S754_finite s m e =>
      let a := if e <? 0 then Z.pos m / 2 ^ (- e) else Z.pos m * 2 ^ e in
      Some (if s then - a else a)
  | S754_infinity _ | S754_nan => None
  end.

(** [int32(i)] of an [int64]: the low 32 bits, sign-extended. *)
Definition int32 (i : Z) : Z := (i + 2 ^ 31) mod 2 ^ 32 - 2 ^ 31.

(** ** [fmt.Sprintf("%.3f", f)] *)

Module fmt.

Definition digit (d : Z) : ascii := ascii_of_N (Z.to_N (48 + d)).

(** [d] as [n] decimal digits, high digits first. *)
Fixpoint fixedDigits (n : nat) (d : Z) : string :=
  match n with
  | O => ""
  | S n' => fixedDigits n' (d / 10) ++ String (digit (d mod 10)) ""
  end.

(** [m * 2^e * 10^p] to the nearest integer, ties to even: the digits
    [strconv] keeps of the exact decimal expansion. *)
Definition scaled (m : positive) (e : Z) (p : nat) : Z :=
  let t := Z.pos m * 10 ^ Z.of_nat p in
  if e <? 0 then
    let q := t / 2 ^ (- e) in
    let r := t mod 2 ^ (- e) in
    match 2 * r ?= 2 ^ (- e) with
    | Lt => q
    | Gt => q + 1
    | Eq => if Z.even q then q else q + 1
    end
  else t * 2 ^ e.

(** The verb [%.pf]. *)
Definition Sprintf_f (p : nat) (f : float64) : string :=
  match f with
  | S754_nan => "NaN"
  | S754_infinity false => "+Inf"
  | S754_infinity true => "-Inf"
  | S754_zero s =>
      (if s then "-" else "") ++ "0" ++ "." ++ fixedDigits p 0
  | S754_finite s m e =>
      let n := scaled m e p in
      (if s then "-" else "") ++ strconv.FormatInt (n / 10 ^ Z.of_nat p) ++ "."
        ++ fixedDigits p (n mod 10 ^ Z.of_nat p)
  end.

(** The verb [%v] on an [int]. *)
Definition Sprintf_v (i : Z) : string := strconv.FormatInt i.

End fmt.

(** ** The two record types (main.go, lines 17-42) *)

Module InstantaneousDemand.
Record t : Set := mk {
  XMLName : string;
  DeviceMacId : string;
  MeterMacId : string;
  TimeStamp : string;
  Demand : string;
  Multiplier : string;
  Divisor : string;
  DigitsRight : string;
  DigitsLeft : string;
  SuppressLeadingZero : string
}.

(** The zero value of [var instantaneousDemand InstantaneousDemand]. *)
Definition zero : t := mk "" "" "" "" "" "" "" "" "" "".

(** The field an element named [name] is stored in. *)
Definition set (name text : string) (v : t) : t :=
  let '(mk x a b c d e f g h i) := v in
  if (name =? "DeviceMacId")%string then mk x text b c d e f g h i
  else if (name =? "MeterMacId")%string then mk x a text c d e f g h i
  else if (name =? "TimeStamp")%string then mk x a b text d e f g h i
  else if (name =? "Demand")%string then mk x a b c text e f g h i
  else if (name =? "Multiplier")%string then mk x a b c d text f g h i
  else if (name =? "Divisor")%string then mk x a b c d e text g h i
  else if (name =? "DigitsRight")%string then mk x a b c d e f text h i
  else if (name =? "DigitsLeft")%string then mk x a b c d e f g text i
  else if (name =? "SuppressLeadingZero")%string then mk x a b c d e f g h text
  else v.

Definition setName (name : string) (v : t) : t :=
  let '(mk _ a b c d e f g h i) := v in mk name a b c d e f g h i.

(** [v.Struct(x)] is nil: the fields tagged
    [validate:"required,hexadecimal"] all pass. *)
Definition valid (v : t) : bool :=
  validator.required_hexadecimal (Demand v)
  && validator.required_hexadecimal (Multiplier v)
  && validator.required_hexadecimal (Divisor v).
End InstantaneousDemand.

Module CurrentSummationDelivered.
Record t : Set := mk {
  XMLName : string;
  DeviceMacId : string;
  MeterMacId : string;
  TimeStamp : string;
  SummationDelivered : string;
  SummationReceived : string;
  Multiplier : string;
  Divisor : string;
  DigitsRight : string;
  DigitsLeft : string;
  SuppressLeadingZero : string
}.

Definition zero : t := mk "" "" "" "" "" "" "" "" "" "" "".

Definition set (name text : string) (v : t) : t :=
  let '(mk x a b c d e f g h i j) := v in
  if (name =? "DeviceMacId")%string then mk x text b c d e f g h i j
  else if (name =? "MeterMacId")%string then mk x a text c d e f g h i j
  else if (name =? "TimeStamp")%string then mk x a b text d e f g h i j
  else if (name =? "SummationDelivered")%string then mk x a b c text e f g h i j
  else if (name =? "SummationReceived")%string then mk x a b c d text f g h i j
  else if (name =? "Multiplier")%string then mk x a b c d e text g h i j
  else if (name =? "Divisor")%string then mk x a b c d e f text h i j
  else if (name =? "DigitsRight")%string then mk x a b c d e f g text i j
  else if (name =? "DigitsLeft")%string then mk x a b c d e f g h text j
  else if (name =? "SuppressLeadingZero")%string then mk x a b c d e f g h i text
  else v.

Definition setName (name : string) (v : t) : t :=
  let '(mk _ a b c d e f g h i j) := v in mk name a b c d e f g h i j.

Definition valid (v : t) : bool :=
  validator.required_hexadecimal (SummationDelivered v)
  && validator.required_hexadecimal (SummationReceived v)
  && validator.required_hexadecimal (Multiplier v)
  && validator.required_hexadecimal (Divisor v).
End CurrentSummationDelivered.

(** ** [xml.Unmarshal] on the meter's records

    The decoder of [encoding/xml], in its default strict mode, for the two
    structures of main.go: every field is a string filled from the child
    element of its name, and [XMLName] names the root.  A field is stored
    when the end tag of its element has been read, also when the element is
    empty or self-closing; decoding stops at the end tag of the root or at
    the first syntax error, and what was stored before stays.  A field
    whose element is absent keeps the value it had.

    Not modelled, and read as a syntax error: attributes, names with a
    colon or a byte above 127, numeric character references, comments,
    CDATA sections, processing instructions and directives. *)

Module xml.

(** The text before the first [c], and the rest from that [c] on. *)
Fixpoint cut (c : ascii) (s : string) : string * string :=
  match s with
  | EmptyString => ("", "")
  | String a s' =>
      if Ascii.eqb a c then ("", s)
      else let '(x, y) := cut c s' in (String a x, y)
  end.

(** A continuation byte of UTF-8. *)
Definition cont (c : ascii) : bool :=
  (128 <=? strconv.byte c) && (strconv.byte c <=? 191).

(** [s] is valid UTF-8 and every character of it is one XML allows
    ([isInCharacterRange]): tab, line feed, carriage return, and the
    characters from U+0020 on but for the surrogates, U+FFFE and U+FFFF. *)
Fixpoint legal (s : string) : bool :=
  match s with
  | EmptyString => true
  | String c s1 =>
      let b := strconv.byte c in
      if b <? 128 then ((b =? 9) || (b =? 10) || (b =? 13) || (32 <=? b)) && legal s1
      else
        match s1 with
        | EmptyString => false
        | String c1 s2 =>
            let b1 := strconv.byte c1 in
            if (194 <=? b) && (b <=? 223) then cont c1 && legal s2
            else
              match s2 with
              | EmptyString => false
              | String c2 s3 =>
                  let b2 := strconv.byte c2 in
                  if b =? 224 then (160 <=? b1) && (b1 <=? 191) && cont c2 && legal s3
                  else if ((225 <=? b) && (b <=? 236)) || (b =? 238) then
                    cont c1 && cont c2 && legal s3
                  else if b =? 237 then (128 <=? b1) && (b1 <=? 159) && cont c2 && legal s3
                  else if b =? 239 then
                    cont c1 && cont c2 && negb ((b1 =? 191) && (190 <=? b2)) && legal s3
                  else
                    match s3 with
                    | EmptyString => false
                    | String c3 s4 =>
                        if b =? 240 then
                          (144 <=? b1) && (b1 <=? 191) && cont c2 && cont c3 && legal s4
                        else if (241 <=? b) && (b <=? 243) then
                          cont c1 && cont c2 && cont c3 && legal s4
                        else if b =? 244 then
                          (128 <=? b1) && (b1 <=? 143) && cont c2 && cont c3 && legal s4
                        else false
                    end
              end
        end
  end.

(** The loop of [Decoder.text] on the bytes before the next [<]: the five
    predefined entities are replaced, a carriage return and a carriage
    return with its line feed become one line feed, and []]>] is an
    error.  [b0] and [b1] are the two bytes read before. *)
Fixpoint text_loop (fuel : nat) (b0 b1 : Z) (s : string) : option string :=
  match fuel with
  | O => Some ""
  | S fuel' =>
      match s with
      | EmptyString => Some ""
      | String c s' =>
          let b := strconv.byte c in
          if (b0 =? 93) && (b1 =? 93) && (b =? 62) then None
          else if b =? 38 then
            let entity (name text : string) (otherwise : option string) :=
              if prefix name s' then
                match text_loop fuel' 0 0 (drop (String.length name) s') with
                | Some t => Some (text ++ t)
                | None => None
                end
              else otherwise in
            entity "lt;" "<" (entity "gt;" ">" (entity "amp;" "&"
              (entity "apos;" "'" (entity "quot;" (String "034" "") None))))
          else
            match text_loop fuel' b1 b s' with
            | None => None
            | Some t =>
                Some (if b =? 13 then String LF t
                      else if (b1 =? 13) && (b =? 10) then t
                      else String c t)
            end
      end
  end.

(** [Decoder.text(-1, false)] on the character data [raw]. *)
Definition text (raw : string) : option string :=
  match text_loop (String.length raw) 0 0 raw with
  | Some t => if legal t then Some t else None
  | None => None
  end.

Definition isSpace (c : ascii) : bool :=
  let b := strconv.byte c in (b =? 32) || (b =? 13) || (b =? 10) || (b =? 9).

Fixpoint space (s : string) : string :=
  match s with
  | String c s' => if isSpace c then space s' else s
  | EmptyString => s
  end.

Definition isLetter (b : Z) : bool :=
  ((65 <=? b) && (b <=? 90)) || ((97 <=? b) && (b <=? 122)) || (b =? 95).

(** [isNameByte], or a byte of a character above U+007F. *)
Definition isNameByte (c : ascii) : bool :=
  let b := strconv.byte c in
  isLetter b || ((48 <=? b) && (b <=? 57)) || (b =? 58) || (b =? 46) || (b =? 45)
  || (128 <=? b).

(** [readName]: the longest run of name bytes, and what follows. *)
Fixpoint readName (s : string) : string * string :=
  match s with
  | String c s' =>
      if isNameByte c then let '(n, rest) := readName s' in (String c n, rest)
      else ("", s)
  | EmptyString => ("", "")
  end.

(** The name bytes of a name made of letters, digits, [_], [.] and [-]. *)
Fixpoint plain (n : string) : bool :=
  match n with
  | EmptyString => true
  | String c n' =>
      let b := strconv.byte c in
      (isLetter b || ((48 <=? b) && (b <=? 57)) || (b =? 46) || (b =? 45)) && plain n'
  end.

(** [isName] on such a name: it starts with a letter or [_]. *)
Definition isName (n : string) : bool :=
  match n with
  | String c _ => isLetter (strconv.byte c) && plain n
  | EmptyString => false
  end.

Inductive Token : Set :=
  | StartElement (name : string) (empty : bool)   (* [empty]: self-closing *)
  | EndElement (name : string)
  | CharData (data : string).

(** [Decoder.rawToken]: the token at the head of [s] and what follows it;
    [None] at the end of the input and for a syntax error. *)
Definition rawToken (s : string) : option (Token * string) :=
  match s with
  | EmptyString => None
  | String "<" (String "/" s1) =>
      let '(n, s2) := readName s1 in
      if isName n then
        match space s2 with
        | String ">" s3 => Some (EndElement n, s3)
        | _ => None
        end
      else None
  | String "<" s1 =>
      let '(n, s2) := readName s1 in
      if isName n then
        match space s2 with
        | String ">" s3 => Some (StartElement n false, s3)
        | String "/" (String ">" s3) => Some (StartElement n true, s3)
        | _ => None
        end
      else None
  | _ =>
      let '(raw, rest) := cut "<" s in
      match text raw with
      | Some t => Some (CharData t, rest)
      | None => None
      end
  end.

(** What the decoder reads up to the end tag of an element [name] whose
    start tag has been read: the character data directly inside it, one
    piece after the other, the elements inside skipped ([Decoder.Skip]);
    [open] holds the names of the elements inside that are not closed yet.
    [None] for a syntax error, such as an end tag of another name, or the
    end of the input. *)
Fixpoint content (fuel : nat) (open : list string) (name acc s : string)
  : option (string * string) :=
  match fuel with
  | O => None
  | S fuel' =>
      match rawToken s with
      | None => None
      | Some (CharData d, s') =>
          content fuel' open name (match open with [] => acc ++ d | _ => acc end) s'
      | Some (StartElement n true, s') => content fuel' open name acc s'
      | Some (StartElement n false, s') => content fuel' (n :: open) name acc s'
      | Some (EndElement n, s') =>
          match open with
          | [] => if (n =? name)%string then Some (acc, s') else None
          | top :: open' =>
              if (n =? top)%string then content fuel' open' name acc s' else None
          end
      end
  end.

Section Unmarshal.

Variable T : Set.
(** The field of the name, if any, set to a text. *)
Variable set : string -> string -> T -> T.
Variable setName : string -> T -> T.
(** The element name of the [XMLName] field's tag. *)
Variable root : string.

(** The loop over the children of the root. *)
Fixpoint children (fuel : nat) (s : string) (v : T) : T :=
  match fuel with
  | O => v
  | S fuel' =>
      match rawToken s with
      | Some (CharData _, s') => children fuel' s' v
      | Some (StartElement n true, s') => children fuel' s' (set n "" v)
      | Some (StartElement n false, s') =>
          match content (String.length s') [] n "" s' with
          | Some (t, s2) => children fuel' s2 (set n t v)
          | None => v
          end
      | Some (EndElement _, _) => v
      | None => v
      end
  end.

(** The root element at the head of [s]. *)
Definition element (s : string) (v : T) : T :=
  match rawToken s with
  | Some (StartElement n empty, s') =>
      if (n =? root)%string then
        if empty then setName n v else children (String.length s') s' (setName n v)
      else v
  | _ => v
  end.

(** [xml.Unmarshal(data, &v)], the error dropped: the structure after the
    call. *)
Definition Unmarshal (data : string) (v : T) : T :=
  match rawToken data with
  | Some (CharData _, s) => element s v
  | _ => element data v
  end.

End Unmarshal.

Definition UnmarshalInstantaneousDemand : string -> InstantaneousDemand.t -> InstantaneousDemand.t :=
  Unmarshal InstantaneousDemand.t InstantaneousDemand.set InstantaneousDemand.setName
            "InstantaneousDemand".

Definition UnmarshalCurrentSummationDelivered
  : string -> CurrentSummationDelivered.t -> CurrentSummationDelivered.t :=
  Unmarshal CurrentSummationDelivered.t CurrentSummationDelivered.set
            CurrentSummationDelivered.setName "CurrentSummationDelivered".

End xml.

(** ** Publishing (main.go, lines 112-127) *)

(** One [m.Publish(topic, 0, false, payload)]. *)
Record Message : Set := mkMessage { topic : string; payload : string }.

Definition powerTopic : string := "homeassistant/sensor/meter_power_demand/state".
Definition deliveredTopic : string := "homeassistant/sensor/meter_total_energy_delivered/state".
Definition receivedTopic : string := "homeassistant/sensor/meter_total_energy_received/state".

Definition publishPower (demand : string) : list Message :=
  if (demand =? "")%string then [] else [mkMessage powerTopic demand].

Definition publishEnergy (delivered received : string) : list Message :=
  ((if (delivered =? "")%string then [] else [mkMessage deliveredTopic delivered])
   ++ (if (received =? "")%string then [] else [mkMessage receivedTopic received]))%list.

(** ** The loop of [scanSerial] (main.go, lines 164-218) *)

(** How an iteration of the loop, and the function, can end. *)
Inductive Control : Set :=
  | Next                    (* on to the next call of Scan *)
  | Fatal (msg : string)    (* log.Fatal: the process exits *)
  | IndexPanic.             (* scanner.Text()[1] out of range *)

Inductive Outcome : Set :=
  | Returned                (* Scan returned false *)
  | Exited (msg : string)
  | Panic
  | Unfinished.

(** The two structures declared before the loop, which every iteration
    decodes into.  [demand], [delivered] and [received] are assigned right
    before each use and are let-bound here. *)
Record Locals : Set := mkLocals {
  instantaneousDemand : InstantaneousDemand.t;
  currentSummationDelivered : CurrentSummationDelivered.t
}.

Definition zeroLocals : Locals :=
  mkLocals InstantaneousDemand.zero CurrentSummationDelivered.zero.

Section ScanSerial.

(** [xml.Unmarshal([]byte(text), &v)], whose error the loop drops: the
    structure after the call, from the frame and the structure before. *)
Variable unmarshalDemand : string -> InstantaneousDemand.t -> InstantaneousDemand.t.
Variable unmarshalSummation
  : string -> CurrentSummationDelivered.t -> CurrentSummationDelivered.t.

(** [int(f)] when [f] is not finite or its integer part is no [int]: the
    conversion succeeds with a value the language leaves to the platform. *)
Variable intOutside : float64 -> Z.

(** [int(f)] *)
Definition int_of_float64 (f : float64) : Z :=
  match truncate f with
  | Some z => if (- 2 ^ 63 <=? z) && (z <? 2 ^ 63) then z else intOutside f
  | None => intOutside f
  end.

(** [float64(int32(i))*float64(mult)/float64(div)] (lines 185, 210, 211) *)
Definition scale (i mult div : Z) : float64 :=
  fdiv (fmul (float64_of_int (int32 i)) (float64_of_int mult)) (float64_of_int div).

(** Line 185. *)
Definition powerText (i mult div : Z) : string :=
  fmt.Sprintf_v (int_of_float64 (fmul (scale i mult div) (float64_of_int 1000))).

(** Lines 210 and 211. *)
Definition energyText (d mult div : Z) : string := fmt.Sprintf_f 3 (scale d mult div).

Definition parseFatal : string := "ERROR parsing XML:".

(** Lines 168-186, after the decoding. *)
Definition demandCase (v : InstantaneousDemand.t) : list Message * Control :=
  if negb (InstantaneousDemand.valid v) then ([], Next)
  else
    match strconv.ParseInt (InstantaneousDemand.Demand v) 0 64 with
    | (_, Some _) => ([], Fatal parseFatal)
    | (i, None) =>
    match strconv.ParseInt (InstantaneousDemand.Multiplier v) 0 64 with
    | (_, Some _) => ([], Fatal parseFatal)
    | (mult, None) =>
    match strconv.ParseInt (InstantaneousDemand.Divisor v) 0 64 with
    | (_, Some _) => ([], Fatal parseFatal)
    | (div, None) => (publishPower (powerText i mult div), Next)
    end end end.

(** Lines 189-212, after the decoding. *)
Definition summationCase (v : CurrentSummationDelivered.t) : list Message * Control :=
  if negb (CurrentSummationDelivered.valid v) then ([], Next)
  else
    match strconv.ParseInt (CurrentSummationDelivered.SummationDelivered v) 0 64 with
    | (_, Some _) => ([], Fatal parseFatal)
    | (d, None) =>
    match strconv.ParseInt (CurrentSummationDelivered.SummationReceived v) 0 64 with
    | (_, Some _) => ([], Fatal parseFatal)
    | (r, None) =>
    match strconv.ParseInt (CurrentSummationDelivered.Multiplier v) 0 64 with
    | (_, Some _) => ([], Fatal parseFatal)
    | (mult, None) =>
    match strconv.ParseInt (CurrentSummationDelivered.Divisor v) 0 64 with
    | (_, Some _) => ([], Fatal parseFatal)
    | (div, None) =>
        (publishEnergy (energyText d mult div) (energyText r mult div), Next)
    end end end end.

(** The body of the loop on the frame [text = scanner.Text()]. *)
Definition iteration (l : Locals) (text : string) : Locals * list Message * Control :=
  match String.get 1 text with
  | None => (l, [], IndexPanic)
  | Some c =>
      if Ascii.eqb c "I" then
        let v := unmarshalDemand text (instantaneousDemand l) in
        let '(out, ctl) := demandCase v in
        (mkLocals v (currentSummationDelivered l), out, ctl)
      else if Ascii.eqb c "C" then
        let v := unmarshalSummation text (currentSummationDelivered l) in
        let '(out, ctl) := summationCase v in
        (mkLocals (instantaneousDemand l) v, out, ctl)
      else if Ascii.eqb c "T" then (l, [], Next)
      else (l, [], Fatal "Unexpected case")
  end.

(** [for scanner.Scan() { ... }]: a call of [Scan], the body on its token,
    and round again, at most [fuel] times; the messages published, in
    order, and how the loop ends. *)
Fixpoint run (fuel : nat) (sc : bufio.Scanner) (l : Locals) : list Message * Outcome :=
  match fuel with
  | O => ([], Unfinished)
  | S fuel' =>
      match bufio.Scan split sc with
      | (bufio.Token text, sc') =>
          let '(l', out, ctl) := iteration l text in
          match ctl with
          | Next => let '(rest, o) := run fuel' sc' l' in ((out ++ rest)%list, o)
          | Fatal msg => (out, Exited msg)
          | IndexPanic => (out, Panic)
          end
      | (bufio.NoToken, _) => ([], Returned)
      | (bufio.Panics, _) => ([], Panic)
      | (bufio.Unfinished, _) => ([], Unfinished)
      end
  end.

(** [scanSerial(s, m)]: the messages published on [m], in order, and how
    the function ends, for the serial stream [s].  Every token takes at
    least one byte of the stream, which bounds the rounds. *)
Definition scanSerial (s : bufio.Reader) : list Message * Outcome :=
  run (S (bufio.reader_size s)) (newScanner s) zeroLocals.

(** The same loop over a given sequence of frames, [e] telling how the
    scanner ends after the last of them. *)
Fixpoint loop (l : Locals) (toks : list string) (e : bufio.Ending) : list Message * Outcome :=
  match toks with
  | [] =>
      ([], match e with
           | bufio.Stopped => Returned
           | bufio.Panicked => Panic
           | bufio.Cut => Unfinished
           end)
  | text :: toks' =>
      let '(l', out, ctl) := iteration l text in
      match ctl with
      | Next => let '(rest, o) := loop l' toks' e in ((out ++ rest)%list, o)
      | Fatal msg => (out, Exited msg)
      | IndexPanic => (out, Panic)
      end
  end.

End ScanSerial.

(** The conversion of a value that is no [int] on amd64: the "integer
    indefinite" value of CVTTSD2SQ. *)
Definition intOutside_amd64 (f : float64) : Z := - 2 ^ 63.

(** [scanSerial] with the decoder of the flat records. *)
Definition scanSerial_flat : bufio.Reader -> list Message * Outcome :=
  scanSerial xml.UnmarshalInstantaneousDemand xml.UnmarshalCurrentSummationDelivered
             intOutside_amd64.

(** ** [setupMQTTDiscovery] and [main] (main.go, lines 82-110 and 221-231) *)

(** One [m.Publish(topic, qos, retained, payload)]. *)
Record Publication : Set := mkPublication {
  message : Message;
  qos : Z;
  retained : bool
}.

(** The [m.Publish(topic, 0, false, payload)] of [publishPower] and
    [publishEnergy]. *)
Definition state (msg : Message) : Publication := mkPublication msg 0 false.

Definition QUOTE : string := String "034" "".
Definition TAB : string := String "009" "".
Definition NL : string := String LF "".

(** A line of the raw string literals of lines 83-109: two tabs, the key
    and the value, each between double quotes. *)
Definition member (key value : string) : string :=
  TAB ++ TAB ++ QUOTE ++ key ++ QUOTE ++ ": " ++ QUOTE ++ value ++ QUOTE.

(** The raw string literal, from the back quote of the line of [Publish]
    to the one after the closing brace. *)
Definition discovery (name unique_id device_class state_topic state_class unit_ : string)
  : string :=
  NL ++ TAB ++ "{" ++ NL
  ++ member "name" name ++ "," ++ NL
  ++ member "unique_id" unique_id ++ "," ++ NL
  ++ member "device_class" device_class ++ "," ++ NL
  ++ member "state_topic" state_topic ++ "," ++ NL
  ++ member "state_class" state_class ++ "," ++ NL
  ++ member "unit_of_measurement" unit_ ++ NL
  ++ TAB ++ "}".

(** [setupMQTTDiscovery(m)]: the three messages published on [m]. *)
Definition setupMQTTDiscovery : list Publication :=
  [ mkPublication
      (mkMessage "homeassistant/sensor/meter_power_demand/config"
         (discovery "Meter Power Demand" "meter_power_demand" "power"
                    "homeassistant/sensor/meter_power_demand/state"
                    "measurement" "W"))
      0 true;
    mkPublication
      (mkMessage "homeassistant/sensor/meter_total_energy_delivered/config"
         (discovery "Meter Total Energy Delivered" "meter_total_energy_delivered" "energy"
                    "homeassistant/sensor/meter_total_energy_delivered/state"
                    "total_increasing" "kWh"))
      0 true;
    mkPublication
      (mkMessage "homeassistant/sensor/meter_total_energy_received/config"
         (discovery "Meter Total Energy Received" "meter_total_energy_received" "energy"
                    "homeassistant/sensor/meter_total_energy_received/state"
                    "total_increasing" "kWh"))
      0 true ].

(** What [main] meets outside the program: the error [loadConfiguration]
    ends on (one of [ReadInConfig] other than a missing file), the error of
    the connection to the broker, and the error of [serial.OpenPort] or the
    stream the port delivers; each error as the text [log.Fatal] prints. *)
Record Environment : Set := mkEnvironment {
  configError : option string;
  connectError : option string;
  openPort : string + bufio.Reader
}.

Section Main.

Variable unmarshalDemand : string -> InstantaneousDemand.t -> InstantaneousDemand.t.
Variable unmarshalSummation
  : string -> CurrentSummationDelivered.t -> CurrentSummationDelivered.t.
Variable intOutside : float64 -> Z.

(** [main()]: everything published on the client, in order, and how the
    program ends. *)
Definition main (env : Environment) : list Publication * Outcome :=
  match configError env with
  | Some msg => ([], Exited msg)
  | None =>
      match connectError env with
      | Some msg => ([], Exited msg)
      | None =>
          match openPort env with
          | inl msg => (setupMQTTDiscovery, Exited msg)
          | inr s =>
              let '(out, o) := scanSerial unmarshalDemand unmarshalSummation intOutside s in
              ((setupMQTTDiscovery ++ map state out)%list, o)
          end
      end
  end.

End Main.

(** * The vocabulary of the statements *)

(** The published reading the spec asks for: [x] to the nearest integer,
    halves away from zero, for the rational [x = num / den] ([den > 0]). *)
Definition round_nearest (num den : Z) : Z :=
  Z.sgn num * ((2 * Z.abs num + den) / (2 * den)).

(** The first of the occurrences of [sep] in [whole] starts at [i]. *)
Definition first_at (sep whole : string) (i : nat) : Prop :=
  occurs_at sep whole i /\ forall j, occurs_at sep whole j -> (i <= j)%nat.

Definition absent (sep whole : string) : Prop := forall j, ~ occurs_at sep whole j.

(** All the bytes of a stream, and those a scanner has not yet turned into
    a token: the buffered ones and the ones still to read. *)
Definition joined (rd : bufio.Reader) : string := fold_right append "" rd.
Definition stream (s : bufio.Scanner) : string := bufio.buffered s ++ joined (bufio.r s).

(** A bound on the rounds a call of [Scan] still makes without returning:
    one for each byte and each amount left to read, and the round that
    sees the error. *)
Definition rounds_left (s : bufio.Scanner) : nat :=
  (bufio.reader_size (bufio.r s) + if bufio.is_set (bufio.err s) then 0 else 1)%nat.

(** [t] ends with one of the closing markers. *)
Definition closed (t : string) : Prop := exists m pre, In m markers /\ t = pre ++ m.

(** The number a string of hexadecimal digits denotes. *)
Definition hexDigitValue (c : ascii) : Z :=
  let b := strconv.byte c in
  if b <=? 57 then b - 48 else if b <=? 70 then b - 55 else b - 87.

Fixpoint hexValue_from (n : Z) (t : string) : Z :=
  match t with
  | EmptyString => n
  | String c t' => hexValue_from (16 * n + hexDigitValue c) t'
  end.

Definition hexValue (t : string) : Z := hexValue_from 0 t.

(** Every byte of [t] is a hexadecimal digit. *)
Fixpoint all_hex (t : string) : bool :=
  match t with
  | EmptyString => true
  | String c t' => validator.isHexDigit c && all_hex t'
  end.

(** A [float64] that is a number: a zero or a finite value. *)
Definition is_number (x : float64) : Prop :=
  match x with
  | S754_zero _ | S754_finite _ _ _ => True
  | S754_infinity _ | S754_nan => False
  end.

(** A number below [2^K] in absolute value. *)
Definition within (K : Z) (x : float64) : Prop :=
  match x with
  | S754_zero _ => True
  | S754_finite _ m e => Zdigits2 (Z.pos m) + e <= K
  | S754_infinity _ | S754_nan => False
  end.

(** The exact value of a number, as a fraction with a positive denominator. *)
Definition fraction (x : float64) : option (Z * Z) :=
  match x with
  | S754_zero _ => Some (0, 1)
  | S754_finite s m e =>
      let n := if s then Z.neg m else Z.pos m in
      Some (if e <? 0 then (n, 2 ^ (- e)) else (n * 2 ^ e, 1))
  | S754_infinity _ | S754_nan => None
  end.


(** Every byte of [t] is a decimal digit. *)
Definition isDigit (c : ascii) : bool :=
  (48 <=? strconv.byte c) && (strconv.byte c <=? 57).

Fixpoint all_digits (t : string) : bool :=
  match t with
  | EmptyString => true
  | String c t' => isDigit c && all_digits t'
  end.

(** [t] is a decimal number written with exactly three fraction digits. *)
Definition three_decimals (t : string) : Prop :=
  exists sign ip fp,
    t = sign ++ ip ++ "." ++ fp
    /\ (sign = "" \/ sign = "-")
    /\ ip <> "" /\ all_digits ip = true
    /\ String.length fp = 3%nat /\ all_digits fp = true.

(** The texts [fmt] prints for a [float64] that is no number. *)
Definition no_number (t : string) : Prop := t = "+Inf" \/ t = "-Inf" \/ t = "NaN".

(** [s] is one complete frame: it ends with a closing marker, and no marker
    ends before its last byte. *)
Definition one_frame (s : string) : Prop :=
  closed s
  /\ forall m j, In m markers -> occurs_at m s j ->
                 (j + String.length m)%nat = String.length s.

Definition nonempty (c : string) : Prop := c <> "".

(** The buffer of a scanner is in order: the bytes held lie inside it, and
    it is no larger than the token limit of line 160. *)
Definition bounded (s : bufio.Scanner) : Prop :=
  0 <= bufio.start s
  /\ bufio.end_ s <= bufio.buf_len s
  /\ bufio.buf_len s <= bufio.MaxScanTokenSize
  /\ bufio.maxTokenSize s = bufio.MaxScanTokenSize.

(** A scanner in the middle of a stream of non-empty reads: the only error
    it can have met is the end of the stream. *)
Definition reading (s : bufio.Scanner) : Prop :=
  Forall nonempty (bufio.r s)
  /\ bufio.done s = false
  /\ (bufio.err s = None \/ (bufio.err s = Some bufio.EOF /\ bufio.r s = [])).

(** No closing marker in [u]. *)
Definition markerless (u : string) : Prop := forall m, In m markers -> absent m u.

(** What the scanner can leave unread: bytes without a closing marker, or
    bytes whose first 64 KiB are without one. *)
Definition quiet (u : string) : Prop :=
  markerless u
  \/ exists big rest,
      u = big ++ rest /\ len big = bufio.MaxScanTokenSize /\ markerless big.

(** [n] copies of the byte [c]. *)
Definition filler (n : nat) (c : ascii) : string := Nat.iter n (String c) "".

(** The number a string of decimal digits denotes. *)
Fixpoint decValue_from (n : Z) (t : string) : Z :=
  match t with
  | EmptyString => n
  | String c t' => decValue_from (10 * n + (strconv.byte c - 48)) t'
  end.

Definition decValue (t : string) : Z := decValue_from 0 t.

(** The sign bit of a [float64]. *)
Definition sign_bit (x : float64) : bool :=
  match x with
  | S754_zero s | S754_infinity s | S754_finite s _ _ => s
  | S754_nan => false
  end.

(** [t] is written with a minus sign. *)
Definition minus_sign (t : string) : bool :=
  match t with
  | String c _ => Ascii.eqb c "-"
  | EmptyString => false
  end.

(** What a run of [scanSerial] publishes: power readings one by one and
    energy readings in pairs, the delivered one first, none of them empty. *)
Inductive readings : list Message -> Prop :=
  | readings_nil : readings []
  | readings_power (p : string) (rest : list Message) :
      p <> "" -> readings rest -> readings (mkMessage powerTopic p :: rest)
  | readings_energy (d r : string) (rest : list Message) :
      d <> "" -> r <> "" -> readings rest ->
      readings (mkMessage deliveredTopic d :: mkMessage receivedTopic r :: rest).

(** The discovery message [config] is retained and gives [t] as the
    [state_topic] of its sensor. *)
Definition announces (config : Publication) (t : string) : Prop :=
  retained config = true
  /\ exists pre post,
      payload (message config) = pre ++ member "state_topic" t ++ post.

(** [f] starts with a byte other than [0], so it has no base prefix, and
    holds a byte that is no decimal digit. *)
Definition unprefixed_letter (f : string) : bool :=
  match f with
  | String c _ => negb (Ascii.eqb c "0") && negb (all_digits f)
  | EmptyString => false
  end.

(** [t] is a decimal integer: digits, after a minus sign or none. *)
Definition decimal_integer (t : string) : Prop :=
  exists sign ds,
    t = sign ++ ds /\ (sign = "" \/ sign = "-") /\ ds <> "" /\ all_digits ds = true.

(** A power reading with an integer for payload, or an energy reading
    whose payload is a number with three fraction digits or one of the
    texts of a [float64] that is no number. *)
Definition well_formed (msg : Message) : Prop :=
  (topic msg = powerTopic /\ decimal_integer (payload msg))
  \/ ((topic msg = deliveredTopic \/ topic msg = receivedTopic)
      /\ (three_decimals (payload msg) \/ no_number (payload msg))).




(** * Properties *)

(** ** Byte strings *)

Lemma append_empty_r (s : string) : s ++ "" = s.
Proof. induction s as [|c s IH]; simpl; [reflexivity | now rewrite IH]. Qed.

Lemma append_assoc (a b c : string) : (a ++ b) ++ c = a ++ (b ++ c).
Proof. induction a as [|x a IH]; simpl; [reflexivity | now rewrite IH]. Qed.

Lemma length_append (a b : string) :
  String.length (a ++ b) = (String.length a + String.length b)%nat.
Proof. induction a as [|x a IH]; simpl; [reflexivity | now rewrite IH]. Qed.

Lemma len_append (a b : string) : len (a ++ b) = len a + len b.
Proof. unfold len. rewrite length_append. lia. Qed.

Lemma len_nonneg (s : string) : 0 <= len s.
Proof. unfold len. lia. Qed.

Lemma len_zero (s : string) : len s = 0 -> s = "".
Proof. destruct s; [reflexivity | unfold len; simpl; lia]. Qed.

Lemma take_drop (n : nat) (s : string) : take n s ++ drop n s = s.
Proof.
  revert s. induction n as [|n IH]; intros [|c s]; simpl; try reflexivity.
  now rewrite IH.
Qed.

Lemma take_append (a b : string) : take (String.length a) (a ++ b) = a.
Proof. induction a as [|x a IH]; simpl; [now destruct b | now rewrite IH]. Qed.

Lemma drop_append (a b : string) : drop (String.length a) (a ++ b) = b.
Proof. induction a as [|x a IH]; simpl; [reflexivity | exact IH]. Qed.

Lemma take_all (s : string) : take (String.length s) s = s.
Proof. rewrite <- (append_empty_r s) at 2. apply take_append. Qed.

Lemma drop_all (s : string) : drop (String.length s) s = "".
Proof. rewrite <- (append_empty_r s) at 2. apply drop_append. Qed.

Lemma drop_zero (s : string) : drop 0 s = s.
Proof. now destruct s. Qed.

Lemma length_take (n : nat) (s : string) :
  (n <= String.length s)%nat -> String.length (take n s) = n.
Proof.
  revert s. induction n as [|n IH]; intros [|c s] H; simpl in *; try reflexivity; try lia.
  rewrite IH; [reflexivity | lia].
Qed.

Lemma length_drop (n : nat) (s : string) :
  String.length (drop n s) = (String.length s - n)%nat.
Proof.
  revert s. induction n as [|n IH]; intros [|c s]; simpl; try reflexivity; try lia.
  apply IH.
Qed.

Lemma append_inv_head (a b c : string) : a ++ b = a ++ c -> b = c.
Proof. induction a as [|x a IH]; simpl; intros H; [exact H | injection H; auto]. Qed.

(** Two ways of cutting one string agree up to the shorter first part. *)
Lemma append_eq_split (a b c d : string) :
  a ++ b = c ++ d -> (String.length a <= String.length c)%nat ->
  exists m, c = a ++ m /\ b = m ++ d.
Proof.
  revert c. induction a as [|x a IH]; intros c H L; simpl in *.
  - exists c. split; [reflexivity | exact H].
  - destruct c as [|y c]; simpl in *; [lia |].
    injection H as -> H. destruct (IH c H) as [m [-> ->]]; [lia |].
    exists m. split; reflexivity.
Qed.

Lemma prefix_iff (a s : string) : prefix a s = true <-> exists b, s = a ++ b.
Proof.
  revert s. induction a as [|x a IH]; intros s; simpl.
  - split; [intros _; exists s; reflexivity | intros _; now destruct s].
  - destruct s as [|y s]; simpl.
    + split; [discriminate | intros [b H]; discriminate].
    + destruct (ascii_dec x y) as [->|N].
      * rewrite IH. split; intros [b H]; exists b; [now rewrite H | now injection H].
      * split; [discriminate | intros [b H]; injection H; intros; subst; contradiction].
Qed.

Lemma occurs_at_zero (sep s : string) : occurs_at sep s 0 <-> prefix sep s = true.
Proof.
  rewrite prefix_iff. split.
  - intros [pre [post [H L]]]. destruct pre; [|discriminate]. now exists post.
  - intros [b H]. exists "", b. now split.
Qed.

Lemma occurs_at_succ (sep : string) (c : ascii) (s : string) (j : nat) :
  occurs_at sep (String c s) (S j) <-> occurs_at sep s j.
Proof.
  split.
  - intros [pre [post [H L]]]. destruct pre as [|x pre]; [discriminate|].
    simpl in H, L. injection H as _ H. injection L as L. now exists pre, post.
  - intros [pre [post [H L]]]. exists (String c pre), post. simpl. now rewrite H, L.
Qed.

Lemma occurs_at_length (sep s : string) (j : nat) :
  occurs_at sep s j -> (j + String.length sep <= String.length s)%nat.
Proof.
  intros [pre [post [-> <-]]]. rewrite !length_append. lia.
Qed.

(** ** [strings.Index] returns the first occurrence, or -1 *)

Lemma Index_from_unfold (from : Z) (s sep : string) :
  strings.Index_from from s sep =
  if prefix sep s then from
  else match s with
       | EmptyString => -1
       | String _ s' => strings.Index_from (from + 1) s' sep
       end.
Proof. destruct s; reflexivity. Qed.

Lemma Index_from_spec (sep s : string) (from : Z) :
  (strings.Index_from from s sep = -1 /\ absent sep s)
  \/ (exists i, strings.Index_from from s sep = from + Z.of_nat i /\ first_at sep s i).
Proof.
  revert from. induction s as [|c s IH]; intros from; rewrite Index_from_unfold.
  - destruct (prefix sep "") eqn:P.
    + right. exists 0%nat. split; [lia |]. split; [now apply occurs_at_zero | intros; lia].
    + left. split; [reflexivity |]. intros j O.
      assert (L := occurs_at_length _ _ _ O). simpl in L.
      assert (j = 0%nat) by lia. subst j. apply occurs_at_zero in O. congruence.
  - destruct (prefix sep (String c s)) eqn:P.
    + right. exists 0%nat. split; [lia |]. split; [now apply occurs_at_zero | intros; lia].
    + destruct (IH (from + 1)) as [[E A] | [i [E [O M]]]].
      * left. split; [exact E |]. intros [|j] O.
        -- apply occurs_at_zero in O. congruence.
        -- apply occurs_at_succ in O. exact (A j O).
      * right. exists (S i). split; [rewrite E; lia |]. split.
        -- now apply occurs_at_succ.
        -- intros [|j] O'.
           ++ apply occurs_at_zero in O'. congruence.
           ++ apply occurs_at_succ in O'. specialize (M j O'). lia.
Qed.

Lemma Index_spec (sep s : string) :
  (strings.Index s sep = -1 /\ absent sep s)
  \/ (exists i, strings.Index s sep = Z.of_nat i /\ first_at sep s i).
Proof.
  unfold strings.Index. destruct (Index_from_spec sep s 0) as [H | [i [E F]]].
  - now left.
  - right. exists i. split; [rewrite E; lia | exact F].
Qed.

Lemma first_at_prefix (sep s : string) (i : nat) :
  first_at sep s i ->
  exists pre post, s = pre ++ sep ++ post /\ String.length pre = i
                   /\ take (i + String.length sep) s = pre ++ sep.
Proof.
  intros [[pre [post [E L]]] _]. exists pre, post. repeat split; try assumption.
  subst. rewrite <- append_assoc, <- length_append. apply take_append.
Qed.

(** ** The split function *)

Lemma length_closeInstantaneousDemand : String.length closeInstantaneousDemand = 24%nat.
Proof. reflexivity. Qed.

Lemma length_closeCurrentSummationDelivered :
  String.length closeCurrentSummationDelivered = 30%nat.
Proof. reflexivity. Qed.

Lemma length_closeTimeCluster : String.length closeTimeCluster = 16%nat.
Proof. reflexivity. Qed.

Lemma slice_to_of_nat (s : string) (i : nat) (k : Z) :
  0 <= k -> slice_to s (Z.of_nat i + k) = take (i + Z.to_nat k) s.
Proof. intros H. unfold slice_to. f_equal. lia. Qed.

(** The four ways [split] can go: the markers are looked for one kind after
    the other, and the first kind found decides. *)
Lemma split_cases (data : string) (atEOF : bool) :
  (exists i, first_at closeInstantaneousDemand data i
             /\ split data atEOF = (Z.of_nat i + 24, Some (take (i + 24) data), None))
  \/ (absent closeInstantaneousDemand data
      /\ exists i, first_at closeCurrentSummationDelivered data i
                   /\ split data atEOF = (Z.of_nat i + 30, Some (take (i + 30) data), None))
  \/ (absent closeInstantaneousDemand data
      /\ absent closeCurrentSummationDelivered data
      /\ exists i, first_at closeTimeCluster data i
                   /\ split data atEOF = (Z.of_nat i + 16, Some (take (i + 16) data), None))
  \/ (absent closeInstantaneousDemand data
      /\ absent closeCurrentSummationDelivered data
      /\ absent closeTimeCluster data
      /\ split data atEOF = (0, None, None)).
Proof.
  unfold split.
  destruct (Index_spec closeInstantaneousDemand data) as [[E1 A1] | [i [E F]]].
  2:{ left. exists i. split; [exact F |]. rewrite E.
      replace (0 <=? Z.of_nat i) with true by (symmetry; apply Z.leb_le; lia).
      now rewrite (slice_to_of_nat data i 24) by lia. }
  rewrite E1. change (0 <=? -1) with false. cbv iota.
  destruct (Index_spec closeCurrentSummationDelivered data) as [[E2 A2] | [i [E F]]].
  2:{ right; left. split; [exact A1 |]. exists i. split; [exact F |]. rewrite E.
      replace (0 <=? Z.of_nat i) with true by (symmetry; apply Z.leb_le; lia).
      now rewrite (slice_to_of_nat data i 30) by lia. }
  rewrite E2. change (0 <=? -1) with false. cbv iota.
  destruct (Index_spec closeTimeCluster data) as [[E3 A3] | [i [E F]]].
  2:{ right; right; left. split; [exact A1 |]. split; [exact A2 |].
      exists i. split; [exact F |]. rewrite E.
      replace (0 <=? Z.of_nat i) with true by (symmetry; apply Z.leb_le; lia).
      now rewrite (slice_to_of_nat data i 16) by lia. }
  rewrite E3. change (0 <=? -1) with false. cbv iota.
  right; right; right. now repeat split.
Qed.

(** A token is the part of the buffer up to the end of a marker, and the
    scanner is told to advance by exactly its length. *)
Lemma split_token (data : string) (atEOF : bool) (advance : Z) (tok : string)
      (e : option bufio.error) :
  split data atEOF = (advance, Some tok, e) ->
  e = None /\ advance = len tok
  /\ exists m pre post, In m markers /\ tok = pre ++ m /\ data = tok ++ post.
Proof.
  intros H.
  destruct (split_cases data atEOF)
    as [[i [F E]] | [[_ [i [F E]]] | [[_ [_ [i [F E]]]] | [_ [_ [_ E]]]]]];
    rewrite E in H; try discriminate; injection H as <- <- <-;
    destruct (first_at_prefix _ _ _ F) as [pre [post [D [L T]]]].
  - rewrite length_closeInstantaneousDemand in T. rewrite T.
    split; [reflexivity |]. split.
    { rewrite len_append. unfold len. rewrite L, length_closeInstantaneousDemand. lia. }
    exists closeInstantaneousDemand, pre, post.
    split; [simpl; auto |]. split; [reflexivity | now rewrite append_assoc].
  - rewrite length_closeCurrentSummationDelivered in T. rewrite T.
    split; [reflexivity |]. split.
    { rewrite len_append. unfold len. rewrite L, length_closeCurrentSummationDelivered. lia. }
    exists closeCurrentSummationDelivered, pre, post.
    split; [simpl; auto |]. split; [reflexivity | now rewrite append_assoc].
  - rewrite length_closeTimeCluster in T. rewrite T.
    split; [reflexivity |]. split.
    { rewrite len_append. unfold len. rewrite L, length_closeTimeCluster. lia. }
    exists closeTimeCluster, pre, post.
    split; [simpl; auto |]. split; [reflexivity | now rewrite append_assoc].
Qed.

Lemma split_no_token (data : string) (atEOF : bool) (advance : Z) (e : option bufio.error) :
  split data atEOF = (advance, None, e) -> advance = 0 /\ e = None.
Proof.
  intros H.
  destruct (split_cases data atEOF)
    as [[i [F E]] | [[_ [i [F E]]] | [[_ [_ [i [F E]]]] | [_ [_ [_ E]]]]]];
    rewrite E in H; try discriminate.
  injection H as <- <-. now split.
Qed.

Lemma marker_length (m : string) : In m markers -> (16 <= String.length m)%nat.
Proof.
  intros [<- | [<- | [<- | []]]]; simpl; lia.
Qed.

(** ** The scanner with this split function *)

Lemma scanner_eta (s : bufio.Scanner) :
  bufio.mkScanner (bufio.r s) (bufio.maxTokenSize s) (bufio.buf_len s) (bufio.start s)
                  (bufio.buffered s) (bufio.err s) (bufio.empties s) (bufio.done s) = s.
Proof. now destruct s. Qed.

(** The first half of a round: a token when the buffer holds a marker,
    otherwise on to the read, with the scanner unchanged. *)
Lemma tryToken_split (s : bufio.Scanner) :
  bufio.tryToken split s =
  if (0 <? len (bufio.buffered s)) || bufio.is_set (bufio.err s) then
    match split (bufio.buffered s) (bufio.is_set (bufio.err s)) with
    | (_, Some t, _) =>
        bufio.Return (bufio.Token t)
          (bufio.mkScanner (bufio.r s) (bufio.maxTokenSize s) (bufio.buf_len s)
                           (bufio.start s + len t)
                           (drop (String.length t) (bufio.buffered s))
                           (bufio.err s) 0 (bufio.done s))
    | (_, None, _) => bufio.ReadOn s
    end
  else bufio.ReadOn s.
Proof.
  unfold bufio.tryToken, bufio.end_.
  replace (bufio.start s <? bufio.start s + len (bufio.buffered s))
    with (0 <? len (bufio.buffered s)).
  2:{ destruct (Z.ltb_spec 0 (len (bufio.buffered s)));
      symmetry; [apply Z.ltb_lt | apply Z.ltb_ge]; lia. }
  destruct ((0 <? len (bufio.buffered s)) || bufio.is_set (bufio.err s)); [| reflexivity].
  destruct (split (bufio.buffered s) (bufio.is_set (bufio.err s))) as [[adv [t|]] e] eqn:E.
  - destruct (split_token _ _ _ _ _ E) as [-> [-> [m [pre [post [M [T D]]]]]]].
    assert (L16 := marker_length m M).
    assert (Lt : (16 <= String.length t)%nat) by (rewrite T, length_append; lia).
    assert (Lb : len t <= len (bufio.buffered s)).
    { rewrite D, len_append. pose proof (len_nonneg post). lia. }
    replace (len t <? 0) with false by (symmetry; apply Z.ltb_ge; unfold len; lia).
    replace (bufio.start s + len (bufio.buffered s) - bufio.start s <? len t) with false
      by (symmetry; apply Z.ltb_ge; lia).
    cbn [bufio.err bufio.r bufio.maxTokenSize bufio.buf_len bufio.start bufio.buffered
         bufio.empties bufio.done].
    replace (0 <? len t) with true by (symmetry; apply Z.ltb_lt; unfold len; lia).
    rewrite orb_true_r. unfold slice_from, len. now rewrite Nat2Z.id.
  - destruct (split_no_token _ _ _ _ E) as [-> ->].
    change (0 <? 0) with false. cbv iota.
    replace (bufio.start s + len (bufio.buffered s) - bufio.start s <? 0) with false
      by (symmetry; apply Z.ltb_ge; pose proof (len_nonneg (bufio.buffered s)); lia).
    unfold slice_from. change (Z.to_nat 0) with 0%nat. rewrite drop_zero, Z.add_0_r.
    now rewrite scanner_eta.
Qed.

Lemma joined_cons (c : string) (rd : bufio.Reader) : joined (c :: rd) = c ++ joined rd.
Proof. reflexivity. Qed.

(** A read moves bytes from the reader to the caller and loses none. *)
Lemma readMore_joined (rd : bufio.Reader) (space loop : Z) :
  let '(data, _, rd') := bufio.readMore rd space loop in data ++ joined rd' = joined rd.
Proof.
  revert loop. induction rd as [|c rd IH]; intros loop; simpl; [reflexivity |].
  destruct (len c <=? space).
  - destruct (0 <? len c) eqn:P; [reflexivity |].
    assert (c = "") as -> by (apply len_zero; apply Z.ltb_ge in P; pose proof (len_nonneg c); lia).
    destruct (bufio.maxConsecutiveEmptyReads <? loop + 1); [reflexivity |].
    apply IH.
  - destruct (0 <? space); [| reflexivity].
    simpl. unfold slice_to, slice_from. now rewrite <- append_assoc, take_drop.
Qed.

(** It takes something off the reader, or sets an error. *)
Lemma readMore_size (rd : bufio.Reader) (space loop : Z) :
  let '(_, e, rd') := bufio.readMore rd space loop in
  match e with
  | Some _ => (bufio.reader_size rd' <= bufio.reader_size rd)%nat
  | None => (bufio.reader_size rd' < bufio.reader_size rd)%nat
  end.
Proof.
  revert loop. induction rd as [|c rd IH]; intros loop; simpl; [lia |].
  destruct (len c <=? space) eqn:Q.
  - destruct (0 <? len c) eqn:P; [lia |].
    destruct (bufio.maxConsecutiveEmptyReads <? loop + 1); [lia |].
    specialize (IH (loop + 1)).
    destruct (bufio.readMore rd space (loop + 1)) as [[data [e|]] rd']; cbv iota in *; lia.
  - destruct (0 <? space) eqn:P; [| simpl; lia].
    simpl. unfold slice_from. rewrite length_drop.
    apply Z.ltb_lt in P. apply Z.leb_gt in Q. unfold len in Q. lia.
Qed.

Lemma setErr_stream (s : bufio.Scanner) (e : bufio.error) :
  stream (bufio.setErr s e) = stream s.
Proof. unfold bufio.setErr. now destruct (bufio.err s) as [[]|]. Qed.

Lemma setErr_r (s : bufio.Scanner) (e : bufio.error) :
  bufio.r (bufio.setErr s e) = bufio.r s.
Proof. unfold bufio.setErr. now destruct (bufio.err s) as [[]|]. Qed.

Lemma setErr_is_set (s : bufio.Scanner) (e : bufio.error) :
  bufio.is_set (bufio.err (bufio.setErr s e)) = true.
Proof.
  unfold bufio.setErr. destruct (bufio.err s) as [[]|] eqn:E; cbn [bufio.err];
    rewrite ?E; reflexivity.
Qed.

Lemma fill_stream (s : bufio.Scanner) : stream (bufio.fill s) = stream s.
Proof.
  unfold bufio.fill.
  pose proof (readMore_joined (bufio.r s) (bufio.buf_len s - bufio.end_ s) 0) as H.
  destruct (bufio.readMore (bufio.r s) (bufio.buf_len s - bufio.end_ s) 0) as [[data e] rd].
  destruct e as [e|]; [rewrite setErr_stream |];
    unfold stream; cbn [bufio.buffered bufio.r]; now rewrite append_assoc, H.
Qed.

Lemma shift_stream (s : bufio.Scanner) : stream (bufio.shift s) = stream s.
Proof. unfold bufio.shift. now destruct (_ && _). Qed.

Lemma grow_stream (s s' : bufio.Scanner) : bufio.grow s = Some s' -> stream s' = stream s.
Proof.
  unfold bufio.grow. destruct (_ =? _); [destruct (_ || _) |]; intros H; try discriminate;
    now injection H as <-.
Qed.

Lemma fill_rounds_left (s : bufio.Scanner) :
  bufio.is_set (bufio.err s) = false ->
  (rounds_left (bufio.fill s) < rounds_left s)%nat.
Proof.
  intros E. unfold bufio.fill, rounds_left. rewrite E.
  pose proof (readMore_size (bufio.r s) (bufio.buf_len s - bufio.end_ s) 0) as H.
  destruct (bufio.readMore (bufio.r s) (bufio.buf_len s - bufio.end_ s) 0) as [[data e] rd].
  destruct e as [e|].
  - rewrite setErr_is_set, setErr_r. cbn [bufio.r]. lia.
  - cbn [bufio.r bufio.err]. rewrite E. lia.
Qed.

Lemma shift_fields (s : bufio.Scanner) :
  bufio.r (bufio.shift s) = bufio.r s /\ bufio.err (bufio.shift s) = bufio.err s.
Proof. unfold bufio.shift. now destruct (_ && _). Qed.

Lemma grow_fields (s s' : bufio.Scanner) :
  bufio.grow s = Some s' -> bufio.r s' = bufio.r s /\ bufio.err s' = bufio.err s.
Proof.
  unfold bufio.grow. destruct (_ =? _); [destruct (_ || _) |]; intros H; try discriminate;
    now injection H as <-.
Qed.

(** What a call of [Scan] returns: a token cut off the front of the stream,
    or false; it never panics, and the step bound is never reached. *)
Lemma Scan_loop_result (fuel : nat) (s : bufio.Scanner) :
  (rounds_left s < fuel)%nat ->
  match bufio.Scan_loop split fuel s with
  | (bufio.Token t, s') => closed t /\ stream s = t ++ stream s'
  | (bufio.NoToken, _) => True
  | (bufio.Panics, _) | (bufio.Unfinished, _) => False
  end.
Proof.
  revert s. induction fuel as [|fuel IH]; intros s F; [lia |].
  cbn [bufio.Scan_loop]. rewrite tryToken_split.
  assert (K : match (if bufio.is_set (bufio.err s)
                     then (bufio.NoToken,
                           bufio.mkScanner (bufio.r s) (bufio.maxTokenSize s) (bufio.buf_len s)
                                           0 "" (bufio.err s) (bufio.empties s) (bufio.done s))
                     else match bufio.grow (bufio.shift s) with
                          | None => (bufio.NoToken, bufio.setErr (bufio.shift s) bufio.ErrTooLong)
                          | Some s2 => bufio.Scan_loop split fuel (bufio.fill s2)
                          end) with
              | (bufio.Token t, s') => closed t /\ stream s = t ++ stream s'
              | (bufio.NoToken, _) => True
              | (bufio.Panics, _) | (bufio.Unfinished, _) => False
              end).
  { destruct (bufio.is_set (bufio.err s)) eqn:Es; [exact I |].
    destruct (bufio.grow (bufio.shift s)) as [s2|] eqn:G; [| exact I].
    destruct (shift_fields s) as [R1 E1]. destruct (grow_fields _ _ G) as [R2 E2].
    assert (bufio.is_set (bufio.err s2) = false) as E3 by now rewrite E2, E1.
    pose proof (fill_rounds_left s2 E3) as L.
    assert (St : stream (bufio.fill s2) = stream s).
    { now rewrite fill_stream, (grow_stream _ _ G), shift_stream. }
    rewrite <- St. apply IH.
    unfold rounds_left in *. rewrite E3 in L. rewrite R2, R1 in L. rewrite Es in F. lia. }
  destruct ((0 <? len (bufio.buffered s)) || bufio.is_set (bufio.err s)); [| exact K].
  destruct (split (bufio.buffered s) (bufio.is_set (bufio.err s))) as [[adv [t|]] e] eqn:E;
    [| exact K].
  destruct (split_token _ _ _ _ _ E) as [_ [_ [m [pre [post [M [T D]]]]]]].
  split; [now exists m, pre |].
  unfold stream. cbn [bufio.buffered bufio.r].
  now rewrite D, drop_append, append_assoc.
Qed.

Lemma Scan_result (s : bufio.Scanner) :
  match bufio.Scan split s with
  | (bufio.Token t, s') => closed t /\ stream s = t ++ stream s'
  | (bufio.NoToken, _) => True
  | (bufio.Panics, _) | (bufio.Unfinished, _) => False
  end.
Proof.
  unfold bufio.Scan. destruct (bufio.done s); [exact I |].
  apply Scan_loop_result. unfold rounds_left. destruct (bufio.is_set _); lia.
Qed.

Lemma closed_length (t : string) : closed t -> (16 <= String.length t)%nat.
Proof.
  intros [m [pre [M ->]]]. rewrite length_append. pose proof (marker_length m M). lia.
Qed.

Lemma length_joined (rd : bufio.Reader) : (String.length (joined rd) <= bufio.reader_size rd)%nat.
Proof.
  induction rd as [|c rd IH]; simpl; [lia |]. rewrite length_append. lia.
Qed.

(** The tokens of a run of [Scan]: each ends with a marker, one after the
    other they are the front of the stream, and the run ends by [Scan]
    returning false. *)
Lemma Scan_all_result (fuel : nat) (s : bufio.Scanner) :
  (String.length (stream s) < fuel)%nat ->
  let '(toks, e) := bufio.Scan_all split fuel s in
  Forall closed toks /\ (exists rest, stream s = joined toks ++ rest) /\ e = bufio.Stopped.
Proof.
  revert s. induction fuel as [|fuel IH]; intros s F; [lia |].
  cbn [bufio.Scan_all]. pose proof (Scan_result s) as R.
  destruct (bufio.Scan split s) as [[t| | |] s']; try contradiction.
  - destruct R as [C St]. pose proof (closed_length t C) as L.
    specialize (IH s').
    destruct (bufio.Scan_all split fuel s') as [ts e].
    destruct IH as [A [[rest B] E]].
    { apply (f_equal String.length) in St. rewrite length_append in St. lia. }
    split; [now constructor |]. split; [| exact E].
    exists rest. rewrite St, B. simpl. now rewrite append_assoc.
  - split; [constructor |]. split; [| reflexivity]. now exists (stream s).
Qed.

Lemma frames_result (rd : bufio.Reader) :
  let '(toks, e) := frames rd in
  Forall closed toks /\ (exists rest, joined rd = joined toks ++ rest) /\ e = bufio.Stopped.
Proof.
  unfold frames. apply (Scan_all_result (S (bufio.reader_size rd)) (newScanner rd)).
  unfold stream, newScanner, bufio.NewScanner. cbn [bufio.buffered bufio.r]. simpl append.
  pose proof (length_joined rd). lia.
Qed.

(** The loop of [scanSerial] is the loop over the frames of the scanner. *)
Lemma run_loop
      (unmarshalDemand : string -> InstantaneousDemand.t -> InstantaneousDemand.t)
      (unmarshalSummation
       : string -> CurrentSummationDelivered.t -> CurrentSummationDelivered.t)
      (intOutside : float64 -> Z) (fuel : nat) (sc : bufio.Scanner) (l : Locals) :
  run unmarshalDemand unmarshalSummation intOutside fuel sc l
  = loop unmarshalDemand unmarshalSummation intOutside l
         (fst (bufio.Scan_all split fuel sc)) (snd (bufio.Scan_all split fuel sc)).
Proof.
  revert sc l. induction fuel as [|fuel IH]; intros sc l; [reflexivity |].
  cbn [run bufio.Scan_all].
  destruct (bufio.Scan split sc) as [[text | | |] sc']; try reflexivity.
  specialize (IH sc'). destruct (bufio.Scan_all split fuel sc') as [ts e].
  cbn [fst snd loop] in *.
  destruct (iteration unmarshalDemand unmarshalSummation intOutside l text)
    as [[l' out] [|msg|]]; try reflexivity.
  now rewrite IH.
Qed.

Lemma scanSerial_frames
      (unmarshalDemand : string -> InstantaneousDemand.t -> InstantaneousDemand.t)
      (unmarshalSummation
       : string -> CurrentSummationDelivered.t -> CurrentSummationDelivered.t)
      (intOutside : float64 -> Z) (rd : bufio.Reader) :
  scanSerial unmarshalDemand unmarshalSummation intOutside rd
  = loop unmarshalDemand unmarshalSummation intOutside zeroLocals
         (fst (frames rd)) (snd (frames rd)).
Proof. apply run_loop. Qed.

Lemma occurs_at_append (sep a b : string) (j : nat) :
  occurs_at sep a j -> occurs_at sep (a ++ b) j.
Proof.
  intros [pre [post [-> L]]]. exists pre, (post ++ b). split; [| exact L].
  now rewrite !append_assoc.
Qed.

(** ** C4 *)

(** C4, as stated, fails: with a time-cluster marker at offset 0 and an
    instantaneous-demand marker behind it, the frame that is emitted ends
    at the second marker (40 bytes), not at the earliest one (16 bytes).
    The scanner gets to such a buffer when two records arrive in one read:
    the second frame below is a time-cluster record and a demand record
    together, and the demand record is never published. *)
Lemma C4_later_marker_delimits :
  let data := closeTimeCluster ++ closeInstantaneousDemand in
  let demand := "<InstantaneousDemand>" ++ CRLF
                ++ "  <Demand>0x000005</Demand>" ++ CRLF
                ++ "  <Multiplier>0x00000002</Multiplier>" ++ CRLF
                ++ "  <Divisor>0x00000001</Divisor>" ++ CRLF
                ++ closeInstantaneousDemand in
  let cluster := "<TimeCluster>" ++ CRLF ++ closeTimeCluster in
  first_at closeTimeCluster data 0
  /\ first_at closeInstantaneousDemand data 16
  /\ split data false = (40, Some data, None)
  /\ data <> take 16 data
  /\ frames [demand; cluster ++ demand] = ([demand; cluster ++ demand], bufio.Stopped)
  /\ frames [demand; cluster; demand] = ([demand; cluster; demand], bufio.Stopped)
  /\ scanSerial_flat [demand; cluster ++ demand] = ([mkMessage powerTopic "10000"], Returned).
Proof.
  cbv zeta. split; [| split; [| split; [| split; [| split; [| split]]]]].
  - split; [apply occurs_at_zero; reflexivity | intros; lia].
  - assert (V : strings.Index (closeTimeCluster ++ closeInstantaneousDemand)
                              closeInstantaneousDemand = 16) by (vm_compute; reflexivity).
    destruct (Index_spec closeInstantaneousDemand (closeTimeCluster ++ closeInstantaneousDemand))
      as [[E _] | [i [E F]]]; rewrite V in E; [discriminate |].
    assert (i = 16%nat) as -> by lia. exact F.
  - vm_compute. reflexivity.
  - vm_compute. discriminate.
  - vm_compute. reflexivity.
  - vm_compute. reflexivity.
  - vm_compute. reflexivity.
Qed.

(** C4, amended: the frame ends at the first occurrence of the first kind
    of marker present, the kinds taken in the order instantaneous-demand,
    summation, time-cluster; it runs from the start of the buffer through
    that marker, and the scanner advances by its length.  Without any
    marker there is no frame and no advance. *)
Theorem C4_split_first_marker_by_kind (data : string) (atEOF : bool) :
  (exists i pre, first_at closeInstantaneousDemand data i
     /\ String.length pre = i
     /\ split data atEOF = (len (pre ++ closeInstantaneousDemand),
                            Some (pre ++ closeInstantaneousDemand), None)
     /\ take (i + 24) data = pre ++ closeInstantaneousDemand)
  \/ (absent closeInstantaneousDemand data
      /\ exists i pre, first_at closeCurrentSummationDelivered data i
           /\ String.length pre = i
           /\ split data atEOF = (len (pre ++ closeCurrentSummationDelivered),
                                  Some (pre ++ closeCurrentSummationDelivered), None)
           /\ take (i + 30) data = pre ++ closeCurrentSummationDelivered)
  \/ (absent closeInstantaneousDemand data
      /\ absent closeCurrentSummationDelivered data
      /\ exists i pre, first_at closeTimeCluster data i
           /\ String.length pre = i
           /\ split data atEOF = (len (pre ++ closeTimeCluster),
                                  Some (pre ++ closeTimeCluster), None)
           /\ take (i + 16) data = pre ++ closeTimeCluster)
  \/ (absent closeInstantaneousDemand data
      /\ absent closeCurrentSummationDelivered data
      /\ absent closeTimeCluster data
      /\ split data atEOF = (0, None, None)).
Proof.
  destruct (split_cases data atEOF)
    as [[i [F E]] | [[A1 [i [F E]]] | [[A1 [A2 [i [F E]]]] | H]]].
  - left. destruct (first_at_prefix _ _ _ F) as [pre [post [D [L T]]]].
    exists i, pre. rewrite length_closeInstantaneousDemand in T.
    repeat split; try apply F; try assumption.
    rewrite E, T. f_equal. f_equal. rewrite len_append. unfold len. rewrite L. reflexivity.
  - right; left. split; [exact A1 |].
    destruct (first_at_prefix _ _ _ F) as [pre [post [D [L T]]]].
    exists i, pre. rewrite length_closeCurrentSummationDelivered in T.
    repeat split; try apply F; try assumption.
    rewrite E, T. f_equal. f_equal. rewrite len_append. unfold len. rewrite L. reflexivity.
  - right; right; left. split; [exact A1 |]. split; [exact A2 |].
    destruct (first_at_prefix _ _ _ F) as [pre [post [D [L T]]]].
    exists i, pre. rewrite length_closeTimeCluster in T.
    repeat split; try apply F; try assumption.
    rewrite E, T. f_equal. f_equal. rewrite len_append. unfold len. rewrite L. reflexivity.
  - right; right; right. exact H.
Qed.

(** ** C9 *)

Lemma split_absent (data : string) (atEOF : bool) :
  (forall m, In m markers -> absent m data) -> split data atEOF = (0, None, None).
Proof.
  intros A.
  destruct (split_cases data atEOF)
    as [[i [[O _] _]] | [[_ [i [[O _] _]]] | [[_ [_ [i [[O _] _]]]] | [_ [_ [_ E]]]]]];
    [exfalso | exfalso | exfalso | exact E].
  - apply (A closeInstantaneousDemand) in O; [exact O | simpl; auto].
  - apply (A closeCurrentSummationDelivered) in O; [exact O | simpl; auto].
  - apply (A closeTimeCluster) in O; [exact O | simpl; auto].
Qed.

(** C9: a frame runs through the marker that ends it, so it is at least
    as long as that marker, and the scanner advances by exactly the frame;
    a buffer without a marker gives no frame and no advance, and the
    scanner goes on to read; over a whole stream every frame ends with a
    marker, the frames one after the other are the front of the stream
    (so no byte is in two frames), and a stream without a marker gives
    no frame at all. *)
Theorem C9_frames_end_with_marker_and_do_not_overlap :
  (forall data atEOF advance tok e,
      split data atEOF = (advance, Some tok, e) ->
      exists m pre post,
        In m markers /\ tok = pre ++ m /\ len m <= len tok
        /\ data = tok ++ post /\ advance = len tok)
  /\ (forall data atEOF,
         (forall m, In m markers -> absent m data) -> split data atEOF = (0, None, None))
  /\ (forall s,
         (forall m, In m markers -> absent m (bufio.buffered s)) ->
         bufio.tryToken split s = bufio.ReadOn s)
  /\ (forall rd,
         let '(toks, e) := frames rd in
         Forall (fun t => exists m pre,
                     In m markers /\ t = pre ++ m /\ len m <= len t) toks
         /\ (exists rest, joined rd = joined toks ++ rest)
         /\ e = bufio.Stopped)
  /\ (forall rd,
         (forall m, In m markers -> absent m (joined rd)) -> fst (frames rd) = []).
Proof.
  split; [| split; [| split; [| split]]].
  - intros data atEOF advance tok e H.
    destruct (split_token _ _ _ _ _ H) as [_ [A [m [pre [post [M [T D]]]]]]].
    exists m, pre, post. repeat split; try assumption.
    rewrite T, len_append. pose proof (len_nonneg pre). lia.
  - exact split_absent.
  - intros s A. rewrite tryToken_split.
    rewrite (split_absent _ _ A). now destruct (_ || _).
  - intros rd. pose proof (frames_result rd) as H.
    destruct (frames rd) as [toks e]. destruct H as [C [R E]].
    split; [| now split].
    apply Forall_forall. intros t Ht. rewrite Forall_forall in C.
    destruct (C t Ht) as [m [pre [M T]]]. exists m, pre. repeat split; try assumption.
    rewrite T, len_append. pose proof (len_nonneg pre). lia.
  - intros rd A. pose proof (frames_result rd) as H.
    destruct (frames rd) as [[|t ts] e]; [reflexivity |]. exfalso.
    destruct H as [C [[rest R] _]]. inversion C as [|? ? [m [pre [M T]]] _]; subst.
    apply (A m M (String.length pre)).
    exists pre, (joined ts ++ rest). split; [| reflexivity].
    rewrite R. simpl. now rewrite !append_assoc.
Qed.

(** ** One complete frame, however it is read *)

Lemma one_frame_split (s : string) (atEOF : bool) :
  one_frame s -> split s atEOF = (len s, Some s, None).
Proof.
  intros [[m [pre [M T]]] U].
  destruct (split_cases s atEOF)
    as [[i [F E]] | [[_ [i [F E]]] | [[_ [_ [i [F E]]]] | [A1 [A2 [A3 _]]]]]].
  - pose proof (U _ _ (or_introl eq_refl) (proj1 F)) as L.
    rewrite length_closeInstantaneousDemand in L.
    rewrite E, L, take_all. f_equal. f_equal. unfold len. lia.
  - pose proof (U _ _ (or_intror (or_introl eq_refl)) (proj1 F)) as L.
    rewrite length_closeCurrentSummationDelivered in L.
    rewrite E, L, take_all. f_equal. f_equal. unfold len. lia.
  - pose proof (U _ _ (or_intror (or_intror (or_introl eq_refl))) (proj1 F)) as L.
    rewrite length_closeTimeCluster in L.
    rewrite E, L, take_all. f_equal. f_equal. unfold len. lia.
  - exfalso.
    assert (O : occurs_at m s (String.length pre)).
    { exists pre, "". now rewrite append_empty_r. }
    destruct M as [<- | [<- | [<- | []]]];
      [exact (A1 _ O) | exact (A2 _ O) | exact (A3 _ O)].
Qed.

Lemma one_frame_split_prefix (b rest : string) (atEOF : bool) :
  one_frame (b ++ rest) -> rest <> "" -> split b atEOF = (0, None, None).
Proof.
  intros [_ U] N. apply split_absent. intros m M j O.
  pose proof (occurs_at_length _ _ _ O) as L1.
  pose proof (U m j M (occurs_at_append _ _ rest _ O)) as L2.
  rewrite length_append in L2.
  destruct rest; [now apply N | simpl in L2; lia].
Qed.

Lemma one_frame_length (s : string) : one_frame s -> 16 <= len s.
Proof. intros [C _]. apply closed_length in C. unfold len. lia. Qed.

(** A read from a reader of non-empty amounts, with room in the buffer. *)
Lemma readMore_nonempty (c : string) (rd : bufio.Reader) (space loop : Z) :
  Forall nonempty (c :: rd) -> 0 < space ->
  let '(data, e, rd') := bufio.readMore (c :: rd) space loop in
  e = None /\ Forall nonempty rd' /\ 0 < len data <= space.
Proof.
  intros N S. inversion N as [|? ? Nc Nrd]; subst. cbn [bufio.readMore].
  assert (0 < len c).
  { destruct c; [now elim Nc | unfold len; simpl; lia]. }
  destruct (len c <=? space) eqn:Q.
  - replace (0 <? len c) with true by (symmetry; now apply Z.ltb_lt).
    apply Z.leb_le in Q. repeat split; try assumption; lia.
  - replace (0 <? space) with true by (symmetry; now apply Z.ltb_lt).
    apply Z.leb_gt in Q. split; [reflexivity |]. split.
    + constructor; [| exact Nrd]. unfold nonempty, slice_from. intros D.
      apply (f_equal String.length) in D. rewrite length_drop in D. simpl in D.
      unfold len in Q. lia.
    + unfold slice_to, len. rewrite length_take; unfold len in Q; lia.
Qed.

Lemma maxInt_half : bufio.maxInt / 2 = 4611686018427387903.
Proof. reflexivity. Qed.

Lemma MaxScanTokenSize_value : bufio.MaxScanTokenSize = 65536.
Proof. reflexivity. Qed.

(** The buffer has room after [grow], or the frame is over the limit. *)
Lemma grow_room (rd : bufio.Reader) (cap : Z) (b : string) (emp : Z) :
  len b <= cap -> 2 <= cap <= bufio.MaxScanTokenSize ->
  (bufio.grow (bufio.mkScanner rd bufio.MaxScanTokenSize cap 0 b None emp false) = None
   /\ bufio.MaxScanTokenSize <= len b)
  \/ (exists cap',
         bufio.grow (bufio.mkScanner rd bufio.MaxScanTokenSize cap 0 b None emp false)
         = Some (bufio.mkScanner rd bufio.MaxScanTokenSize cap' 0 b None emp false)
         /\ len b < cap' /\ 2 <= cap' <= bufio.MaxScanTokenSize).
Proof.
  intros Lb Lc. unfold bufio.grow, bufio.end_.
  cbn [bufio.start bufio.buffered bufio.buf_len bufio.maxTokenSize bufio.r bufio.err
       bufio.empties bufio.done].
  rewrite Z.add_0_l. destruct (len b =? cap) eqn:Q.
  - apply Z.eqb_eq in Q. rewrite maxInt_half.
    destruct ((bufio.MaxScanTokenSize <=? cap) || (4611686018427387903 <? cap)) eqn:W.
    + left. split; [reflexivity |]. apply orb_true_iff in W. destruct W as [W | W].
      * apply Z.leb_le in W. lia.
      * apply Z.ltb_lt in W. rewrite MaxScanTokenSize_value in Lc. lia.
    + right. apply orb_false_iff in W. destruct W as [W _]. apply Z.leb_gt in W.
      replace (cap * 2 =? 0) with false by (symmetry; apply Z.eqb_neq; lia).
      exists (Z.min (cap * 2) bufio.MaxScanTokenSize). split; [reflexivity | lia].
  - right. apply Z.eqb_neq in Q. exists cap. split; [reflexivity | lia].
Qed.

Lemma Scan_loop_one_frame (s : string) :
  one_frame s ->
  forall fuel rd b cap emp,
    b ++ joined rd = s -> Forall nonempty rd ->
    len b <= cap -> 2 <= cap <= bufio.MaxScanTokenSize ->
    (bufio.reader_size rd + 1 < fuel)%nat ->
    exists st',
      bufio.Scan_loop split fuel
        (bufio.mkScanner rd bufio.MaxScanTokenSize cap 0 b None emp false)
      = (if len s <=? bufio.MaxScanTokenSize then bufio.Token s else bufio.NoToken, st')
      /\ (len s <= bufio.MaxScanTokenSize ->
          bufio.r st' = [] /\ bufio.buffered st' = "" /\ bufio.err st' = None
          /\ bufio.done st' = false).
Proof.
  intros F. induction fuel as [|fuel IH]; intros rd b cap emp J N Lb Lc Lf; [lia |].
  cbn [bufio.Scan_loop]. rewrite tryToken_split.
  cbn [bufio.start bufio.buffered bufio.buf_len bufio.maxTokenSize bufio.r bufio.err
       bufio.empties bufio.done bufio.is_set].
  rewrite orb_false_r.
  destruct rd as [|c rd].
  - (* the whole frame is in the buffer *)
    simpl in J. rewrite append_empty_r in J. subst b.
    pose proof (one_frame_length s F) as L16.
    replace (0 <? len s) with true by (symmetry; apply Z.ltb_lt; lia).
    rewrite (one_frame_split s false F).
    replace (len s <=? bufio.MaxScanTokenSize) with true by (symmetry; apply Z.leb_le; lia).
    eexists. split; [reflexivity |]. intros _. cbn. now rewrite drop_all.
  - (* a proper part of it is *)
    assert (Nr : joined (c :: rd) <> "").
    { inversion N as [|? ? Nc _]; subst. simpl. destruct c; [now elim Nc | discriminate]. }
    assert (Sp : split b false = (0, None, None)).
    { apply (one_frame_split_prefix b (joined (c :: rd))); [now rewrite J | exact Nr]. }
    rewrite Sp.
    assert (Ls : len b < len s).
    { rewrite <- J, len_append. assert (0 < len (joined (c :: rd))); [| lia].
      destruct (joined (c :: rd)); [now elim Nr | unfold len; simpl; lia]. }
    replace (if 0 <? len b
             then bufio.ReadOn (bufio.mkScanner (c :: rd) bufio.MaxScanTokenSize cap 0 b None emp false)
             else bufio.ReadOn (bufio.mkScanner (c :: rd) bufio.MaxScanTokenSize cap 0 b None emp false))
      with (bufio.ReadOn (bufio.mkScanner (c :: rd) bufio.MaxScanTokenSize cap 0 b None emp false))
      by now destruct (0 <? len b).
    cbn [bufio.err bufio.is_set].
    change (bufio.shift (bufio.mkScanner (c :: rd) bufio.MaxScanTokenSize cap 0 b None emp false))
      with (bufio.mkScanner (c :: rd) bufio.MaxScanTokenSize cap 0 b None emp false).
    destruct (grow_room (c :: rd) cap b emp Lb Lc) as [[G Lm] | [cap' [G [Lb' Lc']]]]; rewrite G.
    + replace (len s <=? bufio.MaxScanTokenSize) with false by (symmetry; apply Z.leb_gt; lia).
      eexists. split; [reflexivity | lia].
    + unfold bufio.fill, bufio.end_.
      cbn [bufio.start bufio.buffered bufio.buf_len bufio.maxTokenSize bufio.r bufio.err
           bufio.empties bufio.done].
      pose proof (readMore_nonempty c rd (cap' - (0 + len b)) 0 N ltac:(lia)) as R1.
      pose proof (readMore_joined (c :: rd) (cap' - (0 + len b)) 0) as R2.
      pose proof (readMore_size (c :: rd) (cap' - (0 + len b)) 0) as R3.
      destruct (bufio.readMore (c :: rd) (cap' - (0 + len b)) 0) as [[data e] rd'].
      destruct R1 as [-> [N' Ld]].
      apply IH; try assumption.
      * now rewrite append_assoc, R2.
      * rewrite len_append. lia.
      * lia.
Qed.

Lemma shift_grow_fields (s s2 : bufio.Scanner) :
  bufio.grow (bufio.shift s) = Some s2 ->
  bufio.r s2 = bufio.r s /\ bufio.err s2 = bufio.err s
  /\ bufio.buffered s2 = bufio.buffered s /\ bufio.done s2 = bufio.done s.
Proof.
  unfold bufio.grow, bufio.shift.
  destruct (_ && _); (destruct (_ =? _); [destruct (_ || _) |]); intros H;
    try discriminate; injection H as <-; now repeat split.
Qed.

(** With nothing buffered and nothing left to read, [Scan] returns false. *)
Lemma Scan_exhausted (st : bufio.Scanner) :
  bufio.r st = [] -> bufio.buffered st = "" -> bufio.err st = None ->
  bufio.done st = false ->
  fst (bufio.Scan split st) = bufio.NoToken.
Proof.
  intros R B E D. unfold bufio.Scan. rewrite D, R.
  change (S (S (bufio.reader_size []))) with 2%nat.
  cbn [bufio.Scan_loop]. rewrite tryToken_split, B, E.
  change ((0 <? len "") || bufio.is_set None) with false. cbv iota.
  rewrite E. cbn [bufio.is_set].
  destruct (bufio.grow (bufio.shift st)) as [s2|] eqn:G; [| reflexivity].
  destruct (shift_grow_fields _ _ G) as [R2 [E2 [B2 D2]]].
  rewrite R, E, B in *. rewrite tryToken_split.
  unfold bufio.fill. rewrite R2. cbn [bufio.readMore]. rewrite B2.
  unfold bufio.setErr. cbn [bufio.err bufio.buffered bufio.r]. rewrite E2.
  cbn [bufio.err bufio.buffered bufio.is_set bufio.r]. reflexivity.
Qed.

(** The frames of a stream that is one complete frame, read in non-empty
    amounts of any sizes: the frame itself, unless it is over the limit. *)
Lemma frames_one_frame (s : string) (rd : bufio.Reader) :
  one_frame s -> joined rd = s -> Forall nonempty rd ->
  frames rd =
  (if len s <=? bufio.MaxScanTokenSize then [s] else [], bufio.Stopped).
Proof.
  intros F J N. unfold frames.
  destruct rd as [|c rd].
  { exfalso. pose proof (one_frame_length s F) as L. rewrite <- J in L.
    unfold len in L. simpl in L. lia. }
  change (bufio.reader_size (c :: rd)) with (S (String.length c + bufio.reader_size rd)).
  cbn [bufio.Scan_all]. unfold bufio.Scan at 1. cbn [newScanner bufio.NewScanner bufio.done bufio.r].
  destruct (Scan_loop_one_frame s F (S (S (bufio.reader_size (c :: rd)))) (c :: rd) "" 2 0)
    as [st' [E K]]; try assumption.
  { unfold len. simpl. lia. }
  { rewrite MaxScanTokenSize_value. lia. }
  { lia. }
  unfold newScanner, bufio.NewScanner. rewrite E.
  destruct (len s <=? bufio.MaxScanTokenSize) eqn:Q; [| reflexivity].
  apply Z.leb_le in Q. destruct (K Q) as [R [B [Er D]]].
  pose proof (Scan_exhausted st' R B Er D) as X.
  destruct (bufio.Scan split st') as [res st'']. simpl in X. now subst res.
Qed.

(** A way to see that a given string is one complete frame: each kind of
    marker is absent from it or first found right at its end. *)
Lemma one_frame_intro (s : string) :
  (forall m, In m markers ->
             strings.Index s m = -1 \/ strings.Index s m + len m = len s) ->
  (exists m, In m markers /\ 0 <= strings.Index s m) ->
  one_frame s.
Proof.
  intros A [m [M P]]. split.
  - destruct (Index_spec m s) as [[E _] | [i [E F]]]; [lia |].
    destruct (A m M) as [E' | E']; [lia |].
    destruct (first_at_prefix _ _ _ F) as [pre [post [D [L _]]]].
    exists m, pre. split; [exact M |].
    assert (post = "") as ->.
    { apply (f_equal len) in D. rewrite !len_append in D. unfold len in *.
      destruct post; [reflexivity | simpl in D; lia]. }
    now rewrite append_empty_r in D.
  - intros m' j M' O.
    destruct (Index_spec m' s) as [[_ Ab] | [i [E [_ Mi]]]]; [now elim (Ab j) |].
    destruct (A m' M') as [E' | E']; [lia |].
    pose proof (Mi j O). pose proof (occurs_at_length _ _ _ O). unfold len in E'. lia.
Qed.

(** ** C10 *)

(** C10: for a byte sequence that is one complete frame, and any way of
    handing it to the scanner in successive non-empty reads, the frames
    the scanner yields, and with them what [scanSerial] publishes and how
    it ends, are those of the sequence arriving in a single read. *)
Theorem C10_one_frame_any_read_sizes (s : string) (rd : bufio.Reader) :
  one_frame s -> joined rd = s -> Forall nonempty rd ->
  frames rd = frames [s]
  /\ forall unmarshalDemand unmarshalSummation intOutside,
       scanSerial unmarshalDemand unmarshalSummation intOutside rd
       = scanSerial unmarshalDemand unmarshalSummation intOutside [s].
Proof.
  intros F J N.
  assert (E : frames rd = frames [s]).
  { rewrite (frames_one_frame s rd F J N).
    symmetry. apply frames_one_frame; [exact F | apply append_empty_r |].
    constructor; [| constructor]. intros ->.
    pose proof (one_frame_length "" F) as L. unfold len in L. simpl in L. lia. }
  split; [exact E |]. intros uD uS io. now rewrite !scanSerial_frames, E.
Qed.

(** A time-cluster frame handed over in three reads. *)
Lemma C10_one_frame_any_read_sizes_witness :
  let s := "<TimeCluster>" ++ CRLF ++ "  <UTCTime>0x2bd0c8a7</UTCTime>" ++ CRLF ++ closeTimeCluster in
  let rd := ["<TimeClu"; "ster>" ++ CRLF ++ "  <UTCTime>0x2bd0c8a7</UTCTime>" ++ CRLF ++ "</Time";
             "Cluster>" ++ CRLF] in
  frames rd = frames [s]
  /\ forall unmarshalDemand unmarshalSummation intOutside,
       scanSerial unmarshalDemand unmarshalSummation intOutside rd
       = scanSerial unmarshalDemand unmarshalSummation intOutside [s].
Proof.
  cbv zeta. apply C10_one_frame_any_read_sizes.
  - apply one_frame_intro.
    + intros m [<- | [<- | [<- | []]]]; vm_compute; auto.
    + exists closeTimeCluster. split; [simpl; auto | vm_compute; discriminate].
  - reflexivity.
  - repeat constructor; discriminate.
Defined.

(** ** C8 *)

(** Every frame of the scanner has a byte at offset 1. *)
Lemma closed_get_1 (t : string) : closed t -> exists c, String.get 1 t = Some c.
Proof.
  intros C. apply closed_length in C.
  destruct t as [|a [|b t]]; simpl in C; try lia. now exists b.
Qed.

(** A frame that ends the loop hides what comes after it. *)
Lemma loop_stops_at
      (unmarshalDemand : string -> InstantaneousDemand.t -> InstantaneousDemand.t)
      (unmarshalSummation
       : string -> CurrentSummationDelivered.t -> CurrentSummationDelivered.t)
      (intOutside : float64 -> Z) (text : string) (out : list Message) (msg : string) :
  (forall l, exists l',
        iteration unmarshalDemand unmarshalSummation intOutside l text = (l', out, Fatal msg)) ->
  forall pre post l e e',
    loop unmarshalDemand unmarshalSummation intOutside l (pre ++ text :: post)%list e
    = loop unmarshalDemand unmarshalSummation intOutside l (pre ++ [text])%list e'.
Proof.
  intros H pre post. induction pre as [|t pre IH]; intros l e e'.
  - simpl. destruct (H l) as [l' ->]. reflexivity.
  - simpl. destruct (iteration unmarshalDemand unmarshalSummation intOutside l t)
      as [[l' o'] [| |]]; try reflexivity.
    now rewrite (IH l' e e').
Qed.

(** [scanSerial] comes to an end on every stream: [Scan] returns false or
    a [log.Fatal] is reached; the index [scanner.Text()[1]] is always in
    range, and the step bounds of the scanner are never met. *)
Lemma scanSerial_ends
      (unmarshalDemand : string -> InstantaneousDemand.t -> InstantaneousDemand.t)
      (unmarshalSummation
       : string -> CurrentSummationDelivered.t -> CurrentSummationDelivered.t)
      (intOutside : float64 -> Z) (rd : bufio.Reader) :
  snd (scanSerial unmarshalDemand unmarshalSummation intOutside rd) = Returned
  \/ exists msg,
      snd (scanSerial unmarshalDemand unmarshalSummation intOutside rd) = Exited msg.
Proof.
  rewrite scanSerial_frames. pose proof (frames_result rd) as H.
  destruct (frames rd) as [toks e]. destruct H as [C [_ ->]]. cbn [fst snd].
  generalize zeroLocals. induction toks as [|t toks IH]; intros l; [now left |].
  inversion C as [|? ? Ct Cs]; subst. cbn [loop].
  destruct (closed_get_1 t Ct) as [c G].
  assert (N : forall l' out, iteration unmarshalDemand unmarshalSummation intOutside l t
                             <> (l', out, IndexPanic)).
  { intros l' out. unfold iteration. rewrite G.
    destruct (Ascii.eqb c "I").
    { destruct (demandCase intOutside _) as [o k] eqn:D. intros Q. injection Q as _ _ ->.
      unfold demandCase in D.
      repeat match type of D with
             | context [if ?b then _ else _] => destruct b
             | context [match ?x with _ => _ end] => destruct x
             end; discriminate. }
    destruct (Ascii.eqb c "C").
    { destruct (summationCase _) as [o k] eqn:D. intros Q. injection Q as _ _ ->.
      unfold summationCase in D.
      repeat match type of D with
             | context [if ?b then _ else _] => destruct b
             | context [match ?x with _ => _ end] => destruct x
             end; discriminate. }
    destruct (Ascii.eqb c "T"); discriminate. }
  destruct (iteration unmarshalDemand unmarshalSummation intOutside l t) as [[l' out] [|msg|]].
  - specialize (IH Cs l').
    destruct (loop unmarshalDemand unmarshalSummation intOutside l' toks bufio.Stopped)
      as [rest o]. exact IH.
  - right. now exists msg.
  - now elim (N l' out).
Qed.

(** C8: a frame whose byte at offset 1 is none of [I], [C] and [T] makes
    the loop exit through [log.Fatal]: the iteration publishes nothing and
    leaves the two structures as they were; the loop ends there without
    another call of [Scan], so what [scanSerial] publishes and how it ends
    is the same whatever comes after that frame. *)
Theorem C8_unknown_record_kind_is_fatal
        (unmarshalDemand : string -> InstantaneousDemand.t -> InstantaneousDemand.t)
        (unmarshalSummation
         : string -> CurrentSummationDelivered.t -> CurrentSummationDelivered.t)
        (intOutside : float64 -> Z) (text : string) (c : ascii) :
  String.get 1 text = Some c -> c <> "I"%char -> c <> "C"%char -> c <> "T"%char ->
  (forall l,
      iteration unmarshalDemand unmarshalSummation intOutside l text
      = (l, [], Fatal "Unexpected case"))
  /\ (forall fuel sc sc' l,
         bufio.Scan split sc = (bufio.Token text, sc') ->
         run unmarshalDemand unmarshalSummation intOutside (S fuel) sc l
         = ([], Exited "Unexpected case"))
  /\ (forall l post e,
         loop unmarshalDemand unmarshalSummation intOutside l (text :: post) e
         = ([], Exited "Unexpected case"))
  /\ (forall l pre post e,
         loop unmarshalDemand unmarshalSummation intOutside l (pre ++ text :: post)%list e
         = loop unmarshalDemand unmarshalSummation intOutside l (pre ++ [text])%list
                bufio.Stopped)
  /\ (forall rd pre post e,
         frames rd = ((pre ++ text :: post)%list, e) ->
         scanSerial unmarshalDemand unmarshalSummation intOutside rd
         = loop unmarshalDemand unmarshalSummation intOutside zeroLocals (pre ++ [text])%list
                bufio.Stopped).
Proof.
  intros G NI NC NT.
  assert (It : forall l, iteration unmarshalDemand unmarshalSummation intOutside l text
                         = (l, [], Fatal "Unexpected case")).
  { intros l. unfold iteration. rewrite G.
    apply Ascii.eqb_neq in NI, NC, NT. now rewrite NI, NC, NT. }
  assert (St : forall l pre post e,
             loop unmarshalDemand unmarshalSummation intOutside l (pre ++ text :: post)%list e
             = loop unmarshalDemand unmarshalSummation intOutside l (pre ++ [text])%list
                    bufio.Stopped).
  { intros l pre post e. apply (loop_stops_at _ _ _ text [] "Unexpected case").
    intros l0. exists l0. apply It. }
  split; [exact It |]. split; [| split; [| split; [exact St |]]].
  - intros fuel sc sc' l S. cbn [run]. now rewrite S, It.
  - intros l post e. simpl. now rewrite It.
  - intros rd pre post e F. rewrite scanSerial_frames, F. apply St.
Qed.

(** A price-cluster record, which the scanner hands over together with
    the time-cluster record behind it. *)
Lemma C8_unknown_record_kind_is_fatal_witness :
  let text := "<PriceCluster>" ++ CRLF ++ "</PriceCluster>" ++ CRLF
              ++ "<TimeCluster>" ++ CRLF ++ closeTimeCluster in
  String.get 1 text = Some "P"%char
  /\ scanSerial_flat [text; "<TimeCluster>" ++ CRLF ++ closeTimeCluster]
     = ([], Exited "Unexpected case")
  /\ forall l post e,
      loop xml.UnmarshalInstantaneousDemand xml.UnmarshalCurrentSummationDelivered
           intOutside_amd64 l (text :: post) e
      = ([], Exited "Unexpected case").
Proof.
  cbv zeta. split; [reflexivity |]. split; [vm_compute; reflexivity |].
  apply (C8_unknown_record_kind_is_fatal
           xml.UnmarshalInstantaneousDemand xml.UnmarshalCurrentSummationDelivered
           intOutside_amd64 _ "P"%char); [reflexivity | discriminate ..].
Defined.

(** ** Conversions *)

Lemma FormatInt_nonempty (z : Z) : strconv.FormatInt z <> "".
Proof.
  unfold strconv.FormatInt. destruct (Z.to_int z) as [d | d]; simpl.
  - destruct d; simpl; discriminate.
  - discriminate.
Qed.

Lemma publishPower_FormatInt (z : Z) :
  publishPower (fmt.Sprintf_v z) = [mkMessage powerTopic (fmt.Sprintf_v z)].
Proof.
  unfold publishPower, fmt.Sprintf_v.
  destruct (String.eqb_spec (strconv.FormatInt z) "") as [E | _]; [| reflexivity].
  now apply FormatInt_nonempty in E.
Qed.

Lemma float64_of_int_zero : float64_of_int 0 = S754_zero false.
Proof. reflexivity. Qed.

(** Division by zero gives an infinity or no number, never an error. *)
Lemma fdiv_by_zero (x : float64) :
  fdiv x (float64_of_int 0) = S754_nan \/ exists s, fdiv x (float64_of_int 0) = S754_infinity s.
Proof.
  rewrite float64_of_int_zero. destruct x as [s | s | | s m e]; simpl; eauto.
Qed.

Lemma fmul_no_number_1000 (x : float64) :
  x = S754_nan \/ (exists s, x = S754_infinity s) ->
  fmul x (float64_of_int 1000) = x.
Proof. intros [-> | [[] ->]]; reflexivity. Qed.

Lemma Sprintf_f_no_number (p : nat) (x : float64) :
  x = S754_nan \/ (exists s, x = S754_infinity s) -> no_number (fmt.Sprintf_f p x).
Proof.
  unfold no_number. intros [-> | [[] ->]]; simpl; auto.
Qed.

Lemma no_number_nonempty (t : string) : no_number t -> (t =? "")%string = false.
Proof. intros [-> | [-> | ->]]; reflexivity. Qed.

(** ** C1 *)

(** C1, as stated, fails: a summation record that passes validation and
    whose Divisor reads 0 raises no error; both readings are published, as
    [+Inf] and [NaN], and the loop goes on to the next frame. *)
Lemma C1_zero_divisor_publishes :
  let v := CurrentSummationDelivered.mk "CurrentSummationDelivered" "" "" ""
             "0x00000001" "0x00000000" "0x00000001" "00000000" "" "" "" in
  let frame := "<CurrentSummationDelivered>" ++ CRLF
               ++ "  <SummationDelivered>0x00000001</SummationDelivered>" ++ CRLF
               ++ "  <SummationReceived>0x00000000</SummationReceived>" ++ CRLF
               ++ "  <Multiplier>0x00000001</Multiplier>" ++ CRLF
               ++ "  <Divisor>00000000</Divisor>" ++ CRLF
               ++ closeCurrentSummationDelivered in
  CurrentSummationDelivered.valid v = true
  /\ strconv.ParseInt (CurrentSummationDelivered.Divisor v) 0 64 = (0, None)
  /\ summationCase v = ([mkMessage deliveredTopic "+Inf"; mkMessage receivedTopic "NaN"], Next)
  /\ scanSerial_flat [frame; "<TimeCluster>" ++ CRLF ++ closeTimeCluster]
     = ([mkMessage deliveredTopic "+Inf"; mkMessage receivedTopic "NaN"], Returned).
Proof. cbv zeta. repeat split; vm_compute; reflexivity. Qed.

(** C1, amended: a record that passes validation and whose Divisor reads
    0 is converted like any other.  The quotient is an infinity or no
    number; a summation record publishes both readings, each as one of the
    texts [+Inf], [-Inf] and [NaN]; an instantaneous-demand record publishes
    the integer the platform converts that quotient to; no error is raised
    and the loop continues with the next frame. *)
Theorem C1_zero_divisor_is_converted_and_published (intOutside : float64 -> Z) :
  (forall v i mult,
      InstantaneousDemand.valid v = true ->
      strconv.ParseInt (InstantaneousDemand.Demand v) 0 64 = (i, None) ->
      strconv.ParseInt (InstantaneousDemand.Multiplier v) 0 64 = (mult, None) ->
      strconv.ParseInt (InstantaneousDemand.Divisor v) 0 64 = (0, None) ->
      let q := scale i mult 0 in
      (q = S754_nan \/ exists s, q = S754_infinity s)
      /\ demandCase intOutside v
         = ([mkMessage powerTopic (fmt.Sprintf_v (intOutside q))], Next))
  /\ (forall v d r mult,
         CurrentSummationDelivered.valid v = true ->
         strconv.ParseInt (CurrentSummationDelivered.SummationDelivered v) 0 64 = (d, None) ->
         strconv.ParseInt (CurrentSummationDelivered.SummationReceived v) 0 64 = (r, None) ->
         strconv.ParseInt (CurrentSummationDelivered.Multiplier v) 0 64 = (mult, None) ->
         strconv.ParseInt (CurrentSummationDelivered.Divisor v) 0 64 = (0, None) ->
         exists x y,
           no_number x /\ no_number y
           /\ summationCase v = ([mkMessage deliveredTopic x; mkMessage receivedTopic y], Next)).
Proof.
  split.
  - intros v i mult V Pi Pm Pd q.
    assert (Q : q = S754_nan \/ exists s, q = S754_infinity s) by apply fdiv_by_zero.
    split; [exact Q |].
    unfold demandCase. rewrite V, Pi, Pm, Pd. cbn [negb].
    unfold powerText. fold q. rewrite (fmul_no_number_1000 q Q).
    replace (int_of_float64 intOutside q) with (intOutside q)
      by (destruct Q as [-> | [s ->]]; reflexivity).
    now rewrite publishPower_FormatInt.
  - intros v d r mult V Pd Pr Pm Pv.
    exists (energyText d mult 0), (energyText r mult 0).
    assert (Nd : no_number (energyText d mult 0))
      by (apply Sprintf_f_no_number, fdiv_by_zero).
    assert (Nr : no_number (energyText r mult 0))
      by (apply Sprintf_f_no_number, fdiv_by_zero).
    split; [exact Nd |]. split; [exact Nr |].
    unfold summationCase. rewrite V, Pd, Pr, Pm, Pv. cbn [negb].
    unfold publishEnergy. now rewrite (no_number_nonempty _ Nd), (no_number_nonempty _ Nr).
Qed.

(** ** C2 *)

(** C2 fails on the code: the structure decoded into is declared before the
    loop, and a field whose element is absent from a frame keeps the value
    an earlier frame gave it.  Here the second frame has no Demand; it
    passes validation on the first frame's Demand and is published. *)
Lemma C2_missing_field_published_from_earlier_frame :
  let first := "<InstantaneousDemand>" ++ CRLF
               ++ "  <Demand>0x000005</Demand>" ++ CRLF
               ++ "  <Multiplier>0x00000002</Multiplier>" ++ CRLF
               ++ "  <Divisor>0x00000001</Divisor>" ++ CRLF
               ++ closeInstantaneousDemand in
  let second := "<InstantaneousDemand>" ++ CRLF
                ++ "  <Multiplier>0x00000001</Multiplier>" ++ CRLF
                ++ "  <Divisor>0x00000001</Divisor>" ++ CRLF
                ++ closeInstantaneousDemand in
  InstantaneousDemand.Demand
    (xml.UnmarshalInstantaneousDemand second InstantaneousDemand.zero) = ""
  /\ scanSerial_flat [second] = ([], Returned)
  /\ scanSerial_flat [first; second]
     = ([mkMessage powerTopic "10000"; mkMessage powerTopic "5000"], Returned).
Proof. cbv zeta. repeat split; vm_compute; reflexivity. Qed.

(** ** Validation against parsing *)

Lemma hexDigits_all_hex (t : string) :
  validator.hexDigits t = true <-> t <> "" /\ all_hex t = true.
Proof.
  induction t as [|c t IH]; simpl.
  - split; [discriminate | intros [H _]; now elim H].
  - destruct t as [|c' t].
    + simpl. rewrite andb_true_r. split; [intros H; split; [discriminate | exact H] | tauto].
    + rewrite andb_true_iff, IH. split.
      * intros [H [_ A]]. split; [discriminate |]. now rewrite H, A.
      * intros [_ H]. apply andb_true_iff in H. destruct H as [H A].
        split; [exact H |]. split; [discriminate | exact A].
Qed.

(** What [ParseUint] reads a hexadecimal digit as. *)
Lemma digitOf_hex (c : ascii) :
  validator.isHexDigit c = true ->
  strconv.digitOf (strconv.byte c) = Some (hexDigitValue c)
  /\ 0 <= hexDigitValue c < 16
  /\ (strconv.byte c =? 95) = false.
Proof.
  destruct c as [[] [] [] [] [] [] [] []]; vm_compute; intros H; try discriminate H;
    repeat split; discriminate.
Qed.

Lemma hexValue_from_ge (t : string) (n : Z) :
  all_hex t = true -> 0 <= n -> n <= hexValue_from n t.
Proof.
  revert n. induction t as [|c t IH]; intros n A N; cbn [hexValue_from]; [lia |].
  simpl in A. apply andb_true_iff in A. destruct A as [H A].
  destruct (digitOf_hex c H) as [_ [B _]].
  specialize (IH (16 * n + hexDigitValue c) A). lia.
Qed.

Lemma hexValue_from_lt (t : string) (n : Z) :
  all_hex t = true -> 0 <= n ->
  hexValue_from n t < (n + 1) * 16 ^ Z.of_nat (String.length t).
Proof.
  revert n. induction t as [|c t IH]; intros n A N.
  - simpl. lia.
  - simpl in A. apply andb_true_iff in A. destruct A as [H A].
    destruct (digitOf_hex c H) as [_ [B _]].
    cbn [hexValue_from String.length].
    specialize (IH (16 * n + hexDigitValue c) A ltac:(lia)).
    rewrite Nat2Z.inj_succ, Z.pow_succ_r by lia.
    assert (0 < 16 ^ Z.of_nat (String.length t)) by (apply Z.pow_pos_nonneg; lia).
    nia.
Qed.

(** The digit loop on hexadecimal digits, without overflow. *)
Lemma digits_hex (t : string) (n : Z) (u : bool) :
  all_hex t = true -> 0 <= n -> hexValue_from n t < 2 ^ 64 ->
  strconv.digits t true 16 1152921504606846976 18446744073709551615 n u
  = (hexValue_from n t, None, u).
Proof.
  revert n. induction t as [|c t IH]; intros n A N B; [reflexivity |].
  simpl in A. apply andb_true_iff in A. destruct A as [H A].
  destruct (digitOf_hex c H) as [D [[D0 D16] U]].
  cbn [strconv.digits hexValue_from]. rewrite U, D. cbn [andb].
  pose proof (hexValue_from_ge t (16 * n + hexDigitValue c) A ltac:(lia)) as G.
  cbn [hexValue_from] in B.
  assert (P : 2 ^ 64 = 18446744073709551616) by reflexivity. rewrite P in *.
  replace (16 <=? hexDigitValue c) with false by (symmetry; apply Z.leb_gt; lia).
  replace (1152921504606846976 <=? n) with false by (symmetry; apply Z.leb_gt; lia).
  rewrite (Z.mod_small (n * 16)) by lia.
  rewrite (Z.mod_small (n * 16 + hexDigitValue c)) by lia.
  replace (n * 16 + hexDigitValue c <? n * 16) with false by (symmetry; apply Z.ltb_ge; lia).
  replace (18446744073709551615 <? n * 16 + hexDigitValue c) with false
    by (symmetry; apply Z.ltb_ge; lia).
  cbn [orb]. replace (n * 16) with (16 * n) by lia. apply IH; [exact A | lia | exact B].
Qed.

Lemma pickBase_hex (x a : ascii) (t : string) :
  x = "x"%char \/ x = "X"%char ->
  strconv.pickBase (String "0" (String x (String a t))) 0 = Some (16, String a t).
Proof.
  intros X. unfold strconv.pickBase.
  replace (3 <=? len (String "0" (String x (String a t)))) with true
    by (symmetry; apply Z.leb_le; unfold len; cbn [String.length]; lia).
  destruct X as [-> | ->]; reflexivity.
Qed.

Lemma ParseUint_hex (x : ascii) (t : string) :
  x = "x"%char \/ x = "X"%char ->
  validator.hexDigits t = true -> hexValue t < 2 ^ 64 ->
  strconv.ParseUint (String "0" (String x t)) 0 64 = (hexValue t, None).
Proof.
  intros X H B. apply hexDigits_all_hex in H. destruct H as [N A].
  destruct t as [|a t]; [now elim N |].
  unfold strconv.ParseUint. cbn [String.eqb]. rewrite (pickBase_hex x a t X).
  change ((64 <? 0) || (64 <? 64)) with false. cbv iota.
  change (if 64 =? 0 then strconv.IntSize else 64) with 64.
  change (strconv.maxUint64 / 16 + 1) with 1152921504606846976.
  change (((2 ^ 64) mod 2 ^ 64 - 1) mod 2 ^ 64) with 18446744073709551615.
  change (0 =? 0) with true.
  rewrite (digits_hex (String a t) 0 false A ltac:(lia) B). reflexivity.
Qed.

Lemma int64_small (z : Z) : - 2 ^ 63 <= z < 2 ^ 63 -> strconv.int64 z = z.
Proof.
  intros H. unfold strconv.int64.
  assert (P : 2 ^ 64 = 2 * 2 ^ 63) by reflexivity.
  rewrite Z.mod_small; lia.
Qed.

Lemma int64_range (z : Z) : - 2 ^ 63 <= strconv.int64 z < 2 ^ 63.
Proof.
  unfold strconv.int64. assert (P : 2 ^ 64 = 2 * 2 ^ 63) by reflexivity.
  pose proof (Z.mod_pos_bound (z + 2 ^ 63) (2 ^ 64) ltac:(lia)). lia.
Qed.

Lemma hexValue_nonneg (t : string) : all_hex t = true -> 0 <= hexValue t.
Proof. intros A. apply (hexValue_from_ge t 0 A). lia. Qed.

Lemma ParseInt_hex (x : ascii) (t : string) :
  x = "x"%char \/ x = "X"%char ->
  validator.hexDigits t = true -> hexValue t < 2 ^ 63 ->
  strconv.ParseInt (String "0" (String x t)) 0 64 = (hexValue t, None).
Proof.
  intros X H B. unfold strconv.ParseInt. cbn [String.eqb].
  change (strconv.at_ (String "0" (String x t)) 0 =? 43) with false.
  change (strconv.at_ (String "0" (String x t)) 0 =? 45) with false.
  cbv iota.
  assert (P : 2 ^ 64 = 2 * 2 ^ 63) by reflexivity.
  rewrite (ParseUint_hex x t X H) by lia.
  change (if 64 =? 0 then strconv.IntSize else 64) with 64.
  change (64 - 1) with 63.
  replace (2 ^ 63 <=? hexValue t) with false by (symmetry; apply Z.leb_gt; lia).
  cbn [negb andb]. rewrite int64_small; [reflexivity |].
  apply hexDigits_all_hex in H. pose proof (hexValue_nonneg t (proj2 H)). lia.
Qed.

Lemma required_hexadecimal_prefixed (x : ascii) (t : string) :
  x = "x"%char \/ x = "X"%char ->
  validator.hexDigits t = true ->
  validator.required_hexadecimal (String "0" (String x t)) = true.
Proof.
  intros X H. unfold validator.required_hexadecimal, validator.hasValue.
  cbn [String.eqb negb andb]. unfold validator.isHexadecimal. rewrite H.
  destruct X as [-> | ->]; reflexivity.
Qed.

(** The digit loop on hexadecimal digits whose value leaves [uint64]. *)
Lemma digits_hex_overflow (t : string) (n : Z) (u : bool) :
  all_hex t = true -> 0 <= n < 2 ^ 64 -> 2 ^ 64 <= hexValue_from n t ->
  strconv.digits t true 16 1152921504606846976 18446744073709551615 n u
  = (18446744073709551615, Some strconv.ErrRange, u).
Proof.
  revert n. induction t as [|c t IH]; intros n A N B.
  - cbn [hexValue_from] in B. lia.
  - simpl in A. apply andb_true_iff in A. destruct A as [H A].
    destruct (digitOf_hex c H) as [D [[D0 D16] U]].
    cbn [strconv.digits]. rewrite U, D. cbn [andb].
    cbn [hexValue_from] in B.
    assert (P : 2 ^ 64 = 18446744073709551616) by reflexivity. rewrite P in *.
    replace (16 <=? hexDigitValue c) with false by (symmetry; apply Z.leb_gt; lia).
    destruct (1152921504606846976 <=? n) eqn:Q; [reflexivity |].
    apply Z.leb_gt in Q.
    rewrite (Z.mod_small (n * 16)) by lia.
    rewrite (Z.mod_small (n * 16 + hexDigitValue c)) by lia.
    replace (n * 16 + hexDigitValue c <? n * 16) with false by (symmetry; apply Z.ltb_ge; lia).
    replace (18446744073709551615 <? n * 16 + hexDigitValue c) with false
      by (symmetry; apply Z.ltb_ge; lia).
    cbn [orb]. replace (n * 16) with (16 * n) by lia. apply IH; [exact A | lia | exact B].
Qed.

(** At 2^63 and above the parse is a range error. *)
Lemma ParseInt_hex_range (x : ascii) (t : string) :
  x = "x"%char \/ x = "X"%char ->
  validator.hexDigits t = true -> 2 ^ 63 <= hexValue t ->
  strconv.ParseInt (String "0" (String x t)) 0 64 = (2 ^ 63 - 1, Some strconv.ErrRange).
Proof.
  intros X H B. unfold strconv.ParseInt. cbn [String.eqb].
  change (strconv.at_ (String "0" (String x t)) 0 =? 43) with false.
  change (strconv.at_ (String "0" (String x t)) 0 =? 45) with false.
  cbv iota.
  change (if 64 =? 0 then strconv.IntSize else 64) with 64.
  change (64 - 1) with 63.
  assert (P : 2 ^ 64 = 2 * 2 ^ 63) by reflexivity.
  destruct (Z.lt_ge_cases (hexValue t) (2 ^ 64)) as [L | G].
  - rewrite (ParseUint_hex x t X H L).
    replace (2 ^ 63 <=? hexValue t) with true by (symmetry; apply Z.leb_le; lia).
    reflexivity.
  - apply hexDigits_all_hex in H. destruct H as [N A].
    destruct t as [|a t]; [now elim N |].
    unfold strconv.ParseUint. cbn [String.eqb]. rewrite (pickBase_hex x a t X).
    change ((64 <? 0) || (64 <? 64)) with false. cbv iota.
    change (if 64 =? 0 then strconv.IntSize else 64) with 64.
    change (strconv.maxUint64 / 16 + 1) with 1152921504606846976.
    change (((2 ^ 64) mod 2 ^ 64 - 1) mod 2 ^ 64) with 18446744073709551615.
    change (0 =? 0) with true.
    rewrite (digits_hex_overflow (String a t) 0 false A ltac:(lia) G).
    reflexivity.
Qed.

(** A validated record one of whose fields does not parse reaches
    [log.Fatal], with nothing published. *)
Lemma demandCase_parse_failure (intOutside : float64 -> Z) (v : InstantaneousDemand.t) :
  InstantaneousDemand.valid v = true ->
  (exists f n e,
      (f = InstantaneousDemand.Demand v \/ f = InstantaneousDemand.Multiplier v
       \/ f = InstantaneousDemand.Divisor v)
      /\ strconv.ParseInt f 0 64 = (n, Some e)) ->
  demandCase intOutside v = ([], Fatal parseFatal).
Proof.
  intros V [f [n [e [F Q]]]]. unfold demandCase. rewrite V. cbn [negb].
  repeat match goal with
         | |- context [strconv.ParseInt ?s 0 64] =>
             let E := fresh "E" in
             destruct (strconv.ParseInt s 0 64) as [? [?|]] eqn:E; [reflexivity |]
         end.
  destruct F as [-> | [-> | ->]]; congruence.
Qed.

Lemma summationCase_parse_failure (v : CurrentSummationDelivered.t) :
  CurrentSummationDelivered.valid v = true ->
  (exists f n e,
      (f = CurrentSummationDelivered.SummationDelivered v
       \/ f = CurrentSummationDelivered.SummationReceived v
       \/ f = CurrentSummationDelivered.Multiplier v
       \/ f = CurrentSummationDelivered.Divisor v)
      /\ strconv.ParseInt f 0 64 = (n, Some e)) ->
  summationCase v = ([], Fatal parseFatal).
Proof.
  intros V [f [n [e [F Q]]]]. unfold summationCase. rewrite V. cbn [negb].
  repeat match goal with
         | |- context [strconv.ParseInt ?s 0 64] =>
             let E := fresh "E" in
             destruct (strconv.ParseInt s 0 64) as [? [?|]] eqn:E; [reflexivity |]
         end.
  destruct F as [-> | [-> | [-> | ->]]]; congruence.
Qed.

(** ** C3 *)

(** C3, as stated, fails: [FF] passes the hexadecimal rule, and the parse
    with base 0 reads it as a decimal number and fails; a record with that
    Demand ends the process. *)
Lemma C3_validated_field_fails_to_parse :
  let v := InstantaneousDemand.mk "InstantaneousDemand" "" "" "" "FF" "0x1" "0x1" "" "" "" in
  validator.required_hexadecimal "FF" = true
  /\ strconv.ParseInt "FF" 0 64 = (0, Some strconv.ErrSyntax)
  /\ InstantaneousDemand.valid v = true
  /\ demandCase intOutside_amd64 v = ([], Fatal parseFatal).
Proof. cbv zeta. repeat split; vm_compute; reflexivity. Qed.

(** C3, amended: a field written as the meter writes it, the prefix [0x]
    (or [0X]) and then hexadecimal digits, passes the validation.  When
    its value is below 2^63, its parse as a 64-bit integer succeeds, with
    that value.  When its value is 2^63 or more, the parse fails with a
    range error, and a validated record of either kind that holds the
    field in one of its required places reaches the fatal parse-failure
    branch, with nothing published. *)
Theorem C3_prefixed_hexadecimal_field_parses_or_is_fatal (x : ascii) (t : string) :
  x = "x"%char \/ x = "X"%char ->
  validator.hexDigits t = true ->
  validator.required_hexadecimal (String "0" (String x t)) = true
  /\ (hexValue t < 2 ^ 63 ->
      strconv.ParseInt (String "0" (String x t)) 0 64 = (hexValue t, None))
  /\ (2 ^ 63 <= hexValue t ->
      strconv.ParseInt (String "0" (String x t)) 0 64 = (2 ^ 63 - 1, Some strconv.ErrRange)
      /\ (forall intOutside v,
             InstantaneousDemand.valid v = true ->
             InstantaneousDemand.Demand v = String "0" (String x t)
             \/ InstantaneousDemand.Multiplier v = String "0" (String x t)
             \/ InstantaneousDemand.Divisor v = String "0" (String x t) ->
             demandCase intOutside v = ([], Fatal "ERROR parsing XML:"))
      /\ (forall v,
             CurrentSummationDelivered.valid v = true ->
             CurrentSummationDelivered.SummationDelivered v = String "0" (String x t)
             \/ CurrentSummationDelivered.SummationReceived v = String "0" (String x t)
             \/ CurrentSummationDelivered.Multiplier v = String "0" (String x t)
             \/ CurrentSummationDelivered.Divisor v = String "0" (String x t) ->
             summationCase v = ([], Fatal "ERROR parsing XML:"))).
Proof.
  intros X H. split; [now apply required_hexadecimal_prefixed |].
  split; [intros B; now apply ParseInt_hex |].
  intros B. pose proof (ParseInt_hex_range x t X H B) as R.
  split; [exact R |]. split.
  - intros intOutside v V F. apply demandCase_parse_failure; [exact V |].
    exists (String "0" (String x t)), (2 ^ 63 - 1), strconv.ErrRange.
    split; [| exact R]. destruct F as [F | [F | F]]; auto.
  - intros v V F. apply summationCase_parse_failure; [exact V |].
    exists (String "0" (String x t)), (2 ^ 63 - 1), strconv.ErrRange.
    split; [| exact R]. destruct F as [F | [F | [F | F]]]; auto.
Qed.

(** The fields [0xFFFFFFFF], which parses, and [0x8000000000000000], which
    is 2^63 and ends the program. *)
Lemma C3_prefixed_hexadecimal_field_parses_or_is_fatal_witness :
  (validator.required_hexadecimal "0xFFFFFFFF" = true
   /\ strconv.ParseInt "0xFFFFFFFF" 0 64 = (4294967295, None))
  /\ (validator.required_hexadecimal "0x8000000000000000" = true
      /\ strconv.ParseInt "0x8000000000000000" 0 64
         = (9223372036854775807, Some strconv.ErrRange)
      /\ demandCase intOutside_amd64
           (InstantaneousDemand.mk "InstantaneousDemand" "" "" ""
              "0x8000000000000000" "0x1" "0x1" "" "" "")
         = ([], Fatal "ERROR parsing XML:")).
Proof.
  split.
  - destruct (C3_prefixed_hexadecimal_field_parses_or_is_fatal "x"%char "FFFFFFFF") as [V [P _]];
      [left; reflexivity | reflexivity |].
    split; [exact V | apply P; vm_compute; reflexivity].
  - destruct (C3_prefixed_hexadecimal_field_parses_or_is_fatal "x"%char "8000000000000000") as [V [_ R]];
      [left; reflexivity | reflexivity |].
    destruct R as [P [D _]]; [vm_compute; discriminate |].
    split; [exact V |]. split; [exact P |].
    apply D; [reflexivity | left; reflexivity].
Defined.

(** ** The arithmetic of the conversion stays within [float64] *)

Lemma digits2_pos_size (p : positive) : digits2_pos p = Pos.size p.
Proof. induction p as [p IH | p IH |]; simpl; now rewrite ?IH. Qed.

Lemma Zdigits2_log2 (m : Z) : 0 < m -> Zdigits2 m = Z.log2 m + 1.
Proof.
  destruct m as [|p|p]; try lia. intros _. simpl.
  rewrite digits2_pos_size. destruct p; simpl; rewrite ?Pos2Z.inj_succ; lia.
Qed.

Lemma Zdigits2_zero : Zdigits2 0 = 0.
Proof. reflexivity. Qed.

Lemma Zdigits2_nonneg (m : Z) : 0 <= m -> 0 <= Zdigits2 m.
Proof.
  intros H. destruct (Z.eq_dec m 0) as [-> | N]; [simpl; lia |].
  rewrite Zdigits2_log2 by lia. pose proof (Z.log2_nonneg m). lia.
Qed.

Lemma Zdigits2_le (m k : Z) : 0 <= m -> 0 <= k -> (Zdigits2 m <= k <-> m < 2 ^ k).
Proof.
  intros M K. destruct (Z.eq_dec m 0) as [-> | N].
  - simpl. split; intros _; [apply Z.pow_pos_nonneg; lia | lia].
  - rewrite Zdigits2_log2 by lia. rewrite Z.log2_lt_pow2 by lia. lia.
Qed.

Lemma iter_pos_nat {A} (f : A -> A) (p : positive) (x : A) :
  iter_pos f p x = Nat.iter (Pos.to_nat p) f x.
Proof.
  revert x. induction p as [p IH | p IH |]; intros x; cbn [iter_pos].
  - rewrite !IH. rewrite Pos2Nat.inj_xI.
    replace (S (2 * Pos.to_nat p)) with (Pos.to_nat p + (Pos.to_nat p + 1))%nat by lia.
    rewrite !Nat.iter_add. reflexivity.
  - rewrite !IH. rewrite Pos2Nat.inj_xO.
    replace (2 * Pos.to_nat p)%nat with (Pos.to_nat p + Pos.to_nat p)%nat by lia.
    now rewrite Nat.iter_add.
  - reflexivity.
Qed.

Lemma shr_1_m (r : shr_record) : 0 <= shr_m r -> shr_m (shr_1 r) = shr_m r / 2.
Proof.
  destruct r as [m a b]. simpl. intros H. destruct m as [|p|p]; try lia.
  - reflexivity.
  - destruct p; simpl; try reflexivity.
    + rewrite Pos2Z.inj_xI. apply Z.div_unique with (r := 1); lia.
    + rewrite Pos2Z.inj_xO. apply Z.div_unique with (r := 0); lia.
Qed.

Lemma iter_shr_1_m (n : nat) (r : shr_record) :
  0 <= shr_m r -> shr_m (Nat.iter n shr_1 r) = shr_m r / 2 ^ Z.of_nat n.
Proof.
  intros H. induction n as [|n IH].
  - simpl. now rewrite Z.div_1_r.
  - rewrite Nat.iter_succ, shr_1_m.
    + rewrite IH, Nat2Z.inj_succ, Z.pow_succ_r by lia.
      rewrite Z.div_div by (try apply Z.pow_pos_nonneg; lia). f_equal. lia.
    + rewrite IH. apply Z.div_pos; [lia | apply Z.pow_pos_nonneg; lia].
Qed.

Lemma fexp_eq (x : Z) : fexp 53 1024 x = Z.max (x - 53) (-1074).
Proof. reflexivity. Qed.

Lemma shr_spec (mrs : shr_record) (e n : Z) :
  0 <= shr_m mrs ->
  shr_m (fst (shr mrs e n)) = shr_m mrs / 2 ^ Z.max 0 n
  /\ snd (shr mrs e n) = e + Z.max 0 n.
Proof.
  intros H. destruct n as [|p|p]; simpl.
  - now rewrite Z.div_1_r, Z.add_0_r.
  - rewrite iter_pos_nat, iter_shr_1_m, positive_nat_Z by exact H.
    split; reflexivity.
  - now rewrite Z.div_1_r, Z.add_0_r.
Qed.

Lemma shr_record_of_loc_m (m : Z) (l : location) : shr_m (shr_record_of_loc m l) = m.
Proof. destruct l as [|[]]; reflexivity. Qed.

Lemma shr_fexp_spec (m e : Z) (l : location) :
  0 <= m ->
  let k := Z.max 0 (Z.max (Zdigits2 m + e - 53) (-1074) - e) in
  shr_m (fst (shr_fexp 53 1024 m e l)) = m / 2 ^ k
  /\ snd (shr_fexp 53 1024 m e l) = e + k.
Proof.
  intros H k. unfold shr_fexp. rewrite fexp_eq.
  pose proof (shr_spec (shr_record_of_loc m l) e (Z.max (Zdigits2 m + e - 53) (-1074) - e)) as S.
  rewrite shr_record_of_loc_m in S. apply S. exact H.
Qed.

Lemma Zdigits2_mono (a b : Z) : 0 <= a <= b -> Zdigits2 a <= Zdigits2 b.
Proof.
  intros H. pose proof (Zdigits2_nonneg b ltac:(lia)) as N.
  apply (Zdigits2_le a (Zdigits2 b)); try lia.
  assert (b < 2 ^ Zdigits2 b) by (apply (Zdigits2_le b (Zdigits2 b)); lia). lia.
Qed.

Lemma Zdigits2_succ (m : Z) : 0 <= m -> Zdigits2 (m + 1) <= Zdigits2 m + 1.
Proof.
  intros H. pose proof (Zdigits2_nonneg m H) as N.
  apply (Zdigits2_le (m + 1) (Zdigits2 m + 1)); try lia.
  assert (m < 2 ^ Zdigits2 m) by (apply (Zdigits2_le m (Zdigits2 m)); lia).
  replace (Zdigits2 m + 1) with (Z.succ (Zdigits2 m)) by lia.
  rewrite Z.pow_succ_r by lia. lia.
Qed.

Lemma Zdigits2_div_pow2 (m k : Z) :
  0 <= m -> 0 <= k -> Zdigits2 (m / 2 ^ k) <= Z.max 0 (Zdigits2 m - k).
Proof.
  intros H K. pose proof (Zdigits2_nonneg m H) as N.
  assert (P : 0 < 2 ^ k) by (apply Z.pow_pos_nonneg; lia).
  assert (Q : 0 <= m / 2 ^ k) by (apply Z.div_pos; lia).
  apply (Zdigits2_le (m / 2 ^ k)); try lia.
  assert (B : m < 2 ^ Zdigits2 m) by (apply (Zdigits2_le m (Zdigits2 m)); lia).
  destruct (Z.le_gt_cases k (Zdigits2 m)) as [L | L].
  - rewrite Z.max_r by lia. apply Z.div_lt_upper_bound; [exact P |].
    rewrite <- Z.pow_add_r by lia. now replace (k + (Zdigits2 m - k)) with (Zdigits2 m) by lia.
  - rewrite Z.max_l by lia. rewrite Z.div_small; [simpl; lia |].
    split; [exact H |]. apply Z.lt_le_trans with (1 := B).
    apply Z.pow_le_mono_r; lia.
Qed.

Lemma Zdigits2_pos_ge (m : Z) : 0 < m -> 2 ^ (Zdigits2 m - 1) <= m.
Proof.
  intros H. rewrite Zdigits2_log2 by exact H.
  replace (Z.log2 m + 1 - 1) with (Z.log2 m) by lia.
  apply Z.log2_spec. exact H.
Qed.

Lemma round_nearest_even_bounds (m : Z) (l : location) :
  m <= round_nearest_even m l <= m + 1.
Proof. destruct l as [|[]]; simpl; try lia. destruct (Z.even m); lia. Qed.

Lemma binary_round_aux_within (s : bool) (m e : Z) (l : location) (K : Z) :
  0 <= m -> Zdigits2 m + e <= K -> e <= K -> -1074 <= K <= 971 ->
  within (K + 1) (binary_round_aux 53 1024 s m e l)
  /\ match binary_round_aux 53 1024 s m e l with
     | S754_finite _ _ e' => e <= e'
     | _ => True
     end
  /\ (0 < m -> -1021 <= e ->
      exists m' e', binary_round_aux 53 1024 s m e l = S754_finite s m' e').
Proof.
  intros M HK HE HR. unfold binary_round_aux.
  pose proof (shr_fexp_spec m e l M) as S1. cbv zeta in S1.
  destruct (shr_fexp 53 1024 m e l) as [mrs' e'] eqn:E1. cbn [fst snd] in S1.
  destruct S1 as [S1m S1e].
  set (k := Z.max 0 (Z.max (Zdigits2 m + e - 53) (-1074) - e)) in *.
  assert (K0 : 0 <= k) by lia.
  assert (P : 0 < 2 ^ k) by (apply Z.pow_pos_nonneg; lia).
  assert (M' : 0 <= shr_m mrs') by (rewrite S1m; apply Z.div_pos; lia).
  pose proof (Zdigits2_div_pow2 m k M K0) as D1. rewrite <- S1m in D1.
  pose proof (round_nearest_even_bounds (shr_m mrs') (loc_of_shr_record mrs')) as R.
  set (m1 := round_nearest_even (shr_m mrs') (loc_of_shr_record mrs')) in *.
  assert (M1 : 0 <= m1) by lia.
  pose proof (Zdigits2_mono m1 (shr_m mrs' + 1) ltac:(lia)) as D2.
  pose proof (Zdigits2_succ (shr_m mrs') M') as D3.
  pose proof (Zdigits2_nonneg m M) as N0.
  pose proof (Zdigits2_nonneg m1 M1) as N1.
  pose proof (shr_fexp_spec m1 e' loc_Exact M1) as S2. cbv zeta in S2.
  destruct (shr_fexp 53 1024 m1 e' loc_Exact) as [mrs'' e''] eqn:E2. cbn [fst snd] in S2.
  destruct S2 as [S2m S2e].
  set (k2 := Z.max 0 (Z.max (Zdigits2 m1 + e' - 53) (-1074) - e')) in *.
  assert (K2 : 0 <= k2) by lia.
  assert (P2 : 0 < 2 ^ k2) by (apply Z.pow_pos_nonneg; lia).
  assert (M'' : 0 <= shr_m mrs'') by (rewrite S2m; apply Z.div_pos; lia).
  pose proof (Zdigits2_div_pow2 m1 k2 M1 K2) as D4. rewrite <- S2m in D4.
  assert (Ee : e'' <= K) by lia.
  split; [| split].
  - destruct (shr_m mrs'') as [|p|p] eqn:Em; [exact I | | lia].
    replace (e'' <=? 1024 - 53) with true by (symmetry; apply Z.leb_le; lia).
    unfold within. lia.
  - destruct (shr_m mrs'') as [|p|p] eqn:Em; [exact I | | exact I].
    replace (e'' <=? 1024 - 53) with true by (symmetry; apply Z.leb_le; lia).
    lia.
  - intros Mp El.
    assert (Kd : k = Z.max 0 (Zdigits2 m - 53)) by lia.
    pose proof (Zdigits2_pos_ge m Mp) as G.
    assert (N0' : 1 <= Zdigits2 m).
    { rewrite Zdigits2_log2 by lia. pose proof (Z.log2_nonneg m). lia. }
    assert (Mq : 0 < shr_m mrs').
    { rewrite S1m. apply Z.div_str_pos. split; [exact P |].
      apply Z.le_trans with (2 := G). apply Z.pow_le_mono_r; lia. }
    assert (M1p : 0 < m1) by lia.
    pose proof (Zdigits2_pos_ge m1 M1p) as G1.
    assert (N1' : 1 <= Zdigits2 m1).
    { rewrite Zdigits2_log2 by lia. pose proof (Z.log2_nonneg m1). lia. }
    assert (Kd2 : k2 = Z.max 0 (Zdigits2 m1 - 53)) by lia.
    assert (Mr : 0 < shr_m mrs'').
    { rewrite S2m. apply Z.div_str_pos. split; [exact P2 |].
      apply Z.le_trans with (2 := G1). apply Z.pow_le_mono_r; lia. }
    destruct (shr_m mrs'') as [|p|p] eqn:Em; try lia.
    replace (e'' <=? 1024 - 53) with true by (symmetry; apply Z.leb_le; lia).
    now exists p, e''.
Qed.

Lemma Zpos_iter_xO (m d : positive) : Z.pos (Pos.iter xO m d) = Z.pos m * 2 ^ Z.pos d.
Proof.
  change (Pos.iter xO m d) with (Zpower.shift_pos d m).
  rewrite Zpower.shift_pos_correct. change (Z.pow_pos 2 d) with (2 ^ Z.pos d). lia.
Qed.

Lemma Zdigits2_mul_pow2 (m d : Z) : 0 < m -> 0 <= d -> Zdigits2 (m * 2 ^ d) = Zdigits2 m + d.
Proof.
  intros M D. assert (0 < 2 ^ d) by (apply Z.pow_pos_nonneg; lia).
  rewrite !Zdigits2_log2 by nia. rewrite Z.log2_mul_pow2 by lia. lia.
Qed.

Lemma Zdigits2_mul (a b : Z) : 0 < a -> 0 < b -> Zdigits2 (a * b) <= Zdigits2 a + Zdigits2 b.
Proof.
  intros A B. rewrite !Zdigits2_log2 by nia.
  pose proof (Z.log2_mul_above a b ltac:(lia) ltac:(lia)). lia.
Qed.

Lemma Zdigits2_ge_1 (m : Z) : 0 < m -> 1 <= Zdigits2 m.
Proof. intros H. rewrite Zdigits2_log2 by lia. pose proof (Z.log2_nonneg m). lia. Qed.

(** The conversion of an integer below 2^K in absolute value. *)
Lemma binary_round_within (s : bool) (p : positive) (K : Z) :
  Z.pos p < 2 ^ K -> 0 <= K <= 971 ->
  exists m e, binary_round 53 1024 s p 0 = S754_finite s m e
              /\ -52 <= e /\ Zdigits2 (Z.pos m) + e <= K + 1.
Proof.
  intros B HK. unfold binary_round.
  assert (D : Zdigits2 (Z.pos p) <= K) by (apply Zdigits2_le; lia).
  pose proof (Zdigits2_ge_1 (Z.pos p) ltac:(lia)) as D1.
  change (Z.pos (digits2_pos p)) with (Zdigits2 (Z.pos p)).
  rewrite fexp_eq. unfold shl_align.
  destruct (Z.max (Zdigits2 (Z.pos p) + 0 - 53) (-1074) - 0) as [|q|q] eqn:E.
  - destruct (binary_round_aux_within s (Z.pos p) 0 loc_Exact K) as [W [G F]]; try lia.
    destruct (F ltac:(lia) ltac:(lia)) as [m [e Eq]]. rewrite Eq in *.
    exists m, e. unfold within in W. cbv iota in G. split; [reflexivity | lia].
  - destruct (binary_round_aux_within s (Z.pos p) 0 loc_Exact K) as [W [G F]]; try lia.
    destruct (F ltac:(lia) ltac:(lia)) as [m [e Eq]]. rewrite Eq in *.
    exists m, e. unfold within in W. cbv iota in G. split; [reflexivity | lia].
  - assert (Q : Z.pos q = 53 - Zdigits2 (Z.pos p)) by lia.
    assert (Dz : Zdigits2 (Z.pos (Pos.iter xO p q)) = 53).
    { rewrite Zpos_iter_xO, Zdigits2_mul_pow2 by lia. lia. }
    destruct (binary_round_aux_within s (Z.pos (Pos.iter xO p q))
                (Z.max (Zdigits2 (Z.pos p) + 0 - 53) (-1074)) loc_Exact K) as [W [G F]]; try lia.
    destruct (F ltac:(lia) ltac:(lia)) as [m [e Eq]]. rewrite Eq in *.
    exists m, e. unfold within in W. cbv iota in G. split; [reflexivity | lia].
Qed.

Lemma float64_of_int_within (n K : Z) :
  Z.abs n < 2 ^ K -> 0 <= K <= 971 ->
  within (K + 1) (float64_of_int n)
  /\ (n <> 0 -> exists s m e, float64_of_int n = S754_finite s m e /\ -52 <= e).
Proof.
  intros B HK. unfold float64_of_int, binary_normalize, prec, emax.
  destruct n as [|p|p].
  - split; [exact I | congruence].
  - destruct (binary_round_within false p K B HK) as [m [e [Eq [L W]]]]. rewrite Eq.
    split; [exact W | intros _; now exists false, m, e].
  - destruct (binary_round_within true p K B HK) as [m [e [Eq [L W]]]]. rewrite Eq.
    split; [exact W | intros _; now exists true, m, e].
Qed.

Lemma within_mono (K K' : Z) (x : spec_float) : K <= K' -> within K x -> within K' x.
Proof. intros H. destruct x; simpl; try tauto. lia. Qed.

Lemma fmul_within (Ka Kb : Z) (x y : float64) :
  within Ka x -> within Kb y -> 0 <= Ka + Kb <= 971 ->
  within (Ka + Kb + 1) (fmul x y).
Proof.
  intros X Y H. unfold fmul, SFmul, prec, emax.
  destruct x as [sx | sx | | sx mx ex]; destruct y as [sy | sy | | sy my ey];
    unfold within in X, Y; try contradiction; try exact I.
  pose proof (Zdigits2_ge_1 (Z.pos mx) ltac:(lia)).
  pose proof (Zdigits2_ge_1 (Z.pos my) ltac:(lia)).
  pose proof (Zdigits2_mul (Z.pos mx) (Z.pos my) ltac:(lia) ltac:(lia)) as D.
  rewrite <- Pos2Z.inj_mul in D.
  apply (binary_round_aux_within (xorb sx sy) (Z.pos (mx * my)) (ex + ey) loc_Exact (Ka + Kb));
    lia.
Qed.

Lemma fdiv_within (Kx L : Z) (x : float64) (sc : bool) (mc : positive) (ec : Z) :
  within Kx x -> L <= ec -> 0 <= Kx - L <= 971 ->
  within (Kx - L + 1) (fdiv x (S754_finite sc mc ec)).
Proof.
  intros X HL H. unfold fdiv, SFdiv, prec, emax.
  destruct x as [sx | sx | | sx mx ex]; unfold within in X; try contradiction; try exact I.
  unfold SFdiv_core_binary.
  set (e' := Z.min (fexp 53 1024 (Zdigits2 (Z.pos mx) + ex - (Zdigits2 (Z.pos mc) + ec))) (ex - ec)).
  set (m' := match ex - ec - e' with
             | 0 => Z.pos mx
             | Z.pos _ => Z.shiftl (Z.pos mx) (ex - ec - e')
             | Z.neg _ => 0
             end).
  assert (S0 : 0 <= ex - ec - e') by lia.
  assert (Em : m' = Z.pos mx * 2 ^ (ex - ec - e')).
  { unfold m'. destruct (ex - ec - e') as [|q|q] eqn:Q; try lia.
    now rewrite Z.shiftl_mul_pow2 by lia. }
  clearbody m'.
  assert (P : 0 < 2 ^ (ex - ec - e')) by (apply Z.pow_pos_nonneg; lia).
  assert (Mp : 0 < m') by nia.
  pose proof (Z_div_mod m' (Z.pos mc) ltac:(lia)) as DM.
  destruct (Z.div_eucl m' (Z.pos mc)) as [q r].
  destruct DM as [DM1 DM2].
  assert (Q0 : 0 <= q) by nia.
  assert (Q1 : q <= m') by nia.
  pose proof (Zdigits2_mono q m' ltac:(lia)) as D.
  rewrite Em, Zdigits2_mul_pow2 in D by lia.
  pose proof (Zdigits2_ge_1 (Z.pos mx) ltac:(lia)).
  apply (binary_round_aux_within (xorb sx sc) q e' (new_location (Z.pos mc) r) (Kx - L)); lia.
Qed.

Lemma int32_range (i : Z) : - 2 ^ 31 <= int32 i < 2 ^ 31.
Proof.
  unfold int32. assert (P : 2 ^ 32 = 2 * 2 ^ 31) by reflexivity.
  pose proof (Z.mod_pos_bound (i + 2 ^ 31) (2 ^ 32) ltac:(lia)). lia.
Qed.

Lemma within_is_number (K : Z) (x : float64) : within K x -> is_number x.
Proof. destruct x; simpl; tauto. Qed.

Lemma scale_within (i mult div : Z) :
  - 2 ^ 63 <= mult < 2 ^ 63 -> - 2 ^ 63 <= div < 2 ^ 63 -> div <> 0 ->
  within 152 (scale i mult div)
  /\ within 164 (fmul (scale i mult div) (float64_of_int 1000)).
Proof.
  intros Hm Hd Nz. pose proof (int32_range i) as Hi.
  assert (P31 : 2 ^ 31 = 2147483648) by reflexivity.
  assert (P32 : 2 ^ 32 = 4294967296) by reflexivity.
  assert (P63 : 2 ^ 63 = 9223372036854775808) by reflexivity.
  assert (P64 : 2 ^ 64 = 18446744073709551616) by reflexivity.
  destruct (float64_of_int_within (int32 i) 32 ltac:(lia) ltac:(lia)) as [Wa _].
  destruct (float64_of_int_within mult 64 ltac:(lia) ltac:(lia)) as [Wb _].
  destruct (float64_of_int_within div 64 ltac:(lia) ltac:(lia)) as [_ Fc].
  destruct (Fc Nz) as [sc [mc [ec [Ec Lc]]]].
  pose proof (fmul_within 33 65 _ _ Wa Wb ltac:(lia)) as Wab.
  assert (Wq : within 152 (scale i mult div)).
  { unfold scale. rewrite Ec. apply (fdiv_within 99 (-52)); [exact Wab | exact Lc | lia]. }
  split; [exact Wq |].
  assert (W1000 : within 11 (float64_of_int 1000)) by (vm_compute; discriminate).
  apply (fmul_within 152 11 _ _ Wq W1000). lia.
Qed.

(** ** What is published for a record with a divisor other than zero *)

Lemma ParseInt_range (s : string) (base n : Z) :
  strconv.ParseInt s base 64 = (n, None) -> - 2 ^ 63 <= n < 2 ^ 63.
Proof.
  unfold strconv.ParseInt. destruct (s =? "")%string; [discriminate |].
  destruct (if strconv.at_ s 0 =? 43 then (false, drop 1 s)
            else if strconv.at_ s 0 =? 45 then (true, drop 1 s) else (false, s)) as [neg s'].
  destruct (strconv.ParseUint s' base 64) as [un e].
  destruct e as [[]|]; try discriminate;
    destruct (negb neg && _); try discriminate;
    destruct (neg && _); try discriminate;
    intros H; injection H as <-; destruct neg; apply int64_range.
Qed.

(** The integer part is the quotient of the exact value, towards zero. *)
Lemma truncate_quot (x : float64) :
  is_number x ->
  exists n d, fraction x = Some (n, d) /\ 0 < d /\ truncate x = Some (Z.quot n d).
Proof.
  destruct x as [s | s | | s m e]; cbn [is_number fraction truncate]; try contradiction;
    intros _.
  - exists 0, 1. repeat split; lia.
  - destruct (e <? 0) eqn:E.
    + apply Z.ltb_lt in E.
      assert (P : 0 < 2 ^ (- e)) by (apply Z.pow_pos_nonneg; lia).
      exists (if s then Z.neg m else Z.pos m), (2 ^ (- e)).
      split; [reflexivity |]. split; [exact P |]. f_equal. destruct s.
      * change (Z.neg m) with (- Z.pos m). rewrite Z.quot_opp_l by lia.
        now rewrite Z.quot_div_nonneg by lia.
      * now rewrite Z.quot_div_nonneg by lia.
    + exists ((if s then Z.neg m else Z.pos m) * 2 ^ e), 1.
      split; [reflexivity |]. split; [lia |]. f_equal. rewrite Z.quot_1_r.
      destruct s; [change (Z.neg m) with (- Z.pos m); lia | reflexivity].
Qed.

Lemma all_digits_append (a b : string) :
  all_digits (a ++ b) = all_digits a && all_digits b.
Proof. induction a as [|c a IH]; simpl; [reflexivity | now rewrite IH, andb_assoc]. Qed.

Lemma digit_isDigit (d : Z) : 0 <= d < 10 -> isDigit (fmt.digit d) = true.
Proof.
  intros H.
  assert (d = 0 \/ d = 1 \/ d = 2 \/ d = 3 \/ d = 4 \/ d = 5 \/ d = 6 \/ d = 7 \/ d = 8 \/ d = 9)
    as [-> | [-> | [-> | [-> | [-> | [-> | [-> | [-> | [-> | ->]]]]]]]]] by lia;
    reflexivity.
Qed.

Lemma fixedDigits_spec (n : nat) (d : Z) :
  String.length (fmt.fixedDigits n d) = n /\ all_digits (fmt.fixedDigits n d) = true.
Proof.
  revert d. induction n as [|n IH]; intros d; cbn [fmt.fixedDigits]; [now split |].
  destruct (IH (d / 10)) as [L A]. split.
  - rewrite length_append, L. simpl. lia.
  - rewrite all_digits_append, A. cbn [all_digits andb].
    rewrite digit_isDigit; [reflexivity |]. apply Z.mod_pos_bound. lia.
Qed.

Lemma string_of_uint_digits (d : Decimal.uint) :
  all_digits (NilEmpty.string_of_uint d) = true.
Proof. induction d; simpl; auto. Qed.

Lemma FormatInt_digits (z : Z) : 0 <= z -> all_digits (strconv.FormatInt z) = true.
Proof.
  intros H. unfold strconv.FormatInt. destruct z as [|p|p]; try lia.
  - reflexivity.
  - cbn [Z.to_int NilZero.string_of_int]. unfold NilZero.string_of_uint.
    destruct (Pos.to_uint p) eqn:E; try reflexivity; rewrite <- E; apply string_of_uint_digits.
Qed.

Lemma scaled_nonneg (m : positive) (e : Z) (p : nat) : 0 <= fmt.scaled m e p.
Proof.
  unfold fmt.scaled.
  assert (T : 0 < 10 ^ Z.of_nat p) by (apply Z.pow_pos_nonneg; lia).
  destruct (e <? 0) eqn:E.
  - apply Z.ltb_lt in E.
    assert (P : 0 < 2 ^ (- e)) by (apply Z.pow_pos_nonneg; lia).
    assert (Q : 0 <= Z.pos m * 10 ^ Z.of_nat p / 2 ^ (- e)) by (apply Z.div_pos; nia).
    destruct (_ ?= _); [destruct (Z.even _) | |]; lia.
  - apply Z.ltb_ge in E.
    assert (P : 0 < 2 ^ e) by (apply Z.pow_pos_nonneg; lia). nia.
Qed.

(** A number is printed with exactly three fraction digits. *)
Lemma Sprintf_f_three_decimals (x : float64) :
  is_number x -> three_decimals (fmt.Sprintf_f 3 x).
Proof.
  destruct x as [s | s | | s m e]; simpl; try contradiction; intros _.
  - exists (if s then "-" else ""), "0", "000".
    repeat split; try reflexivity; try discriminate. destruct s; auto.
  - pose proof (scaled_nonneg m e 3) as N.
    exists (if s then "-" else ""), (strconv.FormatInt (fmt.scaled m e 3 / 10 ^ Z.of_nat 3)),
      (fmt.fixedDigits 3 (fmt.scaled m e 3 mod 10 ^ Z.of_nat 3)).
    split; [reflexivity |]. split; [destruct s; auto |].
    split; [apply FormatInt_nonempty |]. split.
    + apply FormatInt_digits. apply Z.div_pos; [exact N | reflexivity].
    + apply fixedDigits_spec.
Qed.

Lemma three_decimals_nonempty (t : string) : three_decimals t -> (t =? "")%string = false.
Proof.
  intros [sign [ip [fp [-> [_ [N _]]]]]]. apply String.eqb_neq.
  destruct sign; [| discriminate]. destruct ip; [now elim N | discriminate].
Qed.

(** ** C5 *)

(** C5, as stated, fails: the product is not rounded.  Demand 2 with
    multiplier 1 and divisor 3 is 666.67 W and is published as 666, where
    rounding gives 667.  The arithmetic is that of [float64]: demand 1001
    with divisor 1000 is exactly 1001 W and is published as 1000. *)
Lemma C5_power_is_not_rounded :
  let v := InstantaneousDemand.mk "InstantaneousDemand" "" "" ""
             "0x000002" "0x00000001" "0x00000003" "" "" "" in
  let w := InstantaneousDemand.mk "InstantaneousDemand" "" "" ""
             "0x0003e9" "0x00000001" "0x000003e8" "" "" "" in
  InstantaneousDemand.valid v = true
  /\ strconv.ParseInt (InstantaneousDemand.Demand v) 0 64 = (2, None)
  /\ strconv.ParseInt (InstantaneousDemand.Multiplier v) 0 64 = (1, None)
  /\ strconv.ParseInt (InstantaneousDemand.Divisor v) 0 64 = (3, None)
  /\ demandCase intOutside_amd64 v = ([mkMessage powerTopic "666"], Next)
  /\ strconv.FormatInt (round_nearest (int32 2 * 1 * 1000) 3) = "667"
  /\ InstantaneousDemand.valid w = true
  /\ demandCase intOutside_amd64 w = ([mkMessage powerTopic "1000"], Next)
  /\ strconv.FormatInt (round_nearest (int32 1001 * 1 * 1000) 1000) = "1001".
Proof. cbv zeta. repeat split; vm_compute; reflexivity. Qed.

(** C5, amended: for a validated instantaneous-demand record with a
    divisor other than zero, the demand is cut to its low 32 bits taken as
    a signed integer, the product with the multiplier, the quotient by the
    divisor and the product with 1000 are each computed in [float64], and
    the result is always a number; its integer part, the fraction dropped
    (not rounded), is what is published, as a decimal integer, whenever
    that integer part is an [int]. *)
Theorem C5_power_is_truncated_float64
        (intOutside : float64 -> Z) (v : InstantaneousDemand.t) (i mult div : Z) :
  InstantaneousDemand.valid v = true ->
  strconv.ParseInt (InstantaneousDemand.Demand v) 0 64 = (i, None) ->
  strconv.ParseInt (InstantaneousDemand.Multiplier v) 0 64 = (mult, None) ->
  strconv.ParseInt (InstantaneousDemand.Divisor v) 0 64 = (div, None) ->
  div <> 0 ->
  let x := fmul (fdiv (fmul (float64_of_int (int32 i)) (float64_of_int mult))
                      (float64_of_int div))
                (float64_of_int 1000) in
  - 2 ^ 31 <= int32 i < 2 ^ 31
  /\ (int32 i - i) mod 2 ^ 32 = 0
  /\ demandCase intOutside v
     = ([mkMessage powerTopic (strconv.FormatInt (int_of_float64 intOutside x))], Next)
  /\ exists n d,
      fraction x = Some (n, d) /\ 0 < d
      /\ (- 2 ^ 63 <= Z.quot n d < 2 ^ 63 -> int_of_float64 intOutside x = Z.quot n d).
Proof.
  intros V Pi Pm Pd Nz x.
  split; [apply int32_range |]. split.
  { unfold int32.
    replace ((i + 2 ^ 31) mod 2 ^ 32 - 2 ^ 31 - i)
      with ((i + 2 ^ 31) mod 2 ^ 32 - (i + 2 ^ 31)) by lia.
    rewrite Zminus_mod, Z.mod_mod, Z.sub_diag by (vm_compute; discriminate). reflexivity. }
  split.
  { unfold demandCase. rewrite V, Pi, Pm, Pd. cbn [negb].
    unfold powerText. now rewrite publishPower_FormatInt. }
  destruct (scale_within i mult div (ParseInt_range _ _ _ Pm) (ParseInt_range _ _ _ Pd) Nz)
    as [_ W].
  destruct (truncate_quot x (within_is_number _ _ W)) as [n [d [F [D T]]]].
  exists n, d. split; [exact F |]. split; [exact D |].
  intros R. unfold int_of_float64. rewrite T.
  replace (- 2 ^ 63 <=? Z.quot n d) with true by (symmetry; apply Z.leb_le; lia).
  replace (Z.quot n d <? 2 ^ 63) with true by (symmetry; apply Z.ltb_lt; lia).
  reflexivity.
Qed.

(** Demand 2, multiplier 1, divisor 3: 666 is published. *)
Lemma C5_power_is_truncated_float64_witness :
  let v := InstantaneousDemand.mk "InstantaneousDemand" "" "" ""
             "0x000002" "0x00000001" "0x00000003" "" "" "" in
  InstantaneousDemand.valid v = true
  /\ demandCase intOutside_amd64 v = ([mkMessage powerTopic "666"], Next)
  /\ exists n d,
      fraction (fmul (fdiv (fmul (float64_of_int (int32 2)) (float64_of_int 1))
                           (float64_of_int 3))
                     (float64_of_int 1000)) = Some (n, d)
      /\ 0 < d /\ Z.quot n d = 666.
Proof.
  cbv zeta. split; [reflexivity |].
  destruct (C5_power_is_truncated_float64 intOutside_amd64
              (InstantaneousDemand.mk "InstantaneousDemand" "" "" ""
                 "0x000002" "0x00000001" "0x00000003" "" "" "") 2 1 3)
    as [_ [_ [P [n [d [F [D Q]]]]]]]; try (vm_compute; reflexivity); [discriminate |].
  split; [rewrite P; vm_compute; reflexivity |].
  exists n, d. split; [exact F |]. split; [exact D |].
  vm_compute in F. injection F as <- <-. vm_compute. reflexivity.
Defined.

(** ** C6 *)

(** C6: an instantaneous-demand record whose Demand reads FFFFFFFF in
    hexadecimal, with multiplier 1 and divisor 1, is published as the
    text [-1000]: the low 32 bits, taken as a signed integer, are -1. *)
Theorem C6_demand_FFFFFFFF_is_minus_1000
        (intOutside : float64 -> Z) (v : InstantaneousDemand.t) :
  InstantaneousDemand.valid v = true ->
  strconv.ParseInt (InstantaneousDemand.Demand v) 0 64 = (hexValue "FFFFFFFF", None) ->
  strconv.ParseInt (InstantaneousDemand.Multiplier v) 0 64 = (1, None) ->
  strconv.ParseInt (InstantaneousDemand.Divisor v) 0 64 = (1, None) ->
  int32 (hexValue "FFFFFFFF") = -1
  /\ demandCase intOutside v = ([mkMessage powerTopic "-1000"], Next).
Proof.
  intros V Pi Pm Pd. split; [reflexivity |].
  unfold demandCase. rewrite V, Pi, Pm, Pd. reflexivity.
Qed.

(** The record as the meter writes it, and the frame that carries it. *)
Lemma C6_demand_FFFFFFFF_is_minus_1000_witness :
  let v := InstantaneousDemand.mk "InstantaneousDemand" "" "" ""
             "0xFFFFFFFF" "0x00000001" "0x00000001" "" "" "" in
  let frame := "<InstantaneousDemand>" ++ CRLF
               ++ "  <Demand>0xFFFFFFFF</Demand>" ++ CRLF
               ++ "  <Multiplier>0x00000001</Multiplier>" ++ CRLF
               ++ "  <Divisor>0x00000001</Divisor>" ++ CRLF
               ++ closeInstantaneousDemand in
  (int32 (hexValue "FFFFFFFF") = -1
   /\ demandCase intOutside_amd64 v = ([mkMessage powerTopic "-1000"], Next))
  /\ scanSerial_flat [frame] = ([mkMessage powerTopic "-1000"], Returned).
Proof.
  cbv zeta. split.
  - apply (C6_demand_FFFFFFFF_is_minus_1000 intOutside_amd64); vm_compute; reflexivity.
  - vm_compute. reflexivity.
Defined.

(** * Further properties of the program *)

(** ** The buffer and the token limit *)

(** A read returns no more than there is room for. *)
Lemma readMore_len (rd : bufio.Reader) (space loop : Z) :
  0 <= space ->
  let '(data, _, _) := bufio.readMore rd space loop in len data <= space.
Proof.
  intros S. revert loop. induction rd as [|c rd IH]; intros loop; cbn [bufio.readMore].
  - exact S.
  - destruct (len c <=? space) eqn:Q.
    + destruct (0 <? len c); [now apply Z.leb_le in Q |].
      destruct (bufio.maxConsecutiveEmptyReads <? loop + 1); [exact S | apply IH].
    + destruct (0 <? space); [| exact S].
      apply Z.leb_gt in Q. unfold slice_to, len in *. rewrite length_take; lia.
Qed.

Lemma setErr_bounded (s : bufio.Scanner) (e : bufio.error) :
  bounded s -> bounded (bufio.setErr s e).
Proof. unfold bufio.setErr. now destruct (bufio.err s) as [[]|]. Qed.

Lemma shift_bounded (s : bufio.Scanner) : bounded s -> bounded (bufio.shift s).
Proof.
  intros B. unfold bufio.shift. destruct (_ && _); [| exact B].
  unfold bounded, bufio.end_ in *.
  cbn [bufio.start bufio.buffered bufio.buf_len bufio.maxTokenSize]. lia.
Qed.

(** After [grow] there is room to read into. *)
Lemma grow_bounded (s s' : bufio.Scanner) :
  bounded s -> bufio.grow s = Some s' ->
  bounded s' /\ bufio.end_ s' < bufio.buf_len s'.
Proof.
  intros [B1 [B2 [B3 B4]]]. unfold bufio.grow.
  destruct (bufio.end_ s =? bufio.buf_len s) eqn:Q.
  - destruct (_ || _) eqn:W; [discriminate |]. intros H. injection H as <-.
    apply orb_false_iff in W. destruct W as [W _]. apply Z.leb_gt in W.
    pose proof (len_nonneg (bufio.buffered s)).
    unfold bounded, bufio.end_ in *.
    cbn [bufio.start bufio.buffered bufio.buf_len bufio.maxTokenSize].
    rewrite B4 in *. unfold bufio.startBufSize.
    destruct (bufio.buf_len s * 2 =? 0) eqn:Z0;
      [apply Z.eqb_eq in Z0 | apply Z.eqb_neq in Z0]; lia.
  - intros H. injection H as <-. apply Z.eqb_neq in Q.
    split; [now repeat split | lia].
Qed.

Lemma fill_bounded (s : bufio.Scanner) : bounded s -> bounded (bufio.fill s).
Proof.
  intros [B1 [B2 [B3 B4]]]. unfold bufio.fill.
  pose proof (readMore_len (bufio.r s) (bufio.buf_len s - bufio.end_ s) 0 ltac:(lia)) as L.
  destruct (bufio.readMore (bufio.r s) (bufio.buf_len s - bufio.end_ s) 0) as [[data e] rd].
  assert (bounded (bufio.mkScanner rd (bufio.maxTokenSize s) (bufio.buf_len s) (bufio.start s)
                                   (bufio.buffered s ++ data) (bufio.err s)
                                   (if 0 <? len data then 0 else bufio.empties s)
                                   (bufio.done s))).
  { unfold bounded, bufio.end_ in *.
    cbn [bufio.start bufio.buffered bufio.buf_len bufio.maxTokenSize].
    rewrite len_append. lia. }
  destruct e as [e|]; [now apply setErr_bounded | assumption].
Qed.

(** A call of [Scan] keeps the buffer in order, and its token fits in it. *)
Lemma Scan_loop_bounded (fuel : nat) (s : bufio.Scanner) :
  bounded s ->
  match bufio.Scan_loop split fuel s with
  | (bufio.Token t, s') => len t <= bufio.MaxScanTokenSize /\ bounded s'
  | _ => True
  end.
Proof.
  revert s. induction fuel as [|fuel IH]; intros s B; [exact I |].
  cbn [bufio.Scan_loop]. rewrite tryToken_split.
  assert (K : match (if bufio.is_set (bufio.err s)
                     then (bufio.NoToken,
                           bufio.mkScanner (bufio.r s) (bufio.maxTokenSize s) (bufio.buf_len s)
                                           0 "" (bufio.err s) (bufio.empties s) (bufio.done s))
                     else match bufio.grow (bufio.shift s) with
                          | None => (bufio.NoToken, bufio.setErr (bufio.shift s) bufio.ErrTooLong)
                          | Some s2 => bufio.Scan_loop split fuel (bufio.fill s2)
                          end) with
              | (bufio.Token t, s') => len t <= bufio.MaxScanTokenSize /\ bounded s'
              | _ => True
              end).
  { destruct (bufio.is_set (bufio.err s)); [exact I |].
    destruct (bufio.grow (bufio.shift s)) as [s2|] eqn:G; [| exact I].
    apply IH, fill_bounded. now apply (grow_bounded (bufio.shift s)); [apply shift_bounded |]. }
  destruct ((0 <? len (bufio.buffered s)) || bufio.is_set (bufio.err s)); [| exact K].
  destruct (split (bufio.buffered s) (bufio.is_set (bufio.err s))) as [[adv [t|]] e] eqn:E;
    [| exact K].
  destruct (split_token _ _ _ _ _ E) as [_ [_ [m [pre [post [M [T D]]]]]]].
  destruct B as [B1 [B2 [B3 B4]]].
  assert (L : len (bufio.buffered s) = len t + len post) by (now rewrite D at 1; rewrite len_append).
  pose proof (len_nonneg post). pose proof (len_nonneg t).
  unfold bounded, bufio.end_ in *.
  cbn [bufio.start bufio.buffered bufio.buf_len bufio.maxTokenSize].
  rewrite D at 1. rewrite drop_append. lia.
Qed.

Lemma Scan_bounded (s : bufio.Scanner) :
  bounded s ->
  match bufio.Scan split s with
  | (bufio.Token t, s') => len t <= bufio.MaxScanTokenSize /\ bounded s'
  | _ => True
  end.
Proof.
  intros B. unfold bufio.Scan. destruct (bufio.done s); [exact I |].
  now apply Scan_loop_bounded.
Qed.

Lemma Scan_all_bounded (fuel : nat) (s : bufio.Scanner) :
  bounded s ->
  Forall (fun t => len t <= bufio.MaxScanTokenSize) (fst (bufio.Scan_all split fuel s)).
Proof.
  revert s. induction fuel as [|fuel IH]; intros s B; [constructor |].
  cbn [bufio.Scan_all]. pose proof (Scan_bounded s B) as R.
  destruct (bufio.Scan split s) as [[t| | |] s']; try constructor.
  destruct R as [L B']. specialize (IH s' B').
  destruct (bufio.Scan_all split fuel s') as [ts e]. now constructor.
Qed.

Lemma newScanner_bounded (rd : bufio.Reader) : bounded (newScanner rd).
Proof.
  unfold bounded. repeat split; try reflexivity; vm_compute; discriminate.
Qed.

(** X1: no frame is longer than the token limit of line 160, 64 KiB,
    whatever the stream and however it is read. *)
Theorem X1_frames_within_token_limit (rd : bufio.Reader) :
  Forall (fun t => len t <= 65536) (fst (frames rd)).
Proof. apply Scan_all_bounded, newScanner_bounded. Qed.

(** A frame in the front of a stream puts a marker there. *)
Lemma closed_in_front (t x big rest : string) :
  closed t -> t ++ x = big ++ rest -> len t <= len big -> ~ markerless big.
Proof.
  intros [m [pre [M ->]]] E L A.
  destruct (append_eq_split _ _ _ _ E) as [y [-> _]]; [unfold len in L; lia |].
  apply (A m M (String.length pre)). exists pre, y. split; [| reflexivity].
  now rewrite append_assoc.
Qed.

Lemma length_filler (n : nat) (c : ascii) : String.length (filler n c) = n.
Proof. induction n as [|n IH]; simpl; [reflexivity | now rewrite IH]. Qed.

Lemma filler_byte (n : nat) (c a : ascii) (pre post : string) :
  filler n c = pre ++ String a post -> a = c.
Proof.
  revert pre. induction n as [|n IH]; intros pre E; simpl in E.
  - destruct pre; discriminate.
  - destruct pre as [|b pre]; simpl in E; injection E as E1 E2; [now subst | now apply (IH pre)].
Qed.

(** A run of bytes other than [<] holds no marker. *)
Lemma filler_markerless (n : nat) (c : ascii) : c <> "<"%char -> markerless (filler n c).
Proof.
  intros N m M j [pre [post [E _]]]. apply N. symmetry.
  destruct M as [<- | [<- | [<- | []]]]; apply (filler_byte n c _ pre _ E).
Qed.

(** X2: when the first 64 KiB of the stream hold no closing marker, the
    scanner gives up (its buffer may not grow beyond the limit of line
    160): no frame is yielded, nothing is published and [scanSerial]
    returns, without any error, whatever follows in the stream and
    however it is read. *)
Theorem X2_no_marker_in_first_64KiB_ends_scan_silently
        (unmarshalDemand : string -> InstantaneousDemand.t -> InstantaneousDemand.t)
        (unmarshalSummation
         : string -> CurrentSummationDelivered.t -> CurrentSummationDelivered.t)
        (intOutside : float64 -> Z) (rd : bufio.Reader) (big rest : string) :
  joined rd = big ++ rest -> 65536 <= len big -> markerless big ->
  frames rd = ([], bufio.Stopped)
  /\ scanSerial unmarshalDemand unmarshalSummation intOutside rd = ([], Returned).
Proof.
  intros J L A.
  assert (F : frames rd = ([], bufio.Stopped)).
  { pose proof (frames_result rd) as R.
    pose proof (Scan_all_bounded (S (bufio.reader_size rd)) (newScanner rd)
                                 (newScanner_bounded rd)) as B.
    fold (frames rd) in B. destruct (frames rd) as [toks e]. cbn [fst] in B.
    destruct R as [C [[rest' E] ->]]. destruct toks as [|t toks]; [reflexivity |].
    exfalso. inversion C as [|? ? Ct _]; subst. inversion B as [|? ? Bt _]; subst.
    rewrite J in E. cbn [joined fold_right] in E. rewrite append_assoc in E.
    rewrite MaxScanTokenSize_value in Bt.
    apply (closed_in_front t _ big rest Ct (eq_sym E)); [lia | exact A]. }
  split; [exact F |]. now rewrite scanSerial_frames, F.
Qed.

(** 64 KiB of padding before a time-cluster record. *)
Lemma X2_no_marker_in_first_64KiB_ends_scan_silently_witness :
  let rd := [filler (Z.to_nat 65536) "a"; "<TimeCluster>" ++ CRLF ++ closeTimeCluster] in
  frames rd = ([], bufio.Stopped) /\ scanSerial_flat rd = ([], Returned).
Proof.
  cbv zeta.
  apply (X2_no_marker_in_first_64KiB_ends_scan_silently
           xml.UnmarshalInstantaneousDemand xml.UnmarshalCurrentSummationDelivered
           intOutside_amd64 _ (filler (Z.to_nat 65536) "a")
           (("<TimeCluster>" ++ CRLF ++ closeTimeCluster) ++ "")).
  - reflexivity.
  - unfold len. rewrite length_filler, Z2Nat.id; lia.
  - apply filler_markerless. discriminate.
Defined.

(** ** What the scanner leaves unread *)

Lemma markerless_empty : markerless "".
Proof.
  intros m M j [pre [post [E _]]]. pose proof (marker_length m M) as L.
  apply (f_equal String.length) in E. rewrite !length_append in E. simpl in E. lia.
Qed.

Lemma split_none_markerless (data : string) (atEOF : bool) (advance : Z)
      (e : option bufio.error) :
  split data atEOF = (advance, None, e) -> markerless data.
Proof.
  intros H.
  destruct (split_cases data atEOF)
    as [[i [F E]] | [[_ [i [F E]]] | [[_ [_ [i [F E]]]] | [A1 [A2 [A3 _]]]]]];
    try (rewrite E in H; discriminate).
  intros m [<- | [<- | [<- | []]]]; assumption.
Qed.

(** [ErrTooLong]: the buffer is full, at the limit. *)
Lemma grow_shift_None (s : bufio.Scanner) :
  bounded s -> bufio.grow (bufio.shift s) = None ->
  len (bufio.buffered s) = bufio.MaxScanTokenSize.
Proof.
  intros B G. pose proof (shift_bounded s B) as [B1 [B2 [B3 B4]]].
  destruct B as [C1 [C2 [C3 C4]]].
  unfold bufio.grow in G.
  destruct (bufio.end_ (bufio.shift s) =? bufio.buf_len (bufio.shift s)) eqn:Q;
    [| discriminate].
  destruct (_ || _) eqn:W; [clear G | discriminate].
  apply Z.eqb_eq in Q. rewrite B4, maxInt_half in W.
  assert (M : bufio.buf_len (bufio.shift s) = bufio.MaxScanTokenSize).
  { apply orb_true_iff in W. destruct W as [W | W];
      [apply Z.leb_le in W | apply Z.ltb_lt in W; rewrite MaxScanTokenSize_value in B3]; lia. }
  revert Q M B1. unfold bufio.shift.
  destruct ((0 <? bufio.start s)
            && ((bufio.end_ s =? bufio.buf_len s)
                || (bufio.buf_len s / 2 <? bufio.start s))) eqn:Sh;
    unfold bufio.end_; cbn [bufio.start bufio.buffered bufio.buf_len]; intros Q M B1.
  - lia.
  - apply andb_false_iff in Sh. destruct Sh as [Sh | Sh].
    + apply Z.ltb_ge in Sh. lia.
    + apply orb_false_iff in Sh. destruct Sh as [Sh _]. apply Z.eqb_neq in Sh.
      unfold bufio.end_ in Sh. lia.
Qed.

(** A read with room in the buffer, from a stream of non-empty reads. *)
Lemma fill_reading (s : bufio.Scanner) :
  reading s -> bufio.err s = None -> bufio.end_ s < bufio.buf_len s ->
  reading (bufio.fill s).
Proof.
  intros [N [D _]] E S. unfold bufio.fill.
  destruct (bufio.r s) as [|c rd] eqn:R.
  - cbn [bufio.readMore]. unfold bufio.setErr. cbn [bufio.err]. rewrite E.
    unfold reading. cbn [bufio.r bufio.done bufio.err]. auto.
  - pose proof (readMore_nonempty c rd (bufio.buf_len s - bufio.end_ s) 0 N ltac:(lia)) as H.
    destruct (bufio.readMore (c :: rd) (bufio.buf_len s - bufio.end_ s) 0) as [[data e] rd'].
    destruct H as [-> [N' _]].
    unfold reading. cbn [bufio.r bufio.done bufio.err]. auto.
Qed.

(** When a call of [Scan] returns false, what is left of the stream is
    without a marker, or without one in its first 64 KiB. *)
Lemma Scan_loop_quiet (fuel : nat) (s : bufio.Scanner) :
  bounded s -> reading s -> (rounds_left s < fuel)%nat ->
  match bufio.Scan_loop split fuel s with
  | (bufio.Token _, s') => reading s'
  | (bufio.NoToken, _) => quiet (stream s)
  | _ => True
  end.
Proof.
  revert s. induction fuel as [|fuel IH]; intros s B R F; [lia |].
  cbn [bufio.Scan_loop]. rewrite tryToken_split.
  assert (K : markerless (bufio.buffered s) ->
              match (if bufio.is_set (bufio.err s)
                     then (bufio.NoToken,
                           bufio.mkScanner (bufio.r s) (bufio.maxTokenSize s) (bufio.buf_len s)
                                           0 "" (bufio.err s) (bufio.empties s) (bufio.done s))
                     else match bufio.grow (bufio.shift s) with
                          | None => (bufio.NoToken, bufio.setErr (bufio.shift s) bufio.ErrTooLong)
                          | Some s2 => bufio.Scan_loop split fuel (bufio.fill s2)
                          end) with
              | (bufio.Token _, s') => reading s'
              | (bufio.NoToken, _) => quiet (stream s)
              | _ => True
              end).
  { intros A. destruct R as [N [D E]].
    destruct (bufio.is_set (bufio.err s)) eqn:Es.
    { left. destruct E as [E | [_ E]]; [rewrite E in Es; discriminate |].
      unfold stream. rewrite E. simpl joined. now rewrite append_empty_r. }
    assert (En : bufio.err s = None) by (destruct (bufio.err s); [discriminate | reflexivity]).
    destruct (bufio.grow (bufio.shift s)) as [s2|] eqn:G.
    2:{ right. exists (bufio.buffered s), (joined (bufio.r s)).
        split; [reflexivity |]. split; [now apply grow_shift_None | exact A]. }
    destruct (shift_grow_fields _ _ G) as [R2 [E2 [B2 D2]]].
    destruct (grow_bounded _ _ (shift_bounded s B) G) as [Bd Room].
    assert (Rd : reading s2).
    { unfold reading. rewrite R2, E2, D2. auto. }
    assert (E3 : bufio.is_set (bufio.err s2) = false) by now rewrite E2, En.
    pose proof (fill_rounds_left s2 E3) as L.
    assert (St : stream (bufio.fill s2) = stream s).
    { now rewrite fill_stream, (grow_stream _ _ G), shift_stream. }
    rewrite <- St. apply IH.
    - now apply fill_bounded.
    - apply fill_reading; [exact Rd | now rewrite E2 | exact Room].
    - unfold rounds_left in *. rewrite E3 in L. rewrite R2 in L. rewrite Es in F. lia. }
  destruct ((0 <? len (bufio.buffered s)) || bufio.is_set (bufio.err s)) eqn:Q.
  2:{ apply K. apply orb_false_iff in Q. destruct Q as [Q _]. apply Z.ltb_ge in Q.
      rewrite (len_zero (bufio.buffered s)); [apply markerless_empty |].
      pose proof (len_nonneg (bufio.buffered s)). lia. }
  destruct (split (bufio.buffered s) (bufio.is_set (bufio.err s))) as [[adv [t|]] e] eqn:E.
  2:{ apply K. now apply (split_none_markerless _ _ _ _ E). }
  destruct R as [N [D Er]]. unfold reading. cbn [bufio.r bufio.done bufio.err]. auto.
Qed.

Lemma Scan_quiet (s : bufio.Scanner) :
  bounded s -> reading s ->
  match bufio.Scan split s with
  | (bufio.Token _, s') => reading s'
  | (bufio.NoToken, _) => quiet (stream s)
  | _ => True
  end.
Proof.
  intros B R. unfold bufio.Scan. destruct R as [N [D E]]. rewrite D.
  apply Scan_loop_quiet; [exact B | now repeat split |].
  unfold rounds_left. destruct (bufio.is_set _); lia.
Qed.

Lemma Scan_all_quiet (fuel : nat) (s : bufio.Scanner) :
  bounded s -> reading s -> (String.length (stream s) < fuel)%nat ->
  exists rest, stream s = joined (fst (bufio.Scan_all split fuel s)) ++ rest /\ quiet rest.
Proof.
  revert s. induction fuel as [|fuel IH]; intros s B R F; [lia |].
  cbn [bufio.Scan_all].
  pose proof (Scan_result s) as R1. pose proof (Scan_bounded s B) as R2.
  pose proof (Scan_quiet s B R) as R3.
  destruct (bufio.Scan split s) as [[t| | |] s']; try contradiction.
  - destruct R1 as [C St]. destruct R2 as [_ B']. pose proof (closed_length t C) as L.
    specialize (IH s' B' R3).
    destruct (bufio.Scan_all split fuel s') as [ts e]. cbn [fst] in *.
    destruct IH as [rest [E Q]].
    { apply (f_equal String.length) in St. rewrite length_append in St. lia. }
    exists rest. split; [| exact Q]. rewrite St, E. simpl. now rewrite append_assoc.
  - exists (stream s). split; [reflexivity | exact R3].
Qed.

(** X3: on a stream read in non-empty amounts no complete record is left
    behind: the bytes after the last frame hold no closing marker, unless
    the scanner gave up at the 64 KiB limit, and then the first 64 KiB of
    them hold none. *)
Theorem X3_no_marker_left_unframed (rd : bufio.Reader) :
  Forall nonempty rd ->
  exists rest, joined rd = joined (fst (frames rd)) ++ rest /\ quiet rest.
Proof.
  intros N.
  apply (Scan_all_quiet (S (bufio.reader_size rd)) (newScanner rd)).
  - apply newScanner_bounded.
  - unfold reading, newScanner, bufio.NewScanner. cbn [bufio.r bufio.done bufio.err]. auto.
  - unfold stream, newScanner, bufio.NewScanner. cbn [bufio.buffered bufio.r]. simpl append.
    pose proof (length_joined rd). lia.
Qed.

(** A time-cluster record in two reads, and the start of a next record. *)
Lemma X3_no_marker_left_unframed_witness :
  let rd := ["<TimeCluster>" ++ CRLF ++ "</Time"; "Cluster>" ++ CRLF ++ "<Instant"] in
  exists rest, joined rd = joined (fst (frames rd)) ++ rest /\ quiet rest.
Proof.
  cbv zeta. apply X3_no_marker_left_unframed. repeat constructor; discriminate.
Defined.

(** ** What the loop publishes and how it ends *)

Lemma Sprintf_f_nonempty (p : nat) (x : float64) : fmt.Sprintf_f p x <> "".
Proof.
  intros E. apply (f_equal String.length) in E. unfold fmt.Sprintf_f in E.
  destruct x as [s | [] | | s m e]; try discriminate;
    rewrite !length_append in E; cbn [String.length] in E; lia.
Qed.

Lemma readings_app (a b : list Message) : readings a -> readings b -> readings (a ++ b).
Proof.
  intros A B. induction A; simpl; [exact B | |]; now constructor.
Qed.

Lemma publishPower_readings (demand : string) : readings (publishPower demand).
Proof.
  unfold publishPower. destruct (String.eqb_spec demand ""); repeat constructor; assumption.
Qed.

Lemma publishEnergy_readings (delivered received : string) :
  delivered <> "" -> received <> "" -> readings (publishEnergy delivered received).
Proof.
  intros D R. unfold publishEnergy.
  destruct (String.eqb_spec delivered ""); [contradiction |].
  destruct (String.eqb_spec received ""); [contradiction |].
  simpl. constructor; [exact D | exact R | constructor].
Qed.

(** A record that parses gives its message, any other none; the only way
    out of the loop is the parse failure. *)
Lemma demandCase_shape (intOutside : float64 -> Z) (v : InstantaneousDemand.t) :
  readings (fst (demandCase intOutside v))
  /\ (snd (demandCase intOutside v) = Next
      \/ demandCase intOutside v = ([], Fatal parseFatal)).
Proof.
  unfold demandCase. destruct (negb _); [split; [constructor | now left] |].
  repeat match goal with
         | |- context [strconv.ParseInt ?s 0 64] =>
             destruct (strconv.ParseInt s 0 64) as [? [?|]];
             [split; [constructor | now right] |]
         end.
  cbn [fst snd]. split; [apply publishPower_readings | now left].
Qed.

Lemma summationCase_shape (v : CurrentSummationDelivered.t) :
  readings (fst (summationCase v))
  /\ (snd (summationCase v) = Next \/ summationCase v = ([], Fatal parseFatal)).
Proof.
  unfold summationCase. destruct (negb _); [split; [constructor | now left] |].
  repeat match goal with
         | |- context [strconv.ParseInt ?s 0 64] =>
             destruct (strconv.ParseInt s 0 64) as [? [?|]];
             [split; [constructor | now right] |]
         end.
  cbn [fst snd]. split; [| now left].
  apply publishEnergy_readings; apply Sprintf_f_nonempty.
Qed.

Lemma iteration_shape
      (unmarshalDemand : string -> InstantaneousDemand.t -> InstantaneousDemand.t)
      (unmarshalSummation
       : string -> CurrentSummationDelivered.t -> CurrentSummationDelivered.t)
      (intOutside : float64 -> Z) (l : Locals) (text : string) :
  closed text ->
  let '(_, out, ctl) := iteration unmarshalDemand unmarshalSummation intOutside l text in
  readings out
  /\ (ctl = Next
      \/ (out = [] /\ (ctl = Fatal parseFatal \/ ctl = Fatal "Unexpected case"))).
Proof.
  intros C. destruct (closed_get_1 text C) as [c G]. unfold iteration. rewrite G.
  destruct (Ascii.eqb c "I").
  { pose proof (demandCase_shape intOutside
                  (unmarshalDemand text (instantaneousDemand l))) as [R K].
    destruct (demandCase intOutside _) as [out ctl]. cbn [fst snd] in *.
    split; [exact R |]. destruct K as [K | K]; [now left | right].
    injection K as -> ->. auto. }
  destruct (Ascii.eqb c "C").
  { pose proof (summationCase_shape
                  (unmarshalSummation text (currentSummationDelivered l))) as [R K].
    destruct (summationCase _) as [out ctl]. cbn [fst snd] in *.
    split; [exact R |]. destruct K as [K | K]; [now left | right].
    injection K as -> ->. auto. }
  destruct (Ascii.eqb c "T"); (split; [constructor | auto]).
Qed.

Lemma loop_shape
      (unmarshalDemand : string -> InstantaneousDemand.t -> InstantaneousDemand.t)
      (unmarshalSummation
       : string -> CurrentSummationDelivered.t -> CurrentSummationDelivered.t)
      (intOutside : float64 -> Z) (toks : list string) (l : Locals) :
  Forall closed toks ->
  let '(out, o) :=
    loop unmarshalDemand unmarshalSummation intOutside l toks bufio.Stopped in
  readings out
  /\ (o = Returned \/ o = Exited parseFatal \/ o = Exited "Unexpected case").
Proof.
  intros C. revert l. induction C as [|t toks Ct Cs IH]; intros l; cbn [loop].
  - split; [constructor | now left].
  - pose proof (iteration_shape unmarshalDemand unmarshalSummation intOutside l t Ct) as S.
    destruct (iteration unmarshalDemand unmarshalSummation intOutside l t) as [[l' out] ctl].
    destruct S as [R [-> | [-> [-> | ->]]]].
    + specialize (IH l').
      destruct (loop unmarshalDemand unmarshalSummation intOutside l' toks bufio.Stopped)
        as [rest o].
      destruct IH as [R' O]. split; [now apply readings_app | exact O].
    + split; [constructor | auto].
    + split; [constructor | auto].
Qed.

Lemma scanSerial_shape
      (unmarshalDemand : string -> InstantaneousDemand.t -> InstantaneousDemand.t)
      (unmarshalSummation
       : string -> CurrentSummationDelivered.t -> CurrentSummationDelivered.t)
      (intOutside : float64 -> Z) (rd : bufio.Reader) :
  let '(out, o) := scanSerial unmarshalDemand unmarshalSummation intOutside rd in
  readings out
  /\ (o = Returned \/ o = Exited parseFatal \/ o = Exited "Unexpected case").
Proof.
  rewrite scanSerial_frames. pose proof (frames_result rd) as H.
  destruct (frames rd) as [toks e]. destruct H as [C [_ ->]]. cbn [fst snd].
  now apply loop_shape.
Qed.

(** X4: on every stream that comes to an end [scanSerial] ends in one of
    three ways: it returns when [Scan] returns false, or it exits through
    the [log.Fatal] of a parse failure or of an unknown record kind.  The
    index [scanner.Text()[1]] is never out of range (a frame holds at least
    its marker) and the scanner never panics. *)
Theorem X4_scanSerial_returns_or_exits
        (unmarshalDemand : string -> InstantaneousDemand.t -> InstantaneousDemand.t)
        (unmarshalSummation
         : string -> CurrentSummationDelivered.t -> CurrentSummationDelivered.t)
        (intOutside : float64 -> Z) (rd : bufio.Reader) :
  snd (scanSerial unmarshalDemand unmarshalSummation intOutside rd) = Returned
  \/ snd (scanSerial unmarshalDemand unmarshalSummation intOutside rd)
     = Exited "ERROR parsing XML:"
  \/ snd (scanSerial unmarshalDemand unmarshalSummation intOutside rd)
     = Exited "Unexpected case".
Proof.
  pose proof (scanSerial_shape unmarshalDemand unmarshalSummation intOutside rd) as H.
  destruct (scanSerial unmarshalDemand unmarshalSummation intOutside rd) as [out o].
  exact (proj2 H).
Qed.


(** X6: a time-cluster frame (byte [T] at offset 1) is passed over: the
    messages published and the way the loop ends are the same as without
    that frame, wherever it stands among the frames, and so is what the
    frames after it are decoded into. *)
Theorem X6_time_cluster_frame_is_passed_over
        (unmarshalDemand : string -> InstantaneousDemand.t -> InstantaneousDemand.t)
        (unmarshalSummation
         : string -> CurrentSummationDelivered.t -> CurrentSummationDelivered.t)
        (intOutside : float64 -> Z) (t : string) (pre post : list string)
        (l : Locals) (e : bufio.Ending) :
  String.get 1 t = Some "T"%char ->
  loop unmarshalDemand unmarshalSummation intOutside l (pre ++ t :: post)%list e
  = loop unmarshalDemand unmarshalSummation intOutside l (pre ++ post)%list e.
Proof.
  intros G. revert l. induction pre as [|p pre IH]; intros l.
  - cbn [app loop]. unfold iteration at 1. rewrite G. cbn [Ascii.eqb Bool.eqb].
    destruct (loop unmarshalDemand unmarshalSummation intOutside l post e). reflexivity.
  - cbn [app loop].
    destruct (iteration unmarshalDemand unmarshalSummation intOutside l p)
      as [[l' out] [|msg|]]; try reflexivity.
    now rewrite IH.
Qed.

(** A time-cluster frame between two demand frames. *)
Lemma X6_time_cluster_frame_is_passed_over_witness :
  let demand :=
    "<InstantaneousDemand>" ++ CRLF ++ "  <Demand>0x000005</Demand>" ++ CRLF
    ++ "  <Multiplier>0x00000002</Multiplier>" ++ CRLF
    ++ "  <Divisor>0x00000001</Divisor>" ++ CRLF ++ closeInstantaneousDemand in
  let time :=
    "<TimeCluster>" ++ CRLF ++ "  <UTCTime>0x2bd0c8a7</UTCTime>" ++ CRLF ++ closeTimeCluster in
  loop xml.UnmarshalInstantaneousDemand xml.UnmarshalCurrentSummationDelivered
       intOutside_amd64 zeroLocals ([demand] ++ time :: [demand])%list bufio.Stopped
  = loop xml.UnmarshalInstantaneousDemand xml.UnmarshalCurrentSummationDelivered
         intOutside_amd64 zeroLocals ([demand] ++ [demand])%list bufio.Stopped.
Proof.
  cbv zeta. apply X6_time_cluster_frame_is_passed_over. reflexivity.
Defined.

(** ** Validated fields and [ParseInt] *)

(** The digit loop never leaves [uint64]. *)
Lemma digits_nonneg (s : string) (base0 : bool) (base cutoff maxVal n : Z) (u : bool) :
  0 <= n -> 0 <= maxVal ->
  0 <= fst (fst (strconv.digits s base0 base cutoff maxVal n u)).
Proof.
  intros N M. revert n u N. induction s as [|ch s IH]; intros n u N; cbn [strconv.digits].
  - exact N.
  - destruct ((strconv.byte ch =? 95) && base0); [now apply IH |].
    destruct (strconv.digitOf (strconv.byte ch)) as [d|]; [| simpl; lia].
    destruct (base <=? d); [simpl; lia |].
    destruct (cutoff <=? n); [exact M |].
    destruct (_ || _); [exact M |].
    apply IH. apply Z.mod_pos_bound. reflexivity.
Qed.

Lemma ParseUint_nonneg (s : string) (base bitSize : Z) :
  0 <= fst (strconv.ParseUint s base bitSize).
Proof.
  unfold strconv.ParseUint. destruct (s =? "")%string; [simpl; lia |].
  destruct (strconv.pickBase s base) as [[base' s']|]; [| simpl; lia].
  destruct (_ || _); [simpl; lia |].
  set (maxVal := ((2 ^ _) mod 2 ^ 64 - 1) mod 2 ^ 64).
  assert (M : 0 <= maxVal) by (apply Z.mod_pos_bound; reflexivity).
  pose proof (digits_nonneg s' (base =? 0) base' (strconv.maxUint64 / base' + 1) maxVal 0 false
                            ltac:(lia) M) as D.
  destruct (strconv.digits s' (base =? 0) base' (strconv.maxUint64 / base' + 1) maxVal 0 false)
    as [[n e] u].
  cbn [fst] in D. destruct e; [exact D |].
  destruct (u && _); [simpl; lia | exact D].
Qed.

(** A field that passes the rule starts with a hexadecimal digit, so with
    no sign. *)
Lemma required_hexadecimal_first (c : ascii) (t : string) :
  validator.required_hexadecimal (String c t) = true -> validator.isHexDigit c = true.
Proof.
  unfold validator.required_hexadecimal, validator.hasValue. cbn [String.eqb negb andb].
  destruct c as [[] [] [] [] [] [] [] []]; try (intros _; reflexivity);
    intros H; exfalso; destruct t as [|x t]; simpl in H; discriminate.
Qed.

Lemma isHexDigit_no_sign (c : ascii) :
  validator.isHexDigit c = true ->
  (strconv.byte c =? 43) = false /\ (strconv.byte c =? 45) = false.
Proof.
  destruct c as [[] [] [] [] [] [] [] []]; vm_compute; intros H; try discriminate H;
    split; reflexivity.
Qed.

(** What [ParseInt] makes of a field that passed the rule. *)
Lemma validated_ParseInt (s : string) (n : Z) :
  validator.required_hexadecimal s = true ->
  strconv.ParseInt s 0 64 = (n, None) ->
  0 <= n < 2 ^ 63.
Proof.
  intros V. destruct s as [|c t]; [discriminate V |].
  apply required_hexadecimal_first, isHexDigit_no_sign in V. destruct V as [V1 V2].
  unfold strconv.ParseInt. cbn [String.eqb].
  change (strconv.at_ (String c t) 0) with (strconv.byte c). rewrite V1, V2.
  pose proof (ParseUint_nonneg (String c t) 0 64) as U.
  destruct (strconv.ParseUint (String c t) 0 64) as [un e]. cbn [fst] in U.
  change (if 64 =? 0 then strconv.IntSize else 64) with 64. change (64 - 1) with 63.
  cbn [negb andb].
  destruct e as [[]|]; try discriminate;
    (destruct (2 ^ 63 <=? un) eqn:Q; [discriminate |]);
    apply Z.leb_gt in Q; intros H; injection H as <-;
    rewrite int64_small; lia.
Qed.

(** X7: a field that passes the [required,hexadecimal] rule never parses
    to a negative number: if [ParseInt] accepts it, the value lies between
    0 and the largest [int64].  Multiplier and Divisor are thus never
    negative, and the sign of a reading comes from the conversion to
    [int32] alone. *)
Theorem X7_validated_field_is_not_negative (s : string) (n : Z) :
  validator.required_hexadecimal s = true ->
  strconv.ParseInt s 0 64 = (n, None) ->
  0 <= n < 2 ^ 63.
Proof. exact (validated_ParseInt s n). Qed.

Lemma X7_validated_field_is_not_negative_witness :
  validator.required_hexadecimal "0x00000010" = true
  /\ strconv.ParseInt "0x00000010" 0 64 = (16, None)
  /\ 0 <= 16 < 2 ^ 63.
Proof.
  assert (V : validator.required_hexadecimal "0x00000010" = true) by reflexivity.
  assert (P : strconv.ParseInt "0x00000010" 0 64 = (16, None)) by (vm_compute; reflexivity).
  split; [exact V |]. split; [exact P |].
  exact (X7_validated_field_is_not_negative "0x00000010" 16 V P).
Defined.

(** Decimal digits are hexadecimal digits. *)
Lemma isDigit_hex (c : ascii) :
  isDigit c = true ->
  validator.isHexDigit c = true
  /\ strconv.digitOf (strconv.byte c) = Some (strconv.byte c - 48)
  /\ 0 <= strconv.byte c - 48 < 10
  /\ (strconv.byte c =? 95) = false.
Proof.
  destruct c as [[] [] [] [] [] [] [] []]; vm_compute; intros H; try discriminate H;
    repeat split; discriminate.
Qed.

Lemma all_digits_all_hex (t : string) : all_digits t = true -> all_hex t = true.
Proof.
  induction t as [|c t IH]; simpl; [reflexivity |]. intros H.
  apply andb_true_iff in H. destruct H as [H A].
  destruct (isDigit_hex c H) as [-> _]. now apply IH.
Qed.

Lemma hexDigits_isHexadecimal (s : string) :
  validator.hexDigits s = true -> validator.isHexadecimal s = true.
Proof.
  intros H. unfold validator.isHexadecimal.
  destruct s as [|c [|x rest]]; try exact H;
    destruct c as [[] [] [] [] [] [] [] []]; try exact H.
  rewrite H. apply orb_true_r.
Qed.

Lemma decValue_from_ge (t : string) (n : Z) :
  all_digits t = true -> 0 <= n -> n <= decValue_from n t.
Proof.
  revert n. induction t as [|c t IH]; intros n A N; cbn [decValue_from]; [lia |].
  simpl in A. apply andb_true_iff in A. destruct A as [H A].
  destruct (isDigit_hex c H) as [_ [_ [B _]]].
  specialize (IH (10 * n + (strconv.byte c - 48)) A). lia.
Qed.

(** The digit loop on decimal digits, without overflow. *)
Lemma digits_dec (t : string) (n : Z) (u : bool) :
  all_digits t = true -> 0 <= n -> decValue_from n t < 2 ^ 64 ->
  strconv.digits t true 10 1844674407370955162 18446744073709551615 n u
  = (decValue_from n t, None, u).
Proof.
  revert n. induction t as [|c t IH]; intros n A N B; [reflexivity |].
  simpl in A. apply andb_true_iff in A. destruct A as [H A].
  destruct (isDigit_hex c H) as [_ [D [[D0 D10] U]]].
  cbn [strconv.digits decValue_from]. rewrite U, D. cbn [andb].
  pose proof (decValue_from_ge t (10 * n + (strconv.byte c - 48)) A ltac:(lia)) as G.
  cbn [decValue_from] in B.
  assert (P : 2 ^ 64 = 18446744073709551616) by reflexivity. rewrite P in *.
  replace (10 <=? strconv.byte c - 48) with false by (symmetry; apply Z.leb_gt; lia).
  replace (1844674407370955162 <=? n) with false by (symmetry; apply Z.leb_gt; lia).
  rewrite (Z.mod_small (n * 10)) by lia.
  rewrite (Z.mod_small (n * 10 + (strconv.byte c - 48))) by lia.
  replace (n * 10 + (strconv.byte c - 48) <? n * 10) with false
    by (symmetry; apply Z.ltb_ge; lia).
  replace (18446744073709551615 <? n * 10 + (strconv.byte c - 48)) with false
    by (symmetry; apply Z.ltb_ge; lia).
  cbn [orb]. replace (n * 10) with (10 * n) by lia. apply IH; [exact A | lia | exact B].
Qed.

(** X8: a field written without the [0x] prefix, in decimal digits the
    first of which is not [0], passes the hexadecimal rule and is then read
    by [ParseInt] in base 10, not 16: [1000] is taken for one thousand. *)
Theorem X8_unprefixed_digits_are_read_in_base_10 (c : ascii) (t : string) :
  isDigit c = true -> c <> "0"%char -> all_digits t = true ->
  decValue (String c t) < 2 ^ 63 ->
  validator.required_hexadecimal (String c t) = true
  /\ strconv.ParseInt (String c t) 0 64 = (decValue (String c t), None).
Proof.
  intros Dc Nz A B.
  assert (Ad : all_digits (String c t) = true) by (simpl; now rewrite Dc, A).
  destruct (isDigit_hex c Dc) as [Hc _].
  destruct (isHexDigit_no_sign c Hc) as [V1 V2].
  assert (Z48 : (strconv.byte c =? 48) = false).
  { apply Z.eqb_neq. intros E. apply Nz.
    revert E. destruct c as [[] [] [] [] [] [] [] []]; vm_compute; congruence. }
  split.
  - unfold validator.required_hexadecimal, validator.hasValue. cbn [String.eqb negb andb].
    apply hexDigits_isHexadecimal, hexDigits_all_hex.
    split; [discriminate | now apply all_digits_all_hex].
  - pose proof (decValue_from_ge (String c t) 0 Ad ltac:(lia)) as G. fold (decValue (String c t)) in G.
    assert (P : 2 ^ 64 = 2 * 2 ^ 63) by reflexivity.
    unfold strconv.ParseInt. cbn [String.eqb].
    change (strconv.at_ (String c t) 0) with (strconv.byte c). rewrite V1, V2.
    unfold strconv.ParseUint, strconv.pickBase. cbn [String.eqb].
    change (strconv.at_ (String c t) 0) with (strconv.byte c). rewrite Z48.
    change ((2 <=? 0) && (0 <=? 36)) with false. change (0 =? 0) with true. cbv iota.
    change ((64 <? 0) || (64 <? 64)) with false. cbv iota.
    change (if 64 =? 0 then strconv.IntSize else 64) with 64.
    change (strconv.maxUint64 / 10 + 1) with 1844674407370955162.
    change (((2 ^ 64) mod 2 ^ 64 - 1) mod 2 ^ 64) with 18446744073709551615.
    rewrite (digits_dec (String c t) 0 false Ad ltac:(lia)) by (unfold decValue in B; lia).
    cbn [andb]. change (64 - 1) with 63. fold (decValue (String c t)).
    replace (2 ^ 63 <=? decValue (String c t)) with false by (symmetry; apply Z.leb_gt; lia).
    cbn [negb andb]. rewrite int64_small; [reflexivity | lia].
Qed.

Lemma X8_unprefixed_digits_are_read_in_base_10_witness :
  validator.required_hexadecimal "1000" = true
  /\ strconv.ParseInt "1000" 0 64 = (1000, None).
Proof.
  apply (X8_unprefixed_digits_are_read_in_base_10 "1" "000");
    [reflexivity | discriminate | reflexivity | vm_compute; reflexivity].
Defined.

(** ** The sign of a reading *)

(** Rounding keeps the sign. *)
Lemma binary_round_aux_sign (s : bool) (m e : Z) (l : location) :
  is_number (binary_round_aux 53 1024 s m e l) ->
  sign_bit (binary_round_aux 53 1024 s m e l) = s.
Proof.
  unfold binary_round_aux.
  destruct (shr_fexp 53 1024 m e l) as [mrs' e'].
  destruct (shr_fexp 53 1024 _ e' loc_Exact) as [mrs'' e''].
  destruct (shr_m mrs'') as [|p|p]; [reflexivity | | contradiction].
  destruct (e'' <=? 1024 - 53); [reflexivity | contradiction].
Qed.

Lemma float64_of_int_sign (n : Z) :
  is_number (float64_of_int n) -> sign_bit (float64_of_int n) = (n <? 0).
Proof.
  unfold float64_of_int, binary_normalize, binary_round, prec, emax.
  destruct n as [|p|p]; [reflexivity | |];
    destruct (shl_align _ _ _) as [mz ez]; apply binary_round_aux_sign.
Qed.

Lemma fmul_sign (x y : float64) :
  is_number x -> is_number y -> is_number (fmul x y) ->
  sign_bit (fmul x y) = xorb (sign_bit x) (sign_bit y).
Proof.
  unfold fmul, SFmul, prec, emax.
  destruct x as [sx | sx | | sx mx ex]; destruct y as [sy | sy | | sy my ey];
    cbn [is_number]; try contradiction; intros _ _; try reflexivity.
  apply binary_round_aux_sign.
Qed.

Lemma fdiv_sign (x y : float64) :
  is_number x -> is_number y -> is_number (fdiv x y) ->
  sign_bit (fdiv x y) = xorb (sign_bit x) (sign_bit y).
Proof.
  unfold fdiv, SFdiv, prec, emax.
  destruct x as [sx | sx | | sx mx ex]; destruct y as [sy | sy | | sy my ey];
    cbn [is_number]; try contradiction; intros _ _; try reflexivity.
  destruct (SFdiv_core_binary 53 1024 (Z.pos mx) ex (Z.pos my) ey) as [[mz ez] lz].
  apply binary_round_aux_sign.
Qed.

(** With a multiplier that is not negative and a divisor above zero the
    quotient has the sign of the reading. *)
Lemma scale_sign (i mult div : Z) :
  0 <= mult < 2 ^ 63 -> 0 < div < 2 ^ 63 ->
  is_number (scale i mult div)
  /\ sign_bit (scale i mult div) = (int32 i <? 0)
  /\ is_number (fmul (scale i mult div) (float64_of_int 1000))
  /\ sign_bit (fmul (scale i mult div) (float64_of_int 1000)) = (int32 i <? 0).
Proof.
  intros Hm Hd. pose proof (int32_range i) as Hi.
  assert (P31 : 2 ^ 31 = 2147483648) by reflexivity.
  assert (P32 : 2 ^ 32 = 4294967296) by reflexivity.
  assert (P63 : 2 ^ 63 = 9223372036854775808) by reflexivity.
  assert (P64 : 2 ^ 64 = 18446744073709551616) by reflexivity.
  destruct (scale_within i mult div ltac:(lia) ltac:(lia) ltac:(lia)) as [Wq Wp].
  apply within_is_number in Wq. apply within_is_number in Wp.
  destruct (float64_of_int_within (int32 i) 32 ltac:(lia) ltac:(lia)) as [Wa _].
  destruct (float64_of_int_within mult 64 ltac:(lia) ltac:(lia)) as [Wb _].
  destruct (float64_of_int_within div 64 ltac:(lia) ltac:(lia)) as [Wc _].
  pose proof (fmul_within 33 65 _ _ Wa Wb ltac:(lia)) as Wab.
  apply within_is_number in Wa, Wb, Wc, Wab.
  assert (Sq : sign_bit (scale i mult div) = (int32 i <? 0)).
  { unfold scale in *. rewrite (fdiv_sign _ _ Wab Wc Wq), (fmul_sign _ _ Wa Wb Wab).
    rewrite !float64_of_int_sign by assumption.
    replace (mult <? 0) with false by (symmetry; apply Z.ltb_ge; lia).
    replace (div <? 0) with false by (symmetry; apply Z.ltb_ge; lia).
    now rewrite !xorb_false_r. }
  split; [exact Wq |]. split; [exact Sq |]. split; [exact Wp |].
  assert (W1000 : is_number (float64_of_int 1000)) by exact I.
  rewrite (fmul_sign _ _ Wq W1000 Wp), Sq. apply xorb_false_r.
Qed.

Lemma isDigit_not_minus (c : ascii) : isDigit c = true -> Ascii.eqb c "-" = false.
Proof.
  intros H. destruct (Ascii.eqb_spec c "-") as [-> | _]; [discriminate H | reflexivity].
Qed.

(** [%.3f] writes the minus sign for the sign bit, also on a zero. *)
Lemma Sprintf_f_minus_sign (p : nat) (x : float64) :
  is_number x -> minus_sign (fmt.Sprintf_f p x) = sign_bit x.
Proof.
  destruct x as [s | s | | s m e]; cbn [is_number]; try contradiction; intros _.
  - destruct s; reflexivity.
  - unfold fmt.Sprintf_f. cbn [sign_bit]. destruct s; [reflexivity |].
    cbn [append].
    pose proof (FormatInt_nonempty (fmt.scaled m e p / 10 ^ Z.of_nat p)) as N.
    assert (D : all_digits (strconv.FormatInt (fmt.scaled m e p / 10 ^ Z.of_nat p)) = true).
    { apply FormatInt_digits, Z.div_pos; [apply scaled_nonneg |].
      apply Z.pow_pos_nonneg; lia. }
    destruct (strconv.FormatInt (fmt.scaled m e p / 10 ^ Z.of_nat p)) as [|c t];
      [now elim N |].
    simpl in D. apply andb_true_iff in D. cbn [append minus_sign].
    now apply isDigit_not_minus.
Qed.

Lemma valid_summation (v : CurrentSummationDelivered.t) :
  CurrentSummationDelivered.valid v = true ->
  validator.required_hexadecimal (CurrentSummationDelivered.Multiplier v) = true
  /\ validator.required_hexadecimal (CurrentSummationDelivered.Divisor v) = true.
Proof.
  unfold CurrentSummationDelivered.valid. intros H.
  repeat (apply andb_true_iff in H; destruct H as [H ?]). now split.
Qed.

Lemma valid_demand (v : InstantaneousDemand.t) :
  InstantaneousDemand.valid v = true ->
  validator.required_hexadecimal (InstantaneousDemand.Multiplier v) = true
  /\ validator.required_hexadecimal (InstantaneousDemand.Divisor v) = true.
Proof.
  unfold InstantaneousDemand.valid. intros H.
  repeat (apply andb_true_iff in H; destruct H as [H ?]). now split.
Qed.

(** X9: for a validated summation record with a divisor other than zero,
    each of the two energy readings is published with a minus sign exactly
    when its summation value, cut to 32 bits, is negative as an [int32]
    (bit 31 set); a value of 2^31 or more thus comes out negative, and a
    negative value with multiplier 0 as [-0.000]. *)
Theorem X9_energy_minus_sign_is_int32_sign
        (v : CurrentSummationDelivered.t) (d r mult div : Z) :
  CurrentSummationDelivered.valid v = true ->
  strconv.ParseInt (CurrentSummationDelivered.SummationDelivered v) 0 64 = (d, None) ->
  strconv.ParseInt (CurrentSummationDelivered.SummationReceived v) 0 64 = (r, None) ->
  strconv.ParseInt (CurrentSummationDelivered.Multiplier v) 0 64 = (mult, None) ->
  strconv.ParseInt (CurrentSummationDelivered.Divisor v) 0 64 = (div, None) ->
  div <> 0 ->
  exists delivered received,
    summationCase v
    = ([mkMessage deliveredTopic delivered; mkMessage receivedTopic received], Next)
    /\ minus_sign delivered = (int32 d <? 0)
    /\ minus_sign received = (int32 r <? 0).
Proof.
  intros V Pd Pr Pm Pv Nz. destruct (valid_summation v V) as [Vm Vd].
  pose proof (validated_ParseInt _ _ Vm Pm) as Hm.
  pose proof (validated_ParseInt _ _ Vd Pv) as Hd.
  destruct (scale_sign d mult div Hm ltac:(lia)) as [Nd [Sd _]].
  destruct (scale_sign r mult div Hm ltac:(lia)) as [Nr [Sr _]].
  exists (energyText d mult div), (energyText r mult div). split; [| split].
  - unfold summationCase. rewrite V, Pd, Pr, Pm, Pv. cbn [negb]. f_equal.
    unfold publishEnergy, energyText.
    destruct (String.eqb_spec (fmt.Sprintf_f 3 (scale d mult div)) "") as [E | _];
      [now apply Sprintf_f_nonempty in E |].
    destruct (String.eqb_spec (fmt.Sprintf_f 3 (scale r mult div)) "") as [E | _];
      [now apply Sprintf_f_nonempty in E |].
    reflexivity.
  - unfold energyText. now rewrite Sprintf_f_minus_sign.
  - unfold energyText. now rewrite Sprintf_f_minus_sign.
Qed.

(** Delivered 0xFFFFFFFF (-1 as an [int32]) and received 1, over 1000. *)
Lemma X9_energy_minus_sign_is_int32_sign_witness :
  let v := CurrentSummationDelivered.mk "CurrentSummationDelivered" "" "" ""
             "0xFFFFFFFF" "0x00000001" "0x00000001" "0x000003e8" "" "" "" in
  CurrentSummationDelivered.valid v = true
  /\ exists delivered received,
      summationCase v
      = ([mkMessage deliveredTopic delivered; mkMessage receivedTopic received], Next)
      /\ minus_sign delivered = (int32 4294967295 <? 0)
      /\ minus_sign received = (int32 1 <? 0).
Proof.
  cbv zeta. split; [reflexivity |].
  apply (X9_energy_minus_sign_is_int32_sign
           (CurrentSummationDelivered.mk "CurrentSummationDelivered" "" "" ""
              "0xFFFFFFFF" "0x00000001" "0x00000001" "0x000003e8" "" "" "")
           4294967295 1 1 1000);
    try (vm_compute; reflexivity).
  discriminate.
Defined.

(** X10: for a validated instantaneous-demand record with a divisor other
    than zero, the integer part that is published never has the sign
    opposite to the demand's: it is zero or above when the demand, cut to
    32 bits and taken as an [int32], is, and zero or below when that is
    negative. *)
Theorem X10_power_has_the_sign_of_the_int32_demand
        (intOutside : float64 -> Z) (v : InstantaneousDemand.t) (i mult div : Z) :
  InstantaneousDemand.valid v = true ->
  strconv.ParseInt (InstantaneousDemand.Demand v) 0 64 = (i, None) ->
  strconv.ParseInt (InstantaneousDemand.Multiplier v) 0 64 = (mult, None) ->
  strconv.ParseInt (InstantaneousDemand.Divisor v) 0 64 = (div, None) ->
  div <> 0 ->
  exists z,
    truncate (fmul (fdiv (fmul (float64_of_int (int32 i)) (float64_of_int mult))
                         (float64_of_int div))
                   (float64_of_int 1000)) = Some z
    /\ (0 <= int32 i -> 0 <= z)
    /\ (int32 i < 0 -> z <= 0)
    /\ (- 2 ^ 63 <= z < 2 ^ 63 ->
        demandCase intOutside v = ([mkMessage powerTopic (strconv.FormatInt z)], Next)).
Proof.
  intros V Pi Pm Pv Nz. destruct (valid_demand v V) as [Vm Vd].
  pose proof (validated_ParseInt _ _ Vm Pm) as Hm.
  pose proof (validated_ParseInt _ _ Vd Pv) as Hd.
  destruct (scale_sign i mult div Hm ltac:(lia)) as [_ [_ [Np Sp]]].
  fold (scale i mult div).
  assert (D : forall z,
             truncate (fmul (scale i mult div) (float64_of_int 1000)) = Some z ->
             - 2 ^ 63 <= z < 2 ^ 63 ->
             demandCase intOutside v = ([mkMessage powerTopic (strconv.FormatInt z)], Next)).
  { intros z T R. unfold demandCase. rewrite V, Pi, Pm, Pv. cbn [negb].
    unfold powerText. rewrite publishPower_FormatInt. unfold int_of_float64. rewrite T.
    replace (- 2 ^ 63 <=? z) with true by (symmetry; apply Z.leb_le; lia).
    replace (z <? 2 ^ 63) with true by (symmetry; apply Z.ltb_lt; lia).
    reflexivity. }
  destruct (fmul (scale i mult div) (float64_of_int 1000)) as [s | s | | s m e];
    cbn [is_number] in Np; try contradiction; cbn [sign_bit] in Sp; cbn [truncate] in *.
  - exists 0. repeat split; try lia. now apply D.
  - set (a := if e <? 0 then Z.pos m / 2 ^ (- e) else Z.pos m * 2 ^ e) in *.
    assert (A : 0 <= a).
    { unfold a. destruct (e <? 0) eqn:E.
      - apply Z.div_pos; [lia |]. apply Z.pow_pos_nonneg; [lia |]. apply Z.ltb_lt in E. lia.
      - apply Z.ltb_ge in E. apply Z.mul_nonneg_nonneg; [lia |]. now apply Z.pow_nonneg. }
    exists (if s then - a else a). split; [reflexivity |]. subst s.
    split; [| split].
    + intros H. replace (int32 i <? 0) with false by (symmetry; apply Z.ltb_ge; lia). exact A.
    + intros H. replace (int32 i <? 0) with true by (symmetry; apply Z.ltb_lt; lia). lia.
    + now apply D.
Qed.

(** Demand 0xFFFFFFFF, -1 as an [int32]: -1000 is published. *)
Lemma X10_power_has_the_sign_of_the_int32_demand_witness :
  let v := InstantaneousDemand.mk "InstantaneousDemand" "" "" ""
             "0xFFFFFFFF" "0x00000001" "0x00000001" "" "" "" in
  InstantaneousDemand.valid v = true
  /\ exists z,
      truncate (fmul (fdiv (fmul (float64_of_int (int32 4294967295)) (float64_of_int 1))
                           (float64_of_int 1))
                     (float64_of_int 1000)) = Some z
      /\ (0 <= int32 4294967295 -> 0 <= z)
      /\ (int32 4294967295 < 0 -> z <= 0)
      /\ (- 2 ^ 63 <= z < 2 ^ 63 ->
          demandCase intOutside_amd64 v
          = ([mkMessage powerTopic (strconv.FormatInt z)], Next)).
Proof.
  cbv zeta. split; [reflexivity |].
  apply (X10_power_has_the_sign_of_the_int32_demand intOutside_amd64
           (InstantaneousDemand.mk "InstantaneousDemand" "" "" ""
              "0xFFFFFFFF" "0x00000001" "0x00000001" "" "" "")
           4294967295 1 1);
    try (vm_compute; reflexivity).
  discriminate.
Defined.

(** ** Discovery and state messages *)

Lemma discovery_state_topic (name unique_id device_class t state_class unit_ : string) :
  exists pre post,
    discovery name unique_id device_class t state_class unit_
    = pre ++ member "state_topic" t ++ post.
Proof.
  exists (NL ++ TAB ++ "{" ++ NL
          ++ member "name" name ++ "," ++ NL
          ++ member "unique_id" unique_id ++ "," ++ NL
          ++ member "device_class" device_class ++ "," ++ NL),
    ("," ++ NL ++ member "state_class" state_class ++ "," ++ NL
     ++ member "unit_of_measurement" unit_ ++ NL ++ TAB ++ "}").
  unfold discovery. now rewrite !append_assoc.
Qed.

(** Each topic of a reading is the state topic of a discovery message. *)
Lemma readings_announced (out : list Message) :
  readings out ->
  Forall (fun msg => exists config, In config setupMQTTDiscovery
                                    /\ announces config (topic msg)) out.
Proof.
  assert (P : exists config, In config setupMQTTDiscovery /\ announces config powerTopic).
  { eexists. split; [left; reflexivity |]. split; [reflexivity |].
    apply discovery_state_topic. }
  assert (D : exists config, In config setupMQTTDiscovery /\ announces config deliveredTopic).
  { eexists. split; [right; left; reflexivity |]. split; [reflexivity |].
    apply discovery_state_topic. }
  assert (R : exists config, In config setupMQTTDiscovery /\ announces config receivedTopic).
  { eexists. split; [right; right; left; reflexivity |]. split; [reflexivity |].
    apply discovery_state_topic. }
  induction 1; repeat constructor; assumption.
Qed.

(** X11: whatever [main] meets, what it publishes is nothing at all, or
    the three retained discovery messages followed by the readings, each
    reading unretained and on a topic that one of the discovery messages
    gives as its [state_topic]: no reading goes to a topic that was not
    announced before. *)
Theorem X11_readings_follow_their_discovery
        (unmarshalDemand : string -> InstantaneousDemand.t -> InstantaneousDemand.t)
        (unmarshalSummation
         : string -> CurrentSummationDelivered.t -> CurrentSummationDelivered.t)
        (intOutside : float64 -> Z) (env : Environment) :
  fst (main unmarshalDemand unmarshalSummation intOutside env) = []
  \/ exists out,
      fst (main unmarshalDemand unmarshalSummation intOutside env)
      = (setupMQTTDiscovery ++ map state out)%list
      /\ Forall (fun config => retained config = true /\ qos config = 0) setupMQTTDiscovery
      /\ Forall (fun msg => exists config, In config setupMQTTDiscovery
                                           /\ announces config (topic msg)) out.
Proof.
  unfold main. destruct (configError env); [now left |].
  destruct (connectError env); [now left |].
  assert (Q : Forall (fun config => retained config = true /\ qos config = 0)
                     setupMQTTDiscovery) by (repeat constructor).
  destruct (openPort env) as [msg | s].
  - right. exists []. split; [now rewrite app_nil_r |]. split; [exact Q | constructor].
  - pose proof (scanSerial_shape unmarshalDemand unmarshalSummation intOutside s) as H.
    destruct (scanSerial unmarshalDemand unmarshalSummation intOutside s) as [out o].
    right. exists out. split; [reflexivity |]. split; [exact Q |].
    apply readings_announced, H.
Qed.

(** ** Reads that carry bytes of one record only *)

(** A read takes from the first amount only. *)
Lemma readMore_app (c : string) (rd more : bufio.Reader) (space loop : Z) :
  nonempty c -> 0 < space ->
  bufio.readMore ((c :: rd) ++ more)%list space loop
  = let '(data, e, rd') := bufio.readMore (c :: rd) space loop in
    (data, e, (rd' ++ more)%list).
Proof.
  intros N S. cbn [app bufio.readMore].
  assert (0 < len c) by (destruct c; [now elim N | unfold len; simpl; lia]).
  destruct (len c <=? space).
  - now replace (0 <? len c) with true by (symmetry; now apply Z.ltb_lt).
  - now replace (0 <? space) with true by (symmetry; now apply Z.ltb_lt).
Qed.

Lemma reader_size_app (a b : bufio.Reader) :
  bufio.reader_size (a ++ b)%list = (bufio.reader_size a + bufio.reader_size b)%nat.
Proof. induction a as [|c a IH]; simpl; [reflexivity | rewrite IH; lia]. Qed.

(** The reads of one record, with those of other records behind them: the
    call of [Scan] yields that record and leaves the buffer empty. *)
Lemma Scan_loop_group (s : string) :
  one_frame s -> len s <= bufio.MaxScanTokenSize ->
  forall fuel st rd more,
    bounded st -> bufio.r st = (rd ++ more)%list ->
    bufio.buffered st ++ joined rd = s -> Forall nonempty rd ->
    bufio.err st = None -> bufio.done st = false ->
    (bufio.reader_size rd + 1 < fuel)%nat ->
    exists st',
      bufio.Scan_loop split fuel st = (bufio.Token s, st')
      /\ bounded st' /\ bufio.r st' = more /\ bufio.buffered st' = ""
      /\ bufio.err st' = None /\ bufio.done st' = false.
Proof.
  intros F Ls. induction fuel as [|fuel IH]; intros st rd more B R J N E D Lf; [lia |].
  cbn [bufio.Scan_loop]. rewrite tryToken_split, E. cbn [bufio.is_set]. rewrite orb_false_r.
  destruct rd as [|c rd].
  - (* the whole record is in the buffer *)
    simpl in J, R. rewrite append_empty_r in J.
    pose proof (one_frame_length s F) as L16.
    rewrite J. replace (0 <? len s) with true by (symmetry; apply Z.ltb_lt; lia).
    rewrite (one_frame_split s false F).
    eexists. split; [reflexivity |].
    destruct B as [B1 [B2 [B3 B4]]]. unfold bounded, bufio.end_ in *.
    cbn [bufio.start bufio.buffered bufio.buf_len bufio.maxTokenSize bufio.r bufio.err
         bufio.done].
    rewrite J in B2. rewrite drop_all. change (len "") with 0.
    repeat split; try assumption; lia.
  - (* a proper part of it is *)
    assert (Nr : joined (c :: rd) <> "").
    { inversion N as [|? ? Nc _]; subst. simpl. destruct c; [now elim Nc | discriminate]. }
    assert (Sp : split (bufio.buffered st) false = (0, None, None)).
    { apply (one_frame_split_prefix _ (joined (c :: rd))); [now rewrite J | exact Nr]. }
    rewrite Sp.
    assert (Lb : len (bufio.buffered st) < len s).
    { rewrite <- J, len_append. assert (0 < len (joined (c :: rd))); [| lia].
      destruct (joined (c :: rd)); [now elim Nr | unfold len; simpl; lia]. }
    replace (if 0 <? len (bufio.buffered st) then bufio.ReadOn st else bufio.ReadOn st)
      with (bufio.ReadOn st) by now destruct (0 <? len (bufio.buffered st)).
    rewrite E. cbn [bufio.is_set].
    destruct (bufio.grow (bufio.shift st)) as [s2|] eqn:G.
    2:{ pose proof (grow_shift_None st B G). lia. }
    destruct (shift_grow_fields _ _ G) as [R2 [E2 [B2 D2]]].
    destruct (grow_bounded _ _ (shift_bounded st B) G) as [Bd Room].
    pose proof (fill_bounded s2 Bd) as FB. revert FB.
    unfold bufio.fill. rewrite R2, R.
    inversion N as [|? ? Nc _]; subst.
    rewrite readMore_app by (assumption || lia).
    pose proof (readMore_nonempty c rd (bufio.buf_len s2 - bufio.end_ s2) 0 N ltac:(lia)) as R1.
    pose proof (readMore_joined (c :: rd) (bufio.buf_len s2 - bufio.end_ s2) 0) as R3.
    pose proof (readMore_size (c :: rd) (bufio.buf_len s2 - bufio.end_ s2) 0) as R4.
    destruct (bufio.readMore (c :: rd) (bufio.buf_len s2 - bufio.end_ s2) 0) as [[data e] rd'].
    destruct R1 as [-> [N' Ld]]. intros FB.
    apply (IH _ rd' more); cbn [bufio.r bufio.buffered bufio.err bufio.done];
      try assumption; try reflexivity.
    + now rewrite B2, append_assoc, R3.
    + now rewrite E2.
    + now rewrite D2.
    + lia.
Qed.

Lemma Scan_all_groups (groups : list (list string)) :
  Forall (fun g => one_frame (joined g) /\ len (joined g) <= bufio.MaxScanTokenSize
                   /\ Forall nonempty g) groups ->
  forall fuel st,
    bounded st -> bufio.r st = List.concat groups -> bufio.buffered st = "" ->
    bufio.err st = None -> bufio.done st = false ->
    (List.length groups < fuel)%nat ->
    bufio.Scan_all split fuel st = (map joined groups, bufio.Stopped).
Proof.
  induction 1 as [|g groups [F [L N]] _ IH]; intros fuel st B R Bf E D Lf;
    (destruct fuel as [|fuel]; [simpl in Lf; lia |]); cbn [bufio.Scan_all].
  - pose proof (Scan_exhausted st R Bf E D) as X.
    destruct (bufio.Scan split st) as [res st'']. simpl in X. now subst res.
  - unfold bufio.Scan. rewrite D.
    destruct (Scan_loop_group (joined g) F L (S (S (bufio.reader_size (bufio.r st))))
                              st g (List.concat groups) B R)
      as [st' [Eq [B' [R' [Bf' [E' D']]]]]]; try assumption.
    { now rewrite Bf. }
    { rewrite R. cbn [List.concat]. rewrite reader_size_app. lia. }
    rewrite Eq. rewrite (IH fuel st' B' R' Bf' E' D'); [reflexivity |].
    simpl in Lf. lia.
Qed.

(** X12: when no read carries bytes of two records, that is, the reads
    fall into groups, each of non-empty reads that together are one
    complete frame of at most 64 KiB, the scanner yields exactly these
    frames in order, none merged with the next, and [scanSerial] runs its
    loop body once on each. *)
Theorem X12_reads_of_one_record_each_give_the_records
        (groups : list (list string)) :
  Forall (fun g => one_frame (joined g) /\ len (joined g) <= 65536 /\ Forall nonempty g)
         groups ->
  frames (List.concat groups) = (map joined groups, bufio.Stopped)
  /\ forall unmarshalDemand unmarshalSummation intOutside,
      scanSerial unmarshalDemand unmarshalSummation intOutside (List.concat groups)
      = loop unmarshalDemand unmarshalSummation intOutside zeroLocals
             (map joined groups) bufio.Stopped.
Proof.
  intros G.
  assert (F : frames (List.concat groups) = (map joined groups, bufio.Stopped)).
  { unfold frames. apply Scan_all_groups; try reflexivity.
    - exact G.
    - apply newScanner_bounded.
    - assert (List.length groups <= bufio.reader_size (List.concat groups))%nat; [| lia].
      induction G as [|g groups [Fg _] _ IH]; [simpl; lia |].
      cbn [List.concat List.length]. rewrite reader_size_app.
      pose proof (one_frame_length _ Fg). pose proof (length_joined g).
      unfold len in *. lia. }
  split; [exact F |]. intros. now rewrite scanSerial_frames, F.
Qed.

(** A time-cluster record in two reads, then a demand record in one. *)
Lemma X12_reads_of_one_record_each_give_the_records_witness :
  let time1 := "<TimeCluster>" ++ CRLF ++ "  <UTCTime>0x2bd0c8a7</UTCTime>" ++ CRLF ++ "</Time" in
  let time2 := "Cluster>" ++ CRLF in
  let demand :=
    "<InstantaneousDemand>" ++ CRLF ++ "  <Demand>0x000005</Demand>" ++ CRLF
    ++ "  <Multiplier>0x00000002</Multiplier>" ++ CRLF
    ++ "  <Divisor>0x00000001</Divisor>" ++ CRLF ++ closeInstantaneousDemand in
  frames [time1; time2; demand] = ([time1 ++ time2; demand ++ ""], bufio.Stopped)
  /\ forall unmarshalDemand unmarshalSummation intOutside,
      scanSerial unmarshalDemand unmarshalSummation intOutside [time1; time2; demand]
      = loop unmarshalDemand unmarshalSummation intOutside zeroLocals
             [time1 ++ time2; demand ++ ""] bufio.Stopped.
Proof.
  cbv zeta.
  apply (X12_reads_of_one_record_each_give_the_records
           [["<TimeCluster>" ++ CRLF ++ "  <UTCTime>0x2bd0c8a7</UTCTime>" ++ CRLF ++ "</Time";
             "Cluster>" ++ CRLF];
            ["<InstantaneousDemand>" ++ CRLF ++ "  <Demand>0x000005</Demand>" ++ CRLF
             ++ "  <Multiplier>0x00000002</Multiplier>" ++ CRLF
             ++ "  <Divisor>0x00000001</Divisor>" ++ CRLF ++ closeInstantaneousDemand]]).
  constructor; [| constructor; [| constructor]]; (split; [| split]).
  - apply one_frame_intro.
    + intros m [<- | [<- | [<- | []]]]; vm_compute; auto.
    + exists closeTimeCluster. split; [simpl; auto | vm_compute; discriminate].
  - vm_compute; discriminate.
  - repeat constructor; discriminate.
  - apply one_frame_intro.
    + intros m [<- | [<- | [<- | []]]]; vm_compute; auto.
    + exists closeInstantaneousDemand. split; [simpl; auto | vm_compute; discriminate].
  - vm_compute; discriminate.
  - repeat constructor; discriminate.
Defined.

(** ** Fields the rule lets through and [ParseInt] refuses *)

Lemma hexDigit_letter (c : ascii) :
  validator.isHexDigit c = true -> isDigit c = false -> 10 <= hexDigitValue c.
Proof.
  destruct c as [[] [] [] [] [] [] [] []]; vm_compute; intros H D;
    try discriminate H; try discriminate D; discriminate.
Qed.

(** In base 10 the digit loop fails on a string of hexadecimal digits one
    of which is a letter: at the letter, or before it when the value leaves
    [uint64]. *)
Lemma digits_dec_fails (t : string) (n : Z) (u : bool) :
  all_hex t = true -> all_digits t = false ->
  exists u',
    strconv.digits t true 10 1844674407370955162 18446744073709551615 n u
    = (0, Some strconv.ErrSyntax, u')
    \/ strconv.digits t true 10 1844674407370955162 18446744073709551615 n u
       = (18446744073709551615, Some strconv.ErrRange, u').
Proof.
  revert n. induction t as [|c t IH]; intros n A D; [discriminate D |].
  simpl in A. apply andb_true_iff in A. destruct A as [H A].
  destruct (digitOf_hex c H) as [Dg [[D0 D16] U]].
  cbn [strconv.digits]. rewrite U, Dg. cbn [andb].
  destruct (isDigit c) eqn:Dc.
  - destruct (isDigit_hex c Dc) as [_ [Dg' [[E0 E10] _]]].
    rewrite Dg in Dg'. injection Dg' as Dg'. rewrite Dg'.
    replace (10 <=? strconv.byte c - 48) with false by (symmetry; apply Z.leb_gt; lia).
    destruct (1844674407370955162 <=? n); [exists u; now right |].
    destruct (_ || _); [exists u; now right |].
    apply IH; [exact A |]. simpl in D. now rewrite Dc in D.
  - pose proof (hexDigit_letter c H Dc) as L.
    replace (10 <=? hexDigitValue c) with true by (symmetry; apply Z.leb_le; lia).
    exists u. now left.
Qed.

Lemma required_hexadecimal_unprefixed (c : ascii) (t : string) :
  validator.required_hexadecimal (String c t) = true -> c <> "0"%char ->
  all_hex (String c t) = true.
Proof.
  unfold validator.required_hexadecimal, validator.hasValue. cbn [String.eqb negb andb].
  intros H N. apply (hexDigits_all_hex (String c t)). revert H N.
  unfold validator.isHexadecimal.
  destruct c as [[] [] [] [] [] [] [] []]; intros H N; try exact H. now elim N.
Qed.

Lemma ParseInt_unprefixed_letter (f : string) :
  validator.required_hexadecimal f = true -> unprefixed_letter f = true ->
  exists n e, strconv.ParseInt f 0 64 = (n, Some e).
Proof.
  intros V B. destruct f as [|c t]; [discriminate B |].
  unfold unprefixed_letter in B. apply andb_true_iff in B. destruct B as [B1 B2].
  apply negb_true_iff in B1, B2.
  assert (N : c <> "0"%char) by (intros ->; discriminate B1).
  pose proof (required_hexadecimal_unprefixed c t V N) as A.
  apply required_hexadecimal_first, isHexDigit_no_sign in V. destruct V as [V1 V2].
  assert (Z48 : (strconv.byte c =? 48) = false).
  { apply Z.eqb_neq. intros E. apply N.
    revert E. destruct c as [[] [] [] [] [] [] [] []]; vm_compute; congruence. }
  unfold strconv.ParseInt. cbn [String.eqb].
  change (strconv.at_ (String c t) 0) with (strconv.byte c). rewrite V1, V2.
  unfold strconv.ParseUint, strconv.pickBase. cbn [String.eqb].
  change (strconv.at_ (String c t) 0) with (strconv.byte c). rewrite Z48.
  change ((2 <=? 0) && (0 <=? 36)) with false. change (0 =? 0) with true. cbv iota.
  change ((64 <? 0) || (64 <? 64)) with false. cbv iota.
  change (if 64 =? 0 then strconv.IntSize else 64) with 64.
  change (strconv.maxUint64 / 10 + 1) with 1844674407370955162.
  change (((2 ^ 64) mod 2 ^ 64 - 1) mod 2 ^ 64) with 18446744073709551615.
  destruct (digits_dec_fails (String c t) 0 false A B2) as [u' [-> | ->]].
  - now exists 0, strconv.ErrSyntax.
  - now exists (2 ^ (64 - 1) - 1), strconv.ErrRange.
Qed.

(** X13: a validated record one of whose required fields is written
    without the [0x] prefix and with a letter among its hexadecimal digits
    (and does not start with [0]) ends the program: the rule lets the
    field through, [ParseInt] reads it in base 10 and fails, and the loop
    reaches [log.Fatal] without publishing anything for the record. *)
Theorem X13_unprefixed_hexadecimal_letter_is_fatal
        (intOutside : float64 -> Z) :
  (forall v : InstantaneousDemand.t,
      InstantaneousDemand.valid v = true ->
      unprefixed_letter (InstantaneousDemand.Demand v)
      || unprefixed_letter (InstantaneousDemand.Multiplier v)
      || unprefixed_letter (InstantaneousDemand.Divisor v) = true ->
      demandCase intOutside v = ([], Fatal "ERROR parsing XML:"))
  /\ (forall v : CurrentSummationDelivered.t,
         CurrentSummationDelivered.valid v = true ->
         unprefixed_letter (CurrentSummationDelivered.SummationDelivered v)
         || unprefixed_letter (CurrentSummationDelivered.SummationReceived v)
         || unprefixed_letter (CurrentSummationDelivered.Multiplier v)
         || unprefixed_letter (CurrentSummationDelivered.Divisor v) = true ->
         summationCase v = ([], Fatal "ERROR parsing XML:")).
Proof.
  split; intros v V B.
  - unfold demandCase. rewrite V. cbn [negb].
    unfold InstantaneousDemand.valid in V.
    apply andb_true_iff in V. destruct V as [V V3].
    apply andb_true_iff in V. destruct V as [V1 V2].
    repeat match goal with
           | |- context [strconv.ParseInt ?s 0 64] =>
               let E := fresh "E" in
               destruct (strconv.ParseInt s 0 64) as [? [?|]] eqn:E; [reflexivity |]
           end.
    exfalso.
    repeat (apply orb_true_iff in B; destruct B as [B | B]);
      match goal with
      | Vf : validator.required_hexadecimal ?f = true, Bf : unprefixed_letter ?f = true |- _ =>
          destruct (ParseInt_unprefixed_letter f Vf Bf) as [n [e Q]]; congruence
      end.
  - unfold summationCase. rewrite V. cbn [negb].
    unfold CurrentSummationDelivered.valid in V.
    apply andb_true_iff in V. destruct V as [V V4].
    apply andb_true_iff in V. destruct V as [V V3].
    apply andb_true_iff in V. destruct V as [V1 V2].
    repeat match goal with
           | |- context [strconv.ParseInt ?s 0 64] =>
               let E := fresh "E" in
               destruct (strconv.ParseInt s 0 64) as [? [?|]] eqn:E; [reflexivity |]
           end.
    exfalso.
    repeat (apply orb_true_iff in B; destruct B as [B | B]);
      match goal with
      | Vf : validator.required_hexadecimal ?f = true, Bf : unprefixed_letter ?f = true |- _ =>
          destruct (ParseInt_unprefixed_letter f Vf Bf) as [n [e Q]]; congruence
      end.
Qed.

(** A demand record whose Demand is written [FF]. *)
Lemma X13_unprefixed_hexadecimal_letter_is_fatal_witness :
  let v := InstantaneousDemand.mk "InstantaneousDemand" "" "" ""
             "FF" "0x00000001" "0x000003e8" "" "" "" in
  InstantaneousDemand.valid v = true
  /\ demandCase intOutside_amd64 v = ([], Fatal "ERROR parsing XML:").
Proof.
  cbv zeta. split; [reflexivity |].
  apply (proj1 (X13_unprefixed_hexadecimal_letter_is_fatal intOutside_amd64)); reflexivity.
Defined.

(** ** The payloads *)

Lemma FormatInt_decimal (z : Z) : decimal_integer (strconv.FormatInt z).
Proof.
  destruct z as [|p|p].
  - exists "", "0". repeat split; auto; discriminate.
  - exists "", (strconv.FormatInt (Z.pos p)). split; [reflexivity |].
    split; [now left |]. split; [apply FormatInt_nonempty | now apply FormatInt_digits].
  - exists "-", (strconv.FormatInt (Z.pos p)). split; [reflexivity |].
    split; [now right |]. split; [apply FormatInt_nonempty | now apply FormatInt_digits].
Qed.

Lemma Sprintf_f_3_cases (x : float64) :
  three_decimals (fmt.Sprintf_f 3 x) \/ no_number (fmt.Sprintf_f 3 x).
Proof.
  destruct x as [s | s | | s m e].
  - left. now apply Sprintf_f_three_decimals.
  - right. apply Sprintf_f_no_number. right. now exists s.
  - right. apply Sprintf_f_no_number. now left.
  - left. now apply Sprintf_f_three_decimals.
Qed.

Lemma demandCase_payload (intOutside : float64 -> Z) (v : InstantaneousDemand.t) :
  Forall well_formed (fst (demandCase intOutside v)).
Proof.
  unfold demandCase. destruct (negb _); [constructor |].
  repeat match goal with
         | |- context [strconv.ParseInt ?s 0 64] =>
             destruct (strconv.ParseInt s 0 64) as [? [?|]]; [constructor |]
         end.
  cbn [fst]. unfold powerText. rewrite publishPower_FormatInt.
  constructor; [| constructor]. left. split; [reflexivity | apply FormatInt_decimal].
Qed.

Lemma summationCase_payload (v : CurrentSummationDelivered.t) :
  Forall well_formed (fst (summationCase v)).
Proof.
  unfold summationCase. destruct (negb _); [constructor |].
  repeat match goal with
         | |- context [strconv.ParseInt ?s 0 64] =>
             destruct (strconv.ParseInt s 0 64) as [? [?|]]; [constructor |]
         end.
  cbn [fst]. unfold publishEnergy, energyText. apply Forall_app. split.
  - destruct (_ =? _)%string; constructor; [| constructor].
    right. split; [now left | apply Sprintf_f_3_cases].
  - destruct (_ =? _)%string; constructor; [| constructor].
    right. split; [now right | apply Sprintf_f_3_cases].
Qed.

Lemma loop_payload
      (unmarshalDemand : string -> InstantaneousDemand.t -> InstantaneousDemand.t)
      (unmarshalSummation
       : string -> CurrentSummationDelivered.t -> CurrentSummationDelivered.t)
      (intOutside : float64 -> Z) (toks : list string) (l : Locals) (e : bufio.Ending) :
  Forall well_formed
         (fst (loop unmarshalDemand unmarshalSummation intOutside l toks e)).
Proof.
  revert l. induction toks as [|t toks IH]; intros l; cbn [loop]; [constructor |].
  assert (S : Forall well_formed
                     (snd (fst (iteration unmarshalDemand unmarshalSummation intOutside l t)))).
  { unfold iteration. destruct (String.get 1 t) as [c|]; [| constructor].
    destruct (Ascii.eqb c "I").
    { pose proof (demandCase_payload intOutside
                    (unmarshalDemand t (instantaneousDemand l))) as P.
      now destruct (demandCase intOutside _). }
    destruct (Ascii.eqb c "C").
    { pose proof (summationCase_payload
                    (unmarshalSummation t (currentSummationDelivered l))) as P.
      now destruct (summationCase _). }
    destruct (Ascii.eqb c "T"); constructor. }
  destruct (iteration unmarshalDemand unmarshalSummation intOutside l t) as [[l' out] ctl].
  cbn [fst snd] in S. destruct ctl as [|msg|]; try exact S.
  specialize (IH l').
  destruct (loop unmarshalDemand unmarshalSummation intOutside l' toks e) as [rest o].
  cbn [fst] in *. apply Forall_app. now split.
Qed.

(** X14: every message [scanSerial] publishes is well formed, whatever the
    stream holds: a power reading has a decimal integer for payload, also
    when the divisor is zero; an energy reading has a number with exactly
    three fraction digits, or one of [+Inf], [-Inf] and [NaN]. *)
Theorem X14_payloads_are_well_formed
        (unmarshalDemand : string -> InstantaneousDemand.t -> InstantaneousDemand.t)
        (unmarshalSummation
         : string -> CurrentSummationDelivered.t -> CurrentSummationDelivered.t)
        (intOutside : float64 -> Z) (rd : bufio.Reader) :
  Forall well_formed (fst (scanSerial unmarshalDemand unmarshalSummation intOutside rd)).
Proof. rewrite scanSerial_frames. apply loop_payload. Qed.

(** ** The number an energy text denotes *)










(** ** How far the rounded value is from the exact one *)


















(** ** C7 *)


